(** * Spoolman label templating and export pipeline

    A shallow embedding of the label export code of the Spoolman client
    ([printing.tsx], [exportDialog.tsx], [qrCodeExportDialog.tsx],
    [spoolQrCodeExportDialog.tsx], [titleTextBlock.tsx],
    [utils/vendorLogo.ts]) and the properties its specification states
    about it, followed by further properties of the same code.

    JavaScript strings are modelled as lists of 8-bit code units
    ([list ascii], read as Latin-1); every character class of the source is
    restricted to that range.  JavaScript numbers that only ever get
    printed are carried by their decimal rendering; numbers that are
    computed with are rationals: exact ones for the settings in
    millimetres and dots per inch, and the doubles with their rounding for
    the scale of the title auto-fit. *)

From Stdlib Require Import Ascii String List ZArith QArith Qround Qminmax Qpower Lia Lqa Bool.
From stdpp Require Import base option list gmap sets strings pretty.

Local Open Scope list_scope.

(** ** JavaScript strings *)

Abbreviation jstring := (list ascii).

(** String literals: [str] of a literal is its list of code units. *)
Definition str (s : string) : jstring := list_ascii_of_string s.

(** [WhiteSpace] and [LineTerminator] code units below 256: the set that
    [String.prototype.trim] strips and that [\s] matches. *)
Definition is_js_space (c : ascii) : bool :=
  match c with
  | "009" | "010" | "011" | "012" | "013" | " " | "160" => true
  | _ => false
  end%char.

(** [LineTerminator] code units below 256: what [.] does not match when the
    [s] flag is absent. *)
Definition is_line_terminator (c : ascii) : bool :=
  match c with
  | "010" | "013" => true
  | _ => false
  end%char.

Definition ascii_eqb (a b : ascii) : bool := Ascii.eqb a b.

Fixpoint drop_leading (p : ascii -> bool) (l : jstring) : jstring :=
  match l with
  | [] => []
  | c :: r => if p c then drop_leading p r else l
  end.

(** Removes the longest suffix whose code units all satisfy [p]. *)
Fixpoint drop_trailing (p : ascii -> bool) (l : jstring) : jstring :=
  match l with
  | [] => []
  | c :: r =>
      match drop_trailing p r with
      | [] => if p c then [] else [c]
      | r' => c :: r'
      end
  end.

(** [String.prototype.trim]. *)
Definition trim (s : jstring) : jstring :=
  drop_trailing is_js_space (drop_leading is_js_space s).

(** ** Filename sanitisation ([exportDialog.tsx], [sanitizeFilename]) *)

(** The class of code units the first [replace] rewrites: the nine
    punctuation marks [<], [>], [:], double quote, [/], backslash, [|], [?],
    [*], and the control range 0x00-0x1F. *)
Definition is_disallowed (c : ascii) : bool :=
  match c with
  | "<" | ">" | ":" | "034" | "/" | "\" | "|" | "?" | "*" => true
  | _ => (nat_of_ascii c <? 32)%nat
  end%char.

(** The global [replace] of that class by a dash. *)
Definition replace_disallowed (s : jstring) : jstring :=
  map (fun c => if is_disallowed c then "-"%char else c) s.

(** The global [replace] of [\s+] by one space: every maximal run of white
    space becomes one space.  [in_run] tells that the previous code unit
    was white space. *)
Fixpoint collapse_ws (in_run : bool) (s : jstring) : jstring :=
  match s with
  | [] => []
  | c :: r =>
      if is_js_space c
      then (if in_run then collapse_ws true r else " "%char :: collapse_ws true r)
      else c :: collapse_ws false r
  end.

Definition is_dot (c : ascii) : bool := ascii_eqb c "."%char.

(** The [replace] of [\.+$] by the empty string: without the [m] flag [$]
    is the end of input. *)
Definition strip_trailing_dots (s : jstring) : jstring := drop_trailing is_dot s.

Definition sanitizeFilename (value : jstring) : jstring :=
  let trimmed := trim value in
  match trimmed with
  | [] => []
  | _ => strip_trailing_dots (collapse_ws false (replace_disallowed trimmed))
  end.

(** White-space normal form: every white-space code unit of [s] is a plain
    space and no two are adjacent ([b] tells that a white-space unit
    precedes [s]).  This is the shape [collapse_ws] produces. *)
Fixpoint ws_ok (b : bool) (s : jstring) : bool :=
  match s with
  | [] => true
  | c :: r =>
      if is_js_space c
      then ascii_eqb c " "%char && negb b && ws_ok true r
      else ws_ok false r
  end.

Definition allowed (s : jstring) : Prop := Forall (fun c => is_disallowed c = false) s.

(** ** Unique export items ([exportDialog.tsx], [getUniqueExportItems]) *)

(** A rendered label node.  [isEqualNode] compares the attributes and the
    subtree; the node is carried by its [data-aml-name] attribute and the
    serialisation of everything else. *)
Record Element := mkElement {
  dataAmlName : option jstring;
  markup : jstring
}.

Global Instance Element_eq_dec : EqDecision Element.
Proof. solve_decision. Defined.

Definition isEqualNode (a b : Element) : bool := bool_decide (a = b).

(** [String(n)] for a non-negative integer. *)
Definition String_of_nat (n : nat) : jstring := str (pretty n).

(** [s.padStart(targetLength, fill)] for a one-unit [fill]. *)
Definition padStart (targetLength : nat) (fill : ascii) (s : jstring) : jstring :=
  repeat fill (targetLength - length s) ++ s.

(** The template literal [label-${idx}]. *)
Definition label_idx (idx : nat) : jstring := str "label-" ++ String_of_nat idx.

(** [a || b] on strings: the empty string is falsy. *)
Definition or_else (a b : jstring) : jstring :=
  match a with [] => b | _ => a end.

Definition rawName (item : Element) (idx : nat) : jstring :=
  match dataAmlName item with
  | Some n => or_else n (label_idx idx)
  | None => label_idx idx
  end.

Definition baseName (item : Element) (idx : nat) : jstring :=
  or_else (sanitizeFilename (rawName item idx)) (label_idx idx).

Definition suffixed (base : jstring) (nameSuffix : nat) : jstring :=
  base ++ padStart 2 "0"%char (String_of_nat nameSuffix).

(** The [while (usedNames.has(safeName))] loop, entered with a used
    [safeName]; [fuel] bounds the number of iterations. *)
Fixpoint next_free (fuel : nat) (usedNames : gset jstring) (base : jstring)
    (nameSuffix : nat) : option jstring :=
  match fuel with
  | O => None
  | S fuel' =>
      let safeName := suffixed base nameSuffix in
      if decide (safeName ∈ usedNames)
      then next_free fuel' usedNames base (S nameSuffix)
      else Some safeName
  end.

Definition safeName_for (usedNames : gset jstring) (base : jstring) : option jstring :=
  if decide (base ∈ usedNames)
  then next_free (S (size usedNames)) usedNames base 1
  else Some base.

(** The body of the [for (const item of itemsToPrint)] loop with its four
    mutable locals threaded through. *)
Fixpoint uniqueLoop (itemsToPrint hasPrinted : list Element)
    (usedNames : gset jstring) (idx : nat) : option (list (Element * jstring)) :=
  match itemsToPrint with
  | [] => Some []
  | item :: rest =>
      if existsb (isEqualNode item) hasPrinted
      then uniqueLoop rest hasPrinted usedNames idx
      else
        match safeName_for usedNames (baseName item idx) with
        | None => None
        | Some safeName =>
            match uniqueLoop rest (hasPrinted ++ [item])
                    ({[ safeName ]} ∪ usedNames) (S idx) with
            | None => None
            | Some more => Some ((item, safeName) :: more)
            end
        end
  end.

Definition getUniqueExportItems (itemsToPrint : list Element)
  : option (list (Element * jstring)) :=
  uniqueLoop itemsToPrint [] ∅ 1.

(** The expected names of [n] items sharing the base name [B]. *)
Definition same_base_names (B : jstring) (n : nat) : list jstring :=
  match n with
  | O => []
  | S m => B :: map (suffixed B) (seq 1 m)
  end.

(** [name] is [B] followed by exactly two code units. *)
Definition two_digit_suffix (B name : jstring) : Prop :=
  exists d1 d2, name = B ++ [d1; d2].

(** 101 distinct label nodes, all named [label]. *)
Definition items101 : list Element :=
  map (fun i => mkElement (Some (str "label")) (String_of_nat i)) (seq 0 101).

(** ** Print settings ([printing.tsx]) *)

(** Each interface is a module holding a record [t]; an absent optional
    field is [None]. *)
Module Margins.
Record t := mk { top : Q; bottom : Q; left : Q; right : Q }.
End Margins.

Module Spacing.
Record t := mk { horizontal : Q; vertical : Q }.
End Spacing.

Module Size.
Record t := mk { width : Q; height : Q }.
End Size.

Inductive BorderShowMode := border_none | border_border | border_grid.
Inductive ExportFormat := png | aml.

Module PrintSettings.
Record t := mk {
  id : jstring;
  name : option jstring;
  margin : option Margins.t;
  printerMargin : option Margins.t;
  spacing : option Spacing.t;
  columns : option Q;
  rows : option Q;
  skipItems : option Q;
  itemCopies : option Q;
  paperSize : option jstring;
  customPaperSize : option Size.t;
  borderShowMode : option BorderShowMode;
  amlLabelSize : option Size.t;
  exportDpi : option Q;
  exportFormat : option ExportFormat;
  exportAsZip : option bool
}.
End PrintSettings.

(** ** Export ([exportDialog.tsx]) *)







Section ExportDialog.
(** The props and collaborators of one rendered dialog: the settings, the
    label nodes found under the preview, the zip type name and the
    rasteriser [htmlToImage.toPng], whose promise resolves to a data URL
    ([Some]) or rejects ([None]). *)
Variable printSettings : PrintSettings.t.
Variable printItems : list Element.
Variable zipFileTypeName : jstring.
Variable toPng : Element -> option jstring.

Definition customPaperSize : Size.t :=
  default (Size.mk 40 30) (PrintSettings.customPaperSize printSettings).
Definition exportFormat : ExportFormat :=
  default aml (PrintSettings.exportFormat printSettings).
Definition exportAsZip : bool :=
  default false (PrintSettings.exportAsZip printSettings).


Definition uniqueItems : list (Element * jstring) :=
  default [] (getUniqueExportItems printItems).






End ExportDialog.







(** ** Records and tag resolution ([printing.tsx], [getTagValue]) *)

(** The values a record field can hold and the values a tag can resolve
    to.  A number is carried by the text [String] prints for it.  An
    object follows the interface [GenericObject]: named fields plus the
    [extra] map of JSON-encoded strings.  Records are JSON data: plain
    objects, whose prototype is [Object.prototype], and no field of theirs
    holds a function.  [VFun name] is the built-in function that every
    plain object inherits from [Object.prototype] under the key [name].
    Arrays are outside the model. *)
Inductive jsval :=
  | VUndefined
  | VNull
  | VBool (b : bool)
  | VNum (shown : jstring)
  | VStr (s : jstring)
  | VObj (o : GenericObject)
  | VFun (name : jstring)
with GenericObject :=
  | mkObject (fields : list (jstring * jsval)) (extra : list (jstring * jstring)).

Definition jstring_eqb (a b : jstring) : bool := bool_decide (a = b).

(** Property lookup in the [extra] map: the first binding of the key. *)
Fixpoint lookup_extra (key : jstring) (extra : list (jstring * jstring)) : option jstring :=
  match extra with
  | [] => None
  | (k, v) :: rest => if jstring_eqb k key then Some v else lookup_extra key rest
  end.

(** [tag.split(".")]: always at least one part. *)
Fixpoint split_dot (s : jstring) : list jstring :=
  match s with
  | [] => [[]]
  | c :: r =>
      if ascii_eqb c "."%char then [] :: split_dot r
      else match split_dot r with
           | [] => [[c]]
           | p :: ps => (c :: p) :: ps
           end
  end.

(** [parts.join(".")] *)
Fixpoint join_dot (parts : list jstring) : jstring :=
  match parts with
  | [] => []
  | [p] => p
  | p :: ps => p ++ "."%char :: join_dot ps
  end.

(** The keys under which [Object.prototype] holds a function.  Its one
    other property is the accessor [__proto__]. *)
Definition object_prototype_functions : list jstring :=
  map str ["constructor"; "hasOwnProperty"; "isPrototypeOf"; "propertyIsEnumerable";
           "toLocaleString"; "toString"; "valueOf"; "__defineGetter__";
           "__defineSetter__"; "__lookupGetter__"; "__lookupSetter__"].

Definition is_prototype_function (key : jstring) : bool :=
  existsb (jstring_eqb key) object_prototype_functions.

(** The source text of a built-in function, as V8 prints it. *)
Definition native_source (name : jstring) : jstring :=
  str "function "
  ++ (if jstring_eqb name (str "constructor") then str "Object" else name)
  ++ str "() { [native code] }".

(** [String(value)], also the conversion [+] applies to an operand that is
    not a string, where it does not throw. *)
Definition String_of (v : jsval) : jstring :=
  match v with
  | VUndefined => str "undefined"
  | VNull => str "null"
  | VBool true => str "true"
  | VBool false => str "false"
  | VNum shown => shown
  | VStr s => s
  | VObj _ => str "[object Object]"
  | VFun name => native_source name
  end.

(** Both conversions throw a [TypeError] for an object with a field
    [toString]: the field shadows the inherited function and cannot be
    called, and the inherited [valueOf] returns the object. *)
Definition String_throws (v : jsval) : bool :=
  match v with
  | VObj (mkObject fields _) => existsb (fun kv => jstring_eqb kv.1 (str "toString")) fields
  | _ => false
  end.

(** [tagValue === "?"] *)
Definition is_sentinel (v : jsval) : bool :=
  match v with
  | VStr s => jstring_eqb s (str "?")
  | _ => false
  end.

(** [getTagValue(tag, Object.prototype)]: the prototype has no [extra],
    so a tag that starts with [extra] ends in a [TypeError]; it holds the
    built-in functions, and its own [__proto__] is [null]. *)
Definition getTagValue_prototype (tag : jstring) : option jsval :=
  let first := default [] (head (split_dot tag)) in
  if jstring_eqb first (str "extra") then None
  else if is_prototype_function first then Some (VFun first)
  else Some (VStr (str "?")).

(** What [getTagValue] makes of [obj[first]] when [first] is no field of
    the record: the lookup goes on in [Object.prototype], where it finds a
    function, or, under [__proto__], the prototype itself, an object that
    is resolved further with the [rest] of the tag, or nothing. *)
Definition inherited_value (first rest : jstring) : option jsval :=
  if is_prototype_function first then Some (VFun first)
  else if jstring_eqb first (str "__proto__") then getTagValue_prototype rest
  else Some (VStr (str "?")).

(** [obj.extra[key]] for a [key] that the map does not hold, as a string:
    the text [JSON.parse] makes of what the map inherits under [key]. *)
Definition inherited_text (key : jstring) : option jstring :=
  if is_prototype_function key then Some (native_source key)
  else if jstring_eqb key (str "__proto__") then Some (str "[object Object]")
  else None.

(** The property access [obj[tagParts[0]]] followed by the rest of the body
    of [getTagValue] on the value found: an [undefined] or [null] value is
    the sentinel, an object is resolved further by [resolve], any other
    value is returned; a key that is no field gives [inherited]. *)
Fixpoint look_field (resolve : GenericObject -> option jsval) (inherited : option jsval)
    (first : jstring) (fs : list (jstring * jsval)) : option jsval :=
  match fs with
  | [] => inherited
  | (k, v) :: fs' =>
      if jstring_eqb k first then
        match v with
        | VUndefined | VNull => Some (VStr (str "?"))
        | VObj value => resolve value
        | _ => Some v
        end
      else look_field resolve inherited first fs'
  end.

Section Resolution.
(** [JSON.parse]; [None] is the [SyntaxError] it throws. *)
Variable JSON_parse : jstring -> option jsval.

(** [getTagValue]; [None] is an exception. *)
Fixpoint getTagValue (tag : jstring) (obj : GenericObject) {struct obj} : option jsval :=
  match obj with
  | mkObject fields extra =>
      let tagParts := split_dot tag in
      let first := default [] (head tagParts) in
      if jstring_eqb first (str "extra") then
        let key := default (str "undefined") (tagParts !! 1) in
        match lookup_extra key extra with
        | Some extraValue => JSON_parse extraValue
        | None =>
            match inherited_text key with
            | Some text => JSON_parse text
            | None => Some (VStr (str "?"))
            end
        end
      else
        let rest := join_dot (tail tagParts) in
        look_field (getTagValue rest) (inherited_value first rest) first fields
  end.
End Resolution.

(** ** The template engine ([printing.tsx], [renderTemplateText]) *)

Definition is_open (c : ascii) : bool := ascii_eqb c "{"%char.
Definition is_close (c : ascii) : bool := ascii_eqb c "}"%char.
Definition is_brace (c : ascii) : bool := is_open c || is_close c.

(** *** The span pattern *)

(** The constructs the span pattern uses. *)
Inductive regex :=
  | Chr (p : ascii -> bool)
  | Cat (r1 r2 : regex)
  | Alt (r1 r2 : regex)
  | Star (r : regex).

(** The greedy star: at most [n] more iterations of [m], each consuming at
    least one unit, then the continuation [k]; fewer iterations are tried
    when more fail. *)
Fixpoint star_iter {A : Type} (m : jstring -> (jstring -> option A) -> option A)
    (k : jstring -> option A) (n : nat) (s : jstring) : option A :=
  match n with
  | O => k s
  | S n' =>
      match m s (fun s' => if (length s' <? length s)%nat then star_iter m k n' s' else None) with
      | Some r => Some r
      | None => k s
      end
  end.

(** [backtrack r s k]: the first way, in backtracking order, to match [r]
    at the start of [s] such that [k] accepts what follows. *)
Fixpoint backtrack {A : Type} (r : regex) (s : jstring) (k : jstring -> option A) : option A :=
  match r with
  | Chr p =>
      match s with
      | c :: s' => if p c then k s' else None
      | [] => None
      end
  | Cat r1 r2 => backtrack r1 s (fun s' => backtrack r2 s' k)
  | Alt r1 r2 =>
      match backtrack r1 s k with
      | Some x => Some x
      | None => backtrack r2 s k
      end
  | Star r1 => star_iter (backtrack r1) k (length s) s
  end.

Definition non_brace (c : ascii) : bool := negb (is_brace c).

(** The pattern of [matchAll]: an opening brace, any number of items, a
    closing brace; an item is a non-brace unit or a brace pair around
    non-brace units. *)
Definition span_regex : regex :=
  Cat (Chr is_open)
    (Cat (Star (Alt (Chr non_brace)
                    (Cat (Chr is_open) (Cat (Star (Chr non_brace)) (Chr is_close)))))
         (Chr is_close)).

(** The match of the span pattern at the start of [s]: what follows it. *)
Definition span_exec (s : jstring) : option jstring := backtrack span_regex s Some.

(** [template.matchAll(...)]: the matched texts from left to right.  After
    a match the search resumes behind it: [skip] counts the units of the
    last match still to be passed over. *)
Fixpoint matchAll_from (skip : nat) (s : jstring) : list jstring :=
  match s with
  | [] => []
  | c :: r =>
      match skip with
      | S k => matchAll_from k r
      | O =>
          match span_exec s with
          | Some rest =>
              let m := take (length s - length rest) s in
              m :: matchAll_from (length m - 1) r
          | None => matchAll_from 0 r
          end
      end
  end.

Definition matchAll (template : jstring) : list jstring := matchAll_from 0 template.

(** A deterministic reading of the span pattern, on the text after the
    opening brace; [nested] tells that the scan is inside an inner brace
    pair.  It returns the matched text and what follows it. *)
Fixpoint span_scan (nested : bool) (s : jstring) : option (jstring * jstring) :=
  match s with
  | [] => None
  | c :: r =>
      if is_close c then
        if nested
        then match span_scan false r with
             | Some (m, rest) => Some (c :: m, rest)
             | None => None
             end
        else Some ([c], r)
      else if is_open c then
        if nested then None
        else match span_scan true r with
             | Some (m, rest) => Some (c :: m, rest)
             | None => None
             end
      else match span_scan nested r with
           | Some (m, rest) => Some (c :: m, rest)
           | None => None
           end
  end.

(** The text behind the closing brace that ends a run of non-brace units;
    [None] when the run ends in an opening brace or at the end of input. *)
Fixpoint after_inner (s : jstring) : option jstring :=
  match s with
  | [] => None
  | c :: r =>
      if is_close c then Some r
      else if is_open c then None
      else after_inner r
  end.

(** The number of opening braces of a match. *)
Definition count_open (m : jstring) : nat := length (filter (fun c => is_open c = true) m).

(** The global [replace] that deletes every brace. *)
Definition strip_braces (m : jstring) : jstring := filter (fun c => is_brace c = false) m.

(** *** The structure pattern: three lazy groups between braces *)

(** A lazy group [(.*?)] followed by the rest of the pattern [k]: the
    shortest capture is tried first and grows by one unit, never a line
    terminator, each time [k] fails.  [acc] is the capture so far, reversed. *)
Fixpoint lazy_dots {A : Type} (s : jstring) (acc : jstring)
    (k : jstring -> jstring -> option A) : option A :=
  match k (rev acc) s with
  | Some r => Some r
  | None =>
      match s with
      | [] => None
      | c :: r => if is_line_terminator c then None else lazy_dots r (c :: acc) k
      end
  end.

Definition expect {A : Type} (c : ascii) (s : jstring) (k : jstring -> option A) : option A :=
  match s with
  | d :: r => if ascii_eqb d c then k r else None
  | [] => None
  end.

(** The structure pattern tried at the start of [s]. *)
Definition structure_at (s : jstring) : option (jstring * jstring * jstring) :=
  expect "{"%char s (fun s1 =>
  lazy_dots s1 [] (fun g1 s2 =>
  expect "{"%char s2 (fun s3 =>
  lazy_dots s3 [] (fun g2 s4 =>
  expect "}"%char s4 (fun s5 =>
  lazy_dots s5 [] (fun g3 s6 =>
  expect "}"%char s6 (fun _ => Some (g1, g2, g3)))))))).

(** [m.match(...)] without the [g] flag: the leftmost start that matches. *)
Fixpoint structure_match (s : jstring) : option (jstring * jstring * jstring) :=
  match structure_at s with
  | Some r => Some r
  | None =>
      match s with
      | [] => None
      | _ :: r => structure_match r
      end
  end.

(** *** [String.prototype.replace] with a string pattern *)

Fixpoint strip_prefix (p s : jstring) : option jstring :=
  match p, s with
  | [], _ => Some s
  | a :: p', b :: s' => if ascii_eqb a b then strip_prefix p' s' else None
  | _ :: _, [] => None
  end.

(** The first occurrence of [pat] in [text]: what precedes and what
    follows it. *)
Fixpoint find_first (pat text : jstring) : option (jstring * jstring) :=
  match strip_prefix pat text with
  | Some after => Some ([], after)
  | None =>
      match text with
      | [] => None
      | c :: r =>
          match find_first pat r with
          | Some (before, after) => Some (c :: before, after)
          | None => None
          end
      end
  end.

(** [GetSubstitution] without captures: a dollar sign followed by a
    dollar sign, an ampersand, a backquote or a quote is a replacement
    pattern; every other unit stands for itself (with no capture groups a
    dollar sign followed by digits is literal too). *)
Fixpoint expand_replacement (matched before after repl : jstring) : jstring :=
  match repl with
  | [] => []
  | c :: r =>
      if ascii_eqb c "$"%char then
        match r with
        | d :: r' =>
            if ascii_eqb d "$"%char then "$"%char :: expand_replacement matched before after r'
            else if ascii_eqb d "&"%char then matched ++ expand_replacement matched before after r'
            else if ascii_eqb d "`"%char then before ++ expand_replacement matched before after r'
            else if ascii_eqb d "'"%char then after ++ expand_replacement matched before after r'
            else c :: expand_replacement matched before after r
        | [] => [c]
        end
      else c :: expand_replacement matched before after r
  end.

(** [text.replace(pat, repl)] for strings [pat] and [repl]: only the first
    occurrence is replaced. *)
Definition js_replace (text pat repl : jstring) : jstring :=
  match find_first pat text with
  | None => text
  | Some (before, after) => before ++ expand_replacement pat before after repl ++ after
  end.

Section Rendering.
Variable JSON_parse : jstring -> option jsval.
Variable obj : GenericObject.

(** The callback of [matches.forEach]: the new [renderedText], or [None]
    when [getTagValue] or the conversion of its result to a string
    throws. *)
Definition render_match (renderedText m : jstring) : option jstring :=
  if Nat.eqb (count_open m) 1 then
    let tag := strip_braces m in
    match getTagValue JSON_parse tag obj with
    | None => None
    | Some tagValue =>
        if String_throws tagValue then None
        else Some (js_replace renderedText m (String_of tagValue))
    end
  else if Nat.eqb (count_open m) 2 then
    match structure_match m with
    | Some (prefix, tag, suffix) =>
        match getTagValue JSON_parse tag obj with
        | None => None
        | Some tagValue =>
            if is_sentinel tagValue then Some (js_replace renderedText m [])
            else if String_throws tagValue then None
            else Some (js_replace renderedText m (prefix ++ String_of tagValue ++ suffix))
        end
    | None => Some renderedText
    end
  else Some renderedText.

Fixpoint render_matches (matches : list jstring) (renderedText : jstring) : option jstring :=
  match matches with
  | [] => Some renderedText
  | m :: rest =>
      match render_match renderedText m with
      | None => None
      | Some renderedText' => render_matches rest renderedText'
      end
  end.

Definition renderTemplateText (template : jstring) : option jstring :=
  render_matches (matchAll template) template.
End Rendering.

(** A partial [JSON.parse]: it decodes [null], [true], [false] and strings
    without escapes like the built-in and rejects every other text, also
    the numbers, objects and arrays that the built-in accepts.  It
    instantiates the parser in closed examples, whose texts it decodes
    like the built-in or the built-in rejects as well. *)
Definition JSON_parse_scalar (s : jstring) : option jsval :=
  if jstring_eqb s (str "null") then Some VNull
  else if jstring_eqb s (str "true") then Some (VBool true)
  else if jstring_eqb s (str "false") then Some (VBool false)
  else match s with
       | q :: r =>
           if ascii_eqb q "034"%char then
             match rev r with
             | q' :: body =>
                 if ascii_eqb q' "034"%char
                    && forallb (fun c => negb (ascii_eqb c "034"%char)
                                         && negb (ascii_eqb c "\"%char)
                                         && negb (nat_of_ascii c <? 32)%nat) body
                 then Some (VStr (rev body)) else None
             | [] => None
             end
           else None
       | [] => None
       end.

(** A record with the given string fields and an empty [extra] map. *)
Definition record (fields : list (string * string)) : GenericObject :=
  mkObject (map (fun '(k, v) => (str k, VStr (str v))) fields) [].

(** The text of an optional block with the given prefix, tag and suffix. *)
Definition block (prefix tag suffix : jstring) : jstring :=
  "{"%char :: prefix ++ "{"%char :: tag ++ "}"%char :: suffix ++ ["}"%char].

Definition brace_free (s : jstring) : Prop := Forall (fun c => is_brace c = false) s.
Definition open_free (s : jstring) : Prop := Forall (fun c => is_open c = false) s.
Definition one_line (s : jstring) : Prop := Forall (fun c => is_line_terminator c = false) s.
Definition dollar_free (s : jstring) : Prop := Forall (fun c => ascii_eqb c "$"%char = false) s.

(** [tagParts[0]] and [tagParts.slice(1).join(".")] *)
Definition tag_head (tag : jstring) : jstring := default [] (head (split_dot tag)).
Definition tag_rest (tag : jstring) : jstring := join_dot (tail (split_dot tag)).

(** A key that a plain object does not inherit from [Object.prototype]. *)
Definition not_inherited (key : jstring) : Prop :=
  is_prototype_function key = false /\ key <> str "__proto__".

(** ** Label settings ([printing.tsx], [QRCodePrintSettings]) *)

Inductive QRCodeMode := qr_no | qr_simple | qr_withIcon.
Inductive HAlign := h_left | h_center | h_right.
Inductive VAlign := v_top | v_center | v_bottom.
Inductive QRCodePosition := pos_left | pos_right.

Module QRCodePrintSettings.
Record t := mk {
  showContent : option bool;
  showQRCodeMode : option QRCodeMode;
  textSize : option Q;
  showManufacturerLogo : option bool;
  logoHeightMm : option Q;
  logoAlign : option HAlign;
  showTitle : option bool;
  titleAreaHeightMm : option Q;
  titleTextSize : option Q;
  titleMaxTextSize : option Q;
  titleFitToWidth : option bool;
  titleAlign : option HAlign;
  qrCodeSizeMm : option Q;
  qrCodePosition : option QRCodePosition;
  qrCodeAlign : option VAlign;
  infoAlign : option HAlign;
  infoVerticalAlign : option VAlign;
  printSettings : PrintSettings.t
}.
End QRCodePrintSettings.

(** ** Header height budget ([qrCodeExportDialog.tsx]) *)

Section HeaderBudget.
Variable printSettings : QRCodePrintSettings.t.

(** [printSettings?.showQRCodeMode || "withIcon"] *)
Definition showQRCodeMode : QRCodeMode :=
  default qr_withIcon (QRCodePrintSettings.showQRCodeMode printSettings).

(** [printSettings.printSettings?.customPaperSize?.height ?? 30] *)
Definition qr_paperHeight : Q :=
  default 30%Q (Size.height <$>
    PrintSettings.customPaperSize (QRCodePrintSettings.printSettings printSettings)).
Definition topMargin : Q :=
  default 0%Q (Margins.top <$>
    PrintSettings.margin (QRCodePrintSettings.printSettings printSettings)).
Definition bottomMargin : Q :=
  default 0%Q (Margins.bottom <$>
    PrintSettings.margin (QRCodePrintSettings.printSettings printSettings)).

Definition containerPaddingMm : Q := (12 # 10)%Q.

Definition minMainHeightMm : Q :=
  match showQRCodeMode with qr_no => 0%Q | _ => 8%Q end.

Definition availableContentHeightMm : Q :=
  Qmax 0 (qr_paperHeight - topMargin - bottomMargin - containerPaddingMm)%Q.

Definition maxHeaderHeightMm : Q :=
  Qmax 0 (availableContentHeightMm - minMainHeightMm)%Q.
End HeaderBudget.

(** ** Doubles *)

(** The title auto-fit computes with JavaScript numbers, so the rounding
    of binary64 arithmetic is modelled: a finite double is the rational it
    denotes, and an operation returns the exact result rounded to the
    nearest double, to the one with an even significand on a tie.  The
    largest finite double is out of reach of the code modelled here, whose
    quotients and products are bounded by its inputs; infinities and NaN
    are outside the model. *)

(** [floor(log2 x)] for a positive [x]. *)
Definition binade (x : Q) : Z :=
  let c := (Z.log2 (Qnum x) - Z.log2 (Zpos (Qden x)))%Z in
  if Qle_bool (2 ^ c)%Q x then c else (c - 1)%Z.

(** The nearest integer, the even one on a tie. *)
Definition round_half_even (x : Q) : Z :=
  let f := Qfloor x in
  match Qcompare (x - inject_Z f)%Q (1 # 2)%Q with
  | Lt => f
  | Gt => (f + 1)%Z
  | Eq => if Z.even f then f else (f + 1)%Z
  end.

(** The exponent of the grid of doubles around [x]: 53 significant bits,
    and the grid of the subnormal numbers, [2^-1074], below [2^-1022]. *)
Definition ulp_exponent (x : Q) : Z := Z.max (-1074) (binade x - 52).

Definition nearest_double (x : Q) : Q :=
  let e := ulp_exponent x in
  (inject_Z (round_half_even (x / 2 ^ e)) * 2 ^ e)%Q.

(** The double nearest to the rational [x]. *)
Definition binary64 (x : Q) : Q :=
  let x := Qred x in
  if Qlt_le_dec x 0 then (- nearest_double (- x))%Q else nearest_double x.

(** ** Title auto-fit ([titleTextBlock.tsx]) *)

(** [Math.round] for a double [x]. *)
Definition round_half_up (x : Q) : Z := Qfloor (x + (1 # 2))%Q.

(** The decimal that [x.toFixed(digits)] prints for a double [x]: the
    multiple of [10^-digits] nearest to [x], the larger one on a tie; a
    negative [x] is rounded by magnitude.  (From [10^21] on the number is
    printed as it is, which is the same value.) *)
Definition toFixed (digits : nat) (x : Q) : Q :=
  let k := inject_Z (10 ^ Z.of_nat digits) in
  if Qlt_le_dec x 0
  then (- (inject_Z (round_half_up (- x * k)) / k))%Q
  else (inject_Z (round_half_up (x * k)) / k)%Q.

(** [Number(x.toFixed(digits))]: the double nearest to the printed
    decimal. *)
Definition Number_toFixed (digits : nat) (x : Q) : Q := binary64 (toFixed digits x).

(** The layout effect of [TitleTextBlock]: the scale it stores, from the
    current [scale] and, when both refs are attached, the integer widths
    [container.clientWidth] and [content.scrollWidth].  Both divisions are
    divisions of doubles, [0.0001] is the double nearest to that decimal,
    and the widths, which the DOM reports as 32-bit integers, are doubles
    as they are. *)
Definition fitScale (fitToWidth : bool) (refs : option (Z * Z)) (scale : Q) : Q :=
  if negb fitToWidth then 1%Q
  else match refs with
       | None => scale
       | Some (availableWidth, neededWidth) =>
           if (availableWidth <=? 0)%Z then 1%Q
           else if (neededWidth <=? 0)%Z then 1%Q
           else
             let currentScale := Qmax scale (binary64 (1 # 10000)) in
             let unscaledNeededWidth := binary64 (inject_Z neededWidth / currentScale) in
             let nextScale :=
               Qmin 1 (binary64 (inject_Z availableWidth / Qmax unscaledNeededWidth 1)) in
             Number_toFixed 4 (if Qlt_le_dec 0 nextScale then nextScale else 1%Q)
       end.

(** The values [unscaledNeededWidth] and [nextScale] of the effect's last
    branch. *)
Definition unscaledNeededWidth (neededWidth : Z) (scale : Q) : Q :=
  binary64 (inject_Z neededWidth / Qmax scale (binary64 (1 # 10000))).

Definition nextScale (availableWidth neededWidth : Z) (scale : Q) : Q :=
  Qmin 1 (binary64 (inject_Z availableWidth
                    / Qmax (unscaledNeededWidth neededWidth scale) 1)).

(** [effectiveSizeMm], for a double [maxTextSizeMm]. *)
Definition effectiveSizeMm (fitToWidth : bool) (maxTextSizeMm scale : Q) : Q :=
  if fitToWidth then Number_toFixed 1 (binary64 (maxTextSizeMm * scale))
  else Number_toFixed 1 maxTextSizeMm.

(** ** Preset store ([spoolQrCodeExportDialog.tsx]) *)

Module SpoolQRCodePrintSettings.
Record t := mk {
  template : option jstring;
  titleTemplate : option jstring;
  filenameTemplate : option jstring;
  labelSettings : QRCodePrintSettings.t
}.
End SpoolQRCodePrintSettings.

Abbreviation Preset := SpoolQRCodePrintSettings.t.

Inductive PresetType := spool | filament.

Definition type_name (t : PresetType) : jstring :=
  match t with spool => str "spool" | filament => str "filament" end.

Definition currentPresetType : PresetType := spool.
Definition otherPresetType : PresetType := filament.

(** [settings.labelSettings.printSettings.id] *)
Definition preset_id (p : Preset) : jstring :=
  PrintSettings.id (QRCodePrintSettings.printSettings (SpoolQRCodePrintSettings.labelSettings p)).

Definition preset_name (p : Preset) : option jstring :=
  PrintSettings.name (QRCodePrintSettings.printSettings (SpoolQRCodePrintSettings.labelSettings p)).

(** Object spreads that overwrite one property. *)
Definition ps_with_id (i : jstring) (s : PrintSettings.t) : PrintSettings.t :=
  let 'PrintSettings.mk _ n m pm sp c r sk ic pz cps b al dpi f z := s in
  PrintSettings.mk i n m pm sp c r sk ic pz cps b al dpi f z.

Definition ps_with_name (n : option jstring) (s : PrintSettings.t) : PrintSettings.t :=
  let 'PrintSettings.mk i _ m pm sp c r sk ic pz cps b al dpi f z := s in
  PrintSettings.mk i n m pm sp c r sk ic pz cps b al dpi f z.

Definition ls_with_printSettings (f : PrintSettings.t -> PrintSettings.t)
    (l : QRCodePrintSettings.t) : QRCodePrintSettings.t :=
  let 'QRCodePrintSettings.mk a b c d e g h i j k m n o p q r s ps := l in
  QRCodePrintSettings.mk a b c d e g h i j k m n o p q r s (f ps).

Definition with_labelSettings (f : QRCodePrintSettings.t -> QRCodePrintSettings.t)
    (p : Preset) : Preset :=
  let 'SpoolQRCodePrintSettings.mk t1 t2 t3 l := p in
  SpoolQRCodePrintSettings.mk t1 t2 t3 (f l).

Definition with_id (i : jstring) (p : Preset) : Preset :=
  with_labelSettings (ls_with_printSettings (ps_with_id i)) p.

Definition with_name (n : jstring) (p : Preset) : Preset :=
  with_labelSettings (ls_with_printSettings (ps_with_name (Some n))) p.

(** [value.indexOf(":")] *)
Fixpoint index_of (c : ascii) (s : jstring) : option nat :=
  match s with
  | [] => None
  | d :: r => if ascii_eqb d c then Some 0 else S <$> index_of c r
  end.

Definition toPresetValue (t : PresetType) (i : jstring) : jstring :=
  type_name t ++ ":"%char :: i.

Definition parsePresetValue (value : option jstring) : option (PresetType * jstring) :=
  match value with
  | None => None
  | Some [] => None
  | Some v =>
      match index_of ":"%char v with
      | None => Some (currentPresetType, v)
      | Some separatorIndex =>
          let type := take separatorIndex v in
          let i := drop (S separatorIndex) v in
          match i with
          | [] => None
          | _ =>
              if jstring_eqb type (type_name currentPresetType) then Some (currentPresetType, i)
              else if jstring_eqb type (type_name otherPresetType) then Some (otherPresetType, i)
              else None
          end
      end
  end.

(** [presets.find((settings) => settings.labelSettings.printSettings.id === id)] *)
Definition find_preset (i : jstring) (presets : list Preset) : option Preset :=
  list_find (fun p => preset_id p = i) presets ≫= fun r => Some r.2.

(** [String.prototype.toLowerCase] on code units below 256. *)
Definition toLowerCase_unit (c : ascii) : ascii :=
  let n := nat_of_ascii c in
  if ((65 <=? n) && (n <=? 90) || (192 <=? n) && (n <=? 222) && negb (n =? 215))%nat
  then ascii_of_nat (n + 32) else c.

Definition toLowerCase (s : jstring) : jstring := map toLowerCase_unit s.

Definition is_digit (c : ascii) : bool :=
  let n := nat_of_ascii c in ((48 <=? n) && (n <=? 57))%nat.

Definition digit_value (c : ascii) : nat := nat_of_ascii c - 48.

(** A name ending in a dash and two digits: the text before the dash and
    the number ([/-\d{2}$/u] and [parseInt]). *)
Definition split_numbered (s : jstring) : option (jstring * nat) :=
  match rev s with
  | d2 :: d1 :: dash :: r =>
      if ascii_eqb dash "-"%char && is_digit d1 && is_digit d2
      then Some (rev r, 10 * digit_value d1 + digit_value d2)
      else None
  | _ => None
  end.

Section PresetDialog.
(** The translation of [printing.generic.defaultSettings] and the
    successive results of [uuidv4()]. *)
Variable defaultPresetName : jstring.
Variable uuids : nat -> jstring.

Definition isDefaultPresetName (n : option jstring) : bool :=
  let normalizedName := toLowerCase (trim (default [] n)) in
  let normalizedDefault := toLowerCase (trim defaultPresetName) in
  jstring_eqb normalizedName normalizedDefault || jstring_eqb normalizedName (str "default").

Definition getNextPresetName (base : jstring) (presets : list Preset) : jstring :=
  let trimmedBaseName := or_else (trim base) defaultPresetName in
  let normalizedBaseName :=
    match split_numbered trimmedBaseName with
    | Some (stem, _) => stem
    | None => trimmedBaseName
    end in
  let maxSuffix :=
    foldl (fun acc preset =>
             match split_numbered (trim (default [] (preset_name preset))) with
             | Some (stem, n) =>
                 if jstring_eqb stem normalizedBaseName then Nat.max acc n else acc
             | None => acc
             end) 0 presets in
  normalizedBaseName ++ "-"%char :: padStart 2 "0"%char (String_of_nat (maxSuffix + 1)).

(** An empty preset: what the spreads of [buildNewPreset] leave when
    there is no source preset. *)
Definition empty_preset : Preset :=
  SpoolQRCodePrintSettings.mk None None None
    (QRCodePrintSettings.mk None None None None None None None None None None None
       None None None None None None
       (PrintSettings.mk [] None None None None None None None None None None None
          None None None None)).

Definition buildNewPreset (i n : jstring) (sourcePreset : option Preset) : Preset :=
  with_name n (with_id i (default empty_preset sourcePreset)).

(** The dialog: its two pieces of React state, the settings collaborator
    (the decoded values under the two preset keys; an absent key is a
    query without data) and the number of UUIDs drawn so far.  Presets
    are values: that two presets of the current list made by a copy share
    the objects nested below their print settings is not modelled. *)
Record Dialog := mkDialog {
  selectedPresetState : option jstring;
  localCurrentPresets : option (list Preset);
  settings : gmap jstring (list Preset);
  drawn : nat
}.

(** [useGetPrintSettings]: the stored list, parsed anew on every render,
    with a new UUID for each preset that has none.  The objects of the
    parsed lists live for one render only: what a render reads under a
    key is determined by the stored value, whatever a handler of an
    earlier render did to the objects it had parsed or copied. *)
Fixpoint fill_ids (presets : list Preset) (n : nat) : list Preset * nat :=
  match presets with
  | [] => ([], n)
  | p :: rest =>
      match preset_id p with
      | [] => let '(rest', n') := fill_ids rest (S n) in (with_id (uuids n) p :: rest', n')
      | _ => let '(rest', n') := fill_ids rest n in (p :: rest', n')
      end
  end.

Definition useGetPrintSettings (key : jstring) (d : Dialog) (n : nat)
  : option (list Preset) * nat :=
  match settings d !! key with
  | None => (None, n)
  | Some stored => let '(l, n') := fill_ids stored n in (Some l, n')
  end.

(** What one render computes before [curPreset]. *)
Record View := mkView {
  currentPresets : option (list Preset);
  otherPresets : list Preset;
  drawn_after : nat
}.

Definition view (d : Dialog) : View :=
  let '(remoteSpoolPresets, n1) := useGetPrintSettings (str "image_presets") d (drawn d) in
  let '(remoteFilamentPresets, n2) :=
    useGetPrintSettings (str "image_presets_filament") d n1 in
  mkView (match localCurrentPresets d with
          | Some l => Some l
          | None => remoteSpoolPresets
          end)
         (default [] remoteFilamentPresets) n2.

Definition preferredPreset (presets : list Preset) : option Preset :=
  match list_find (fun p => isDefaultPresetName (preset_name p) = true) presets with
  | Some (_, p) => Some p
  | None => head presets
  end.

(** The [let curPreset] block of the render: the working preset and the
    state after the setters the block calls.  For a selection of the other
    type the working preset is a copy of the imported one, so the edits
    of the form land on the copy. *)
Definition render (d : Dialog) : Preset * Dialog :=
  let v := view d in
  let n := drawn_after v in
  let keep := mkDialog (selectedPresetState d) (localCurrentPresets d) (settings d) n in
  match currentPresets v with
  | None => (buildNewPreset (str "TEMP") defaultPresetName None, keep)
  | Some [] =>
      let defaultId := uuids n in
      let defaultPreset := buildNewPreset defaultId defaultPresetName None in
      (defaultPreset,
       mkDialog (Some (toPresetValue currentPresetType defaultId)) (Some [defaultPreset])
         (settings d) (S n))
  | Some (first :: others) =>
      let presets := first :: others in
      let preferred := default first (preferredPreset presets) in
      let fallback :=
        (preferred,
         mkDialog (Some (toPresetValue currentPresetType (preset_id preferred)))
           (localCurrentPresets d) (settings d) n) in
      match parsePresetValue (selectedPresetState d) with
      | Some (filament, i) =>
          match find_preset i (otherPresets v) with
          | Some importedPreset => (importedPreset, keep)
          | None => fallback
          end
      | Some (spool, i) =>
          match find_preset i presets with
          | Some foundSetting => (foundSetting, keep)
          | None => fallback
          end
      | None => fallback
      end
  end.

(** [promotePresetToCurrentType], on the state [d] of the render whose
    current presets are [presets]. *)
Definition promotePresetToCurrentType (presets : list Preset) (preset : Preset)
    (d : Dialog) : Dialog :=
  let promotedPreset := with_id (uuids (drawn d)) preset in
  mkDialog (Some (toPresetValue currentPresetType (preset_id promotedPreset)))
    (Some (presets ++ [promotedPreset])) (settings d) (S (drawn d)).

Definition updateCurrentPreset (v : View) (selected : option jstring)
    (newSettings : Preset) (d : Dialog) : Dialog :=
  match currentPresets v with
  | None => d
  | Some presets =>
      match parsePresetValue selected with
      | Some (spool, i) =>
          let nextPresets :=
            map (fun p => if jstring_eqb (preset_id p) i then newSettings else p) presets in
          let d1 := mkDialog (selectedPresetState d) (Some nextPresets) (settings d) (drawn d) in
          if existsb (fun p => jstring_eqb (preset_id p) i) presets then d1
          else promotePresetToCurrentType presets newSettings d1
      | _ => promotePresetToCurrentType presets newSettings d
      end
  end.

(** The edits the form controls make to the working preset before they
    call [updateCurrentPreset]. *)
Inductive Edit :=
  | SetName (value : jstring)
  | SetTemplate (value : jstring)
  | SetTitleTemplate (value : jstring)
  | SetFilenameTemplate (value : jstring)
  | SetLabelSettings (newSettings : QRCodePrintSettings.t).

Definition apply_edit (e : Edit) (p : Preset) : Preset :=
  let 'SpoolQRCodePrintSettings.mk t1 t2 t3 l := p in
  match e with
  | SetName value => with_name value p
  | SetTemplate value => SpoolQRCodePrintSettings.mk (Some value) t2 t3 l
  | SetTitleTemplate value => SpoolQRCodePrintSettings.mk t1 (Some value) t3 l
  | SetFilenameTemplate value => SpoolQRCodePrintSettings.mk t1 t2 (Some value) l
  | SetLabelSettings newSettings => SpoolQRCodePrintSettings.mk t1 t2 t3 newSettings
  end.

Inductive Event :=
  | EvEdit (e : Edit)
  | EvSelect (value : jstring)
  | EvAdd
  | EvDuplicate
  | EvDelete
  | EvSave.

(** Whether the [let curPreset] block calls a setter. *)
Definition render_sets (d : Dialog) : bool :=
  let v := view d in
  match currentPresets v with
  | None => false
  | Some [] => true
  | Some (first :: others) =>
      match parsePresetValue (selectedPresetState d) with
      | Some (filament, i) =>
          match find_preset i (otherPresets v) with
          | Some importedPreset => false
          | None => true
          end
      | Some (spool, i) =>
          match find_preset i (first :: others) with
          | Some foundSetting => false
          | None => true
          end
      | None => true
      end
  end.

(** A render that calls a setter is thrown away and the component is
    rendered again on the new state, whatever the values set; React
    gives up, with an error, when the 25th render in a row that repeats
    one calls a setter again.  [settle] is the state of the render that
    is kept, the first one that calls no setter; [None] is the error. *)
Fixpoint settle (fuel : nat) (d : Dialog) : option Dialog :=
  if render_sets d then
    match fuel with
    | O => None
    | S fuel' => settle fuel' (render d).2
    end
  else Some d.

(** The handlers of the render of the state [d], on one user action:
    they close over the values of that render. *)
Definition handle (ev : Event) (d : Dialog) : Dialog :=
  let v := view d in
  let '(curPreset, d1) := render d in
  let selected := selectedPresetState d in
  match ev with
  | EvEdit e => updateCurrentPreset v selected (apply_edit e curPreset) d1
  | EvSelect value =>
      match parsePresetValue (Some value) with
      | None => d1
      | Some _ => mkDialog (Some value) (localCurrentPresets d1) (settings d1) (drawn d1)
      end
  | EvAdd =>
      match currentPresets v with
      | None => d1
      | Some presets =>
          let newId := uuids (drawn d1) in
          let selectedPreset :=
            match parsePresetValue selected with
            | None => None
            | Some (spool, i) => find_preset i presets
            | Some (filament, i) => find_preset i (otherPresets v)
            end in
          let basePresetName :=
            default defaultPresetName (selectedPreset ≫= preset_name) in
          let newPreset :=
            buildNewPreset newId (getNextPresetName basePresetName presets) selectedPreset in
          mkDialog (Some (toPresetValue currentPresetType newId))
            (Some (presets ++ [newPreset])) (settings d1) (S (drawn d1))
      end
  | EvDuplicate =>
      match currentPresets v with
      | None => d1
      | Some presets =>
          let newPreset := with_id (uuids (drawn d1)) curPreset in
          mkDialog (Some (toPresetValue currentPresetType (preset_id newPreset)))
            (Some (presets ++ [newPreset])) (settings d1) (S (drawn d1))
      end
  | EvDelete =>
      match currentPresets v with
      | None => d1
      | Some presets =>
          match parsePresetValue selected with
          | Some (spool, i) =>
              mkDialog None
                (Some (filter (fun p => preset_id p <> i) presets)) (settings d1) (drawn d1)
          | _ => d1
          end
      end
  | EvSave =>
      match localCurrentPresets d with
      | None => d1
      | Some l =>
          mkDialog (selectedPresetState d1) None
            (<[ str "image_presets" := l ]> (settings d1)) (drawn d1)
      end
  end.

(** One user action: it reaches the handlers of the render that was
    kept.  After the error no handler is left to run. *)
Definition step (ev : Event) (d : Dialog) : Dialog :=
  match settle 25 d with
  | Some settled => handle ev settled
  | None => d
  end.

Definition run (evs : list Event) (d : Dialog) : Dialog := foldl (fun d ev => step ev d) d evs.

(** What the dialog reads under the other resource type's key. *)
Definition foreign_presets (d : Dialog) : option (list Preset) :=
  settings d !! str "image_presets_filament".
End PresetDialog.

(** The edit [e] as the form makes it once the preset promoted under the
    id [u] is the working preset: a replaced settings object carries that
    id. *)
Definition edit_on_promoted (u : jstring) (e : Edit) : Edit :=
  match e with
  | SetLabelSettings newSettings =>
      SetLabelSettings (ls_with_printSettings (ps_with_id u) newSettings)
  | _ => e
  end.

(** A spool preset, a filament preset and a dialog whose selection points
    at the filament preset. *)
Definition example_preset (i n : string) : Preset :=
  with_name (str n) (with_id (str i) empty_preset).

Definition example_uuids (n : nat) : jstring := str "uuid-" ++ String_of_nat n.

Definition example_dialog : Dialog :=
  mkDialog (Some (str "filament:F1")) None
    (<[ str "image_presets" := [example_preset "S1" "Default"] ]>
       (<[ str "image_presets_filament" := [example_preset "F1" "Small"] ]> ∅))
    0.

(** ** Preset names ([spoolQrCodeExportDialog.tsx], [getNextPresetName]) *)

Section PresetNames.
Variable defaultPresetName : jstring.

(** The locals [normalizedBaseName] and [maxSuffix] of
    [getNextPresetName]. *)
Definition normalizedBaseName (base : jstring) : jstring :=
  let trimmedBaseName := or_else (trim base) defaultPresetName in
  match split_numbered trimmedBaseName with
  | Some (stem, _) => stem
  | None => trimmedBaseName
  end.

Definition maxSuffix (stem : jstring) (presets : list Preset) : nat :=
  foldl (fun acc preset =>
           match split_numbered (trim (default [] (preset_name preset))) with
           | Some (stem', n) => if jstring_eqb stem' stem then Nat.max acc n else acc
           | None => acc
           end) 0 presets.
End PresetNames.

(** [preset.labelSettings.printSettings?.name], or the empty string, trimmed. *)
Definition trimmed_name (p : Preset) : jstring := trim (default [] (preset_name p)).

Section WorkingPreset.
Variable uuids : nat -> jstring.

(** The preset the form works on when the selection names a preset that
    exists: the selected preset of the current list, or the preset of the
    other type. *)
Definition working (d : Dialog) (cur : list Preset) (p : Preset) : Prop :=
  currentPresets (view uuids d) = Some cur /\
  exists i,
    (parsePresetValue (selectedPresetState d) = Some (spool, i) /\
     find_preset i cur = Some p) \/
    (parsePresetValue (selectedPresetState d) = Some (filament, i) /\
     cur <> [] /\ find_preset i (otherPresets (view uuids d)) = Some p).
End WorkingPreset.

(** A dialog with two stored spool presets, the first one selected. *)
Definition example_dialog_spool : Dialog :=
  mkDialog (Some (str "spool:S1")) None
    (<[ str "image_presets" := [example_preset "S1" "Default"; example_preset "S2" "Small"] ]>
       (<[ str "image_presets_filament" := [example_preset "F1" "Small"] ]> ∅))
    0.

(** ** Templates by their parts ([printing.tsx], [renderTemplateText]) *)

(** A template written as the documented syntax has it: literal text,
    tags [{tag}] and optional blocks [{prefix{tag}suffix}]. *)
Inductive Segment :=
  | Literal (text : jstring)
  | Tag (tag : jstring)
  | Optional (prefix tag suffix : jstring).

Definition segment_text (seg : Segment) : jstring :=
  match seg with
  | Literal text => text
  | Tag tag => "{"%char :: tag ++ ["}"%char]
  | Optional prefix tag suffix => block prefix tag suffix
  end.

Definition template_of (segs : list Segment) : jstring := concat (map segment_text segs).

(** Literal text has no opening brace, tags, prefixes and suffixes have no
    brace at all, and the parts of an optional block stay on one line. *)
Definition well_formed (seg : Segment) : Prop :=
  match seg with
  | Literal text => open_free text
  | Tag tag => brace_free tag
  | Optional prefix tag suffix =>
      brace_free prefix /\ brace_free tag /\ brace_free suffix /\
      one_line prefix /\ one_line tag /\ one_line suffix
  end.

Section SegmentValues.
Variable JSON_parse : jstring -> option jsval.
Variable obj : GenericObject.

(** The text of a value, unless the conversion throws. *)
Definition text_of_value (v : jsval) : option jstring :=
  if String_throws v then None else Some (String_of v).

(** What stands for a segment in the output: the literal itself, the
    text of the tag's value, and for an optional block prefix, value and
    suffix, or nothing when the value is the sentinel. *)
Definition segment_value (seg : Segment) : option jstring :=
  match seg with
  | Literal text => Some text
  | Tag tag => getTagValue JSON_parse tag obj ≫= text_of_value
  | Optional prefix tag suffix =>
      getTagValue JSON_parse tag obj ≫= fun v =>
        if is_sentinel v then Some []
        else (fun text => prefix ++ text ++ suffix) <$> text_of_value v
  end.

(** A substituted text is safe when it has no opening brace and no
    dollar sign. *)
Definition renders_to (seg : Segment) (val : jstring) : Prop :=
  segment_value seg = Some val /\ open_free val /\
  match seg with Literal _ => True | _ => dollar_free val end.
End SegmentValues.

(** ** Field lookup ([printing.tsx], [getTagValue]) *)

(** [obj[key]] on the named fields: the first binding of the key. *)
Fixpoint lookup_field (key : jstring) (fields : list (jstring * jsval)) : option jsval :=
  match fields with
  | [] => None
  | (k, v) :: rest => if jstring_eqb k key then Some v else lookup_field key rest
  end.

Definition dot_free (s : jstring) : Prop := Forall (fun c => ascii_eqb c "."%char = false) s.

(** ** File name preview ([exportDialog.tsx], [previewFilenameBases]) *)

Definition sanitizePreviewFilename (value : jstring) : jstring :=
  let trimmed := trim value in
  match trimmed with
  | [] => []
  | _ => strip_trailing_dots (collapse_ws false (replace_disallowed trimmed))
  end.

(** The loop over the React elements of the preview, each carried by its
    [data-aml-name] prop; [None] when the collision loop runs out of
    fuel. *)
Fixpoint previewLoop (items : list (option jstring)) (usedNames : gset jstring)
    (idx : nat) : option (list jstring) :=
  match items with
  | [] => Some []
  | prop :: rest =>
      let rawName := trim (default (label_idx idx) prop) in
      let baseName := or_else (sanitizePreviewFilename rawName) (label_idx idx) in
      match safeName_for usedNames baseName with
      | None => None
      | Some safeName =>
          match previewLoop rest ({[ safeName ]} ∪ usedNames) (S idx) with
          | None => None
          | Some names => Some (safeName :: names)
          end
      end
  end.

Definition previewFilenameBases (items : list (option jstring)) : option (list jstring) :=
  previewLoop items ∅ 1.

(** ** XML escaping ([exportDialog.tsx], [escapeXml]) *)

(** [s.replace(/c/g, by)] for a single code unit [c] and a replacement
    without dollar sign. *)
Definition replace_unit (c : ascii) (by_text : jstring) (s : jstring) : jstring :=
  flat_map (fun d => if ascii_eqb d c then by_text else [d]) s.

Definition escapeXml (value : jstring) : jstring :=
  replace_unit "'"%char (str "&apos;")
    (replace_unit "034"%char (str "&quot;")
       (replace_unit ">"%char (str "&gt;")
          (replace_unit "<"%char (str "&lt;")
             (replace_unit "&"%char (str "&amp;") value)))).

(** The entity, if any, that stands for a code unit. *)
Definition xml_entity (c : ascii) : jstring :=
  match c with
  | "&" => str "&amp;"
  | "<" => str "&lt;"
  | ">" => str "&gt;"
  | "034" => str "&quot;"
  | "'" => str "&apos;"
  | _ => [c]
  end%char.

Definition is_xml_special (c : ascii) : bool :=
  match c with
  | "<" | ">" | "034" | "'" => true
  | _ => false
  end%char.

(** ** Export resolution ([exportDialog.tsx], [getExportImageOptions]) *)

Section ExportImageOptions.
Variable printSettings : PrintSettings.t.

(** [printSettings?.exportDpi || 300]: an absent value and zero give 300. *)
Definition exportDpi : Q :=
  match PrintSettings.exportDpi printSettings with
  | Some dpi => if Qeq_bool dpi 0 then 300%Q else dpi
  | None => 300%Q
  end.

Definition exportPixelRatio : Q := Qmax 1 (Qmin (exportDpi / 96) 10).
End ExportImageOptions.

(** ** QR code size ([qrCodeExportDialog.tsx]) *)

(** [Math.min(max, Math.max(min, Math.round(value * 10) / 10))];
    [Math.round] rounds a tie upwards. *)
Definition toOneDecimal (value min max : Q) : Q :=
  Qmin max (Qmax min (inject_Z (round_half_up (value * 10)) / 10)).

Definition qrCodeSizeMax : Q := 30.

(** [toOneDecimal(printSettings?.qrCodeSizeMm ?? 16, 8, qrCodeSizeMax)] *)
Definition qrCodeSizeMm (printSettings : QRCodePrintSettings.t) : Q :=
  toOneDecimal (default 16%Q (QRCodePrintSettings.qrCodeSizeMm printSettings)) 8 qrCodeSizeMax.

(** ** Merging preset lists ([printing.tsx], [mergePrintPresets]) *)

(** The inner loop over one list: the set of ids seen and the merged list
    so far are threaded through. *)
Fixpoint merge_list (presets : list Preset) (seenIds : gset jstring)
    (merged : list Preset) : gset jstring * list Preset :=
  match presets with
  | [] => (seenIds, merged)
  | preset :: rest =>
      let id := preset_id preset in
      if bool_decide (id = []) || bool_decide (id ∈ seenIds)
      then merge_list rest seenIds merged
      else merge_list rest ({[ id ]} ∪ seenIds) (merged ++ [preset])
  end.

(** The outer loop; an unloaded list ([undefined]) is skipped. *)
Fixpoint merge_lists (presetLists : list (option (list Preset))) (seenIds : gset jstring)
    (merged : list Preset) : list Preset :=
  match presetLists with
  | [] => merged
  | None :: rest => merge_lists rest seenIds merged
  | Some presets :: rest =>
      let '(seenIds', merged') := merge_list presets seenIds merged in
      merge_lists rest seenIds' merged'
  end.

Definition hasUnloadedList (presetLists : list (option (list Preset))) : bool :=
  existsb (fun presets => match presets with None => true | Some _ => false end)
    presetLists.

Definition mergePrintPresets (presetLists : list (option (list Preset)))
  : option (list Preset) :=
  let merged := merge_lists presetLists ∅ [] in
  if Nat.eqb (length merged) 0 && hasUnloadedList presetLists then None else Some merged.

(** The presets of the loaded lists, in the order the loops visit them. *)
Definition loaded_presets (presetLists : list (option (list Preset))) : list Preset :=
  concat (omap (fun presets => presets) presetLists).

(** The first occurrences, in order, of the non-empty ids that are not in
    [seenIds]. *)
Fixpoint first_by_id (presets : list Preset) (seenIds : gset jstring) : list Preset :=
  match presets with
  | [] => []
  | p :: rest =>
      if bool_decide (preset_id p = []) || bool_decide (preset_id p ∈ seenIds)
      then first_by_id rest seenIds
      else p :: first_by_id rest ({[ preset_id p ]} ∪ seenIds)
  end.

Definition ids_of (presets : list Preset) : gset jstring :=
  list_to_set (preset_id <$> presets).

(** ** Text formatting ([printing.tsx], [applyNewline], [applyTextFormatting]) *)

(** The React elements the two functions build; a key is the position in
    the list. *)
#[warnings="-register-all"] Inductive Markup :=
  | Line (text : jstring) (br : bool)
  | Span (children : list Markup)
  | Bold (children : list Markup)
  | Inverted (children : list Markup).

(** [s.split(sep)] for a one-unit separator: always at least one piece. *)
Fixpoint split_unit (sep : ascii) (s : jstring) : list jstring :=
  match s with
  | [] => [[]]
  | c :: r =>
      if ascii_eqb c sep then [] :: split_unit sep r
      else match split_unit sep r with
           | [] => [[c]]
           | p :: ps => (c :: p) :: ps
           end
  end.

(** Each line in a [span], followed by a [br] unless it is the last. *)
Definition applyNewline (text : jstring) : list Markup :=
  let arr := split_unit "010"%char text in
  imap (fun idx line => Line line (Nat.ltb idx (length arr - 1))) arr.

Definition startsWith (prefix s : jstring) : bool :=
  match strip_prefix prefix s with Some _ => true | None => false end.

Definition endsWith (suffix s : jstring) : bool := startsWith (rev suffix) (rev s).

(** [part.slice(2, -2)] *)
Definition slice_2_2 (part : jstring) : jstring := take (length part - 4) (drop 2 part).

(** One alternative of the formatting pattern at the start of [s]: the
    delimiter, the shortest run of any units, the delimiter.  The result is
    the matched text. *)
Definition delimited (delim s : jstring) : option jstring :=
  match strip_prefix delim s with
  | Some r =>
      match find_first delim r with
      | Some (content, _) => Some (delim ++ content ++ delim)
      | None => None
      end
  | None => None
  end.

(** The pattern of [applyTextFormatting] at the start of [s]: a bold
    block, else an inverted block. *)
Definition format_match (s : jstring) : option jstring :=
  match delimited (str "**") s with
  | Some m => Some m
  | None => delimited (str "==") s
  end.

(** [text.split(regex)] with the pattern's capture group: the pieces
    between the matches alternate with the matched texts.  [piece] is the
    current piece, reversed; [skip] counts the units of the last match
    still to be passed over. *)
Fixpoint split_format (skip : nat) (piece : jstring) (s : jstring) : list jstring :=
  match s with
  | [] => [rev piece]
  | c :: r =>
      match skip with
      | S k => split_format k piece r
      | O =>
          match format_match s with
          | Some m => rev piece :: m :: split_format (length m - 1) [] r
          | None => split_format 0 (c :: piece) r
          end
      end
  end.

(** [applyTextFormatting]; [fuel] bounds the depth of the recursion on the
    content of a block. *)
Fixpoint formatting (fuel : nat) (text : jstring) : list Markup :=
  match fuel with
  | O => []
  | S fuel' =>
      map (fun part =>
             if startsWith (str "**") part && endsWith (str "**") part
             then Bold (formatting fuel' (slice_2_2 part))
             else if startsWith (str "==") part && endsWith (str "==") part
             then Inverted (formatting fuel' (slice_2_2 part))
             else Span (applyNewline part))
          (split_format 0 [] text)
  end.

(** The content of a block is shorter than the text, so one more level
    than the text has units is enough. *)
Definition applyTextFormatting (text : jstring) : list Markup :=
  formatting (S (length text)) text.

(** The text an element shows; a [br] is a line feed. *)
Fixpoint text_of (m : Markup) : jstring :=
  match m with
  | Line text br => if br then text ++ ["010"%char] else text
  | Span children | Bold children | Inverted children => flat_map text_of children
  end.

Definition is_marker (c : ascii) : bool := ascii_eqb c "*"%char || ascii_eqb c "="%char.

Definition unmarked (s : jstring) : jstring := filter (fun c => is_marker c = false) s.

(** The element [applyTextFormatting] builds for one piece of the split,
    given the function applied to the content of a block. *)
Definition format_part (recur : jstring -> list Markup) (part : jstring) : Markup :=
  if startsWith (str "**") part && endsWith (str "**") part
  then Bold (recur (slice_2_2 part))
  else if startsWith (str "==") part && endsWith (str "==") part
  then Inverted (recur (slice_2_2 part))
  else Span (applyNewline part).

(** [lines.join("\n")] *)
Fixpoint join_lines (lines : list jstring) : jstring :=
  match lines with
  | [] => []
  | [l] => l
  | l :: rest => l ++ "010"%char :: join_lines rest
  end.

Definition marker_free (s : jstring) : Prop := Forall (fun c => is_marker c = false) s.

(** ** Label contents ([printing.tsx], [renderLabelContents]) *)

(** The children of the fragment; [None] when [renderTemplateText]
    throws. *)
Definition renderLabelContents (JSON_parse : jstring -> option jsval) (template : jstring)
    (obj : GenericObject) : option (list Markup) :=
  applyTextFormatting <$> renderTemplateText JSON_parse obj template.

(** The title template a spool preset falls back to
    ([spoolQrCodeExportDialog.tsx]). *)
Definition default_titleTemplate : jstring :=
  str "==**{filament.name}**== {filament.color_hex}".

(** ** Vendor logo suggestions ([utils/vendorLogo.ts]) *)

(** Unicode normalisation leaves the Latin-1 range, so the strings of this
    module are lists of UTF-16 code units.  [String.prototype.normalize]
    and [String.prototype.toLowerCase] are parameters. *)
Module VendorLogo.
Abbreviation ustring := (list N).

Definition ustr (s : string) : ustring := map N_of_ascii (list_ascii_of_string s).

Definition dash : N := 45.
Definition dot : N := 46.
Definition slash : N := 47.
Definition ampersand : N := 38.

(** [[a-z0-9]] *)
Definition is_lower_alnum (c : N) : bool :=
  ((97 <=? c) && (c <=? 122) || (48 <=? c) && (c <=? 57))%N.

(** The combining marks U+0300 to U+036F. *)
Definition is_combining (c : N) : bool := ((768 <=? c) && (c <=? 879))%N.

(** The global [replace] of [&] by [ and ]. *)
Definition expand_ampersand (s : ustring) : ustring :=
  flat_map (fun c => if (c =? ampersand)%N then ustr " and " else [c]) s.

(** The global [replace] of [[^a-z0-9]+] by a dash: every maximal run of
    other units becomes one dash. *)
Fixpoint dash_runs (in_run : bool) (s : ustring) : ustring :=
  match s with
  | [] => []
  | c :: r =>
      if is_lower_alnum c then c :: dash_runs false r
      else if in_run then dash_runs true r
      else dash :: dash_runs true r
  end.

Fixpoint drop_leading_units (p : N -> bool) (s : ustring) : ustring :=
  match s with
  | [] => []
  | c :: r => if p c then drop_leading_units p r else s
  end.

Fixpoint drop_trailing_units (p : N -> bool) (s : ustring) : ustring :=
  match s with
  | [] => []
  | c :: r =>
      match drop_trailing_units p r with
      | [] => if p c then [] else [c]
      | r' => c :: r'
      end
  end.

Definition is_dash (c : N) : bool := (c =? dash)%N.

(** The global [replace] of [^-+|-+$] by the empty string. *)
Definition trim_dashes (s : ustring) : ustring :=
  drop_trailing_units is_dash (drop_leading_units is_dash s).

Section Slug.
Variable normalize_NFKD : ustring -> ustring.
Variable toLowerCase : ustring -> ustring.

Definition slugifyVendorName (name : option ustring) : ustring :=
  match name with
  | None | Some [] => []
  | Some n =>
      trim_dashes
        (dash_runs false
           (expand_ampersand
              (toLowerCase (filter (fun c => is_combining c = false) (normalize_NFKD n)))))
  end.

(** The [replace] of every unit outside [[a-z0-9]] by nothing. *)
Definition normalizeForMatch (value : ustring) : ustring :=
  filter (fun c => is_lower_alnum c = true) value.

Inductive LogoType := web | print.

(** [path.split(sep)]: always at least one piece. *)
Fixpoint split_units (sep : N) (s : ustring) : list ustring :=
  match s with
  | [] => [[]]
  | c :: r =>
      if (c =? sep)%N then [] :: split_units sep r
      else match split_units sep r with
           | [] => [[c]]
           | p :: ps => (c :: p) :: ps
           end
  end.

(** The [replace] of [\.[^.]+$] by nothing: the leftmost dot that only
    units other than dots follow, at least one, starts the match. *)
Fixpoint strip_extension (s : ustring) : ustring :=
  match s with
  | [] => []
  | c :: r =>
      if (c =? dot)%N && negb (bool_decide (r = []))
         && forallb (fun d => negb (d =? dot)%N) r
      then [] else c :: strip_extension r
  end.

(** [-web] at the end of the input, in any letter case. *)
Definition is_web_suffix (s : ustring) : bool :=
  match s with
  | [a; b; c; d] =>
      ((a =? dash) && ((b =? 119) || (b =? 87)) && ((c =? 101) || (c =? 69))
       && ((d =? 98) || (d =? 66)))%N
  | _ => false
  end.

(** The [replace] of [-web$] (flag [i]) by nothing. *)
Fixpoint strip_web (s : ustring) : ustring :=
  match s with
  | [] => []
  | c :: r => if is_web_suffix s then [] else c :: strip_web r
  end.

Definition slugFromManifestPath (path : ustring) (type : LogoType) : ustring :=
  let filename := List.last (split_units slash path) [] in
  let base := strip_extension filename in
  match type with
  | web => strip_web base
  | print => base
  end.

(** [new Set(slug.split("-").filter(Boolean))] *)
Definition tokens (slug : ustring) : gset ustring :=
  list_to_set (filter (fun t => t <> []) (split_units dash slug)).

(** [count > 0 ? overlap / count : 0] *)
Definition coverage (overlap count : nat) : Q :=
  if Nat.ltb 0 count then (inject_Z (Z.of_nat overlap) / inject_Z (Z.of_nat count))%Q
  else 0%Q.

Definition scoreLogoPath (name path : ustring) (type : LogoType) : nat :=
  let targetSlug := slugifyVendorName (Some name) in
  match targetSlug with
  | [] => 0
  | _ =>
      let targetNorm := normalizeForMatch targetSlug in
      let targetTokens := tokens targetSlug in
      let targetTokenCount := size targetTokens in
      let candidateSlug := slugifyVendorName (Some (slugFromManifestPath path type)) in
      match candidateSlug with
      | [] => 0
      | _ =>
          let candidateNorm := normalizeForMatch candidateSlug in
          let candidateTokens := tokens candidateSlug in
          let candidateTokenCount := size candidateTokens in
          if bool_decide (candidateSlug = targetSlug)
             || bool_decide (candidateNorm = targetNorm) then 100
          else if bool_decide (candidateNorm = targetNorm ++ ustr "s")
                  || bool_decide (candidateNorm ++ ustr "s" = targetNorm) then 94
          else
            let overlap := size (targetTokens ∩ candidateTokens) in
            let targetCoverage := coverage overlap targetTokenCount in
            let candidateCoverage := coverage overlap candidateTokenCount in
            if Nat.leb 2 overlap && Qle_bool (66 # 100) targetCoverage
               && Qle_bool (5 # 10) candidateCoverage
            then 70 + Nat.min overlap 10
            else 0
      end
  end.

(** [entries.sort((a, b) => b.score - a.score)]: the sort is stable, so
    it is the insertion of each entry before the first later entry that
    does not score higher. *)
Fixpoint insert_entry (e : ustring * nat) (sorted : list (ustring * nat))
  : list (ustring * nat) :=
  match sorted with
  | [] => [e]
  | x :: rest => if Nat.ltb e.2 x.2 then x :: insert_entry e rest else e :: sorted
  end.

Definition sort_entries (entries : list (ustring * nat)) : list (ustring * nat) :=
  foldr insert_entry [] entries.

Definition rankPaths (name : ustring) (paths : list ustring) (type : LogoType)
  : list (ustring * nat) :=
  match paths with
  | [] => []
  | _ =>
      sort_entries
        (filter (fun entry => 0 < entry.2)
           (map (fun path => (path, scoreLogoPath name path type)) paths))
  end.

Definition findBestPath (name : ustring) (paths : list ustring) (type : LogoType)
  : option ustring :=
  match rankPaths name paths type with
  | [] => None
  | best :: _ => if Nat.ltb best.2 70 then None else Some best.1
  end.

Record VendorLogoManifestPaths := mkManifest {
  web_files : option (list ustring);
  print_files : option (list ustring)
}.

(** [limit] is the optional fourth argument, 5 when left out. *)
Definition suggestVendorLogoOptions (name : ustring) (manifest : VendorLogoManifestPaths)
    (type : LogoType) (limit : option nat) : list ustring :=
  let paths :=
    match type with
    | web => default [] (web_files manifest)
    | print => default [] (print_files manifest)
    end in
  let ranked := rankPaths name paths type in
  map fst (take (default 5 limit) ranked).

Definition suggestVendorLogoPaths (name : ustring) (manifest : VendorLogoManifestPaths)
  : option ustring * option ustring :=
  (findBestPath name (default [] (web_files manifest)) web,
   findBestPath name (default [] (print_files manifest)) print).
End Slug.

(** The shape [dash_runs] produces: units of [[a-z0-9]] and single
    dashes ([after_dash] tells that a dash precedes [s]). *)
Fixpoint well_dashed (after_dash : bool) (s : ustring) : bool :=
  match s with
  | [] => true
  | c :: r =>
      if is_lower_alnum c then well_dashed false r
      else (c =? dash)%N && negb after_dash && well_dashed true r
  end.

(** A slug: well dashed, with no dash at either end. *)
Definition is_slug (s : ustring) : Prop :=
  well_dashed false s = true /\ head s <> Some dash /\ last s <> Some dash.

Definition paths_of (manifest : VendorLogoManifestPaths) (type : LogoType)
  : list ustring :=
  match type with
  | web => default [] (web_files manifest)
  | print => default [] (print_files manifest)
  end.

(** No entry scores higher than an entry before it. *)
Fixpoint descending (l : list (ustring * nat)) : Prop :=
  match l with
  | [] => True
  | x :: rest => Forall (fun y => y.2 <= x.2) rest /\ descending rest
  end.

(** Stand-ins for the two built-ins on ASCII names, where normalisation
    changes nothing and only the letters A to Z have a lower case. *)
Definition ascii_normalize (s : ustring) : ustring := s.

Definition ascii_toLowerCase (s : ustring) : ustring :=
  map (fun c => if ((65 <=? c) && (c <=? 90))%N then (c + 32)%N else c) s.
End VendorLogo.

(** * Properties *)

(** ** The scenarios of the specification *)

Example render_material_and_article :
  renderTemplateText JSON_parse_scalar
    (record [("material", "PLA"); ("article_number", "AB-1")])
    (str "{material} ({article_number})")
  = Some (str "PLA (AB-1)").
Proof. reflexivity. Qed.

Example render_missing_temperature :
  renderTemplateText JSON_parse_scalar (record [])
    (str "{ET: {settings_extruder_temp} C}")
  = Some [].
Proof. reflexivity. Qed.

Example render_nested_path_and_extra :
  renderTemplateText JSON_parse_scalar
    (mkObject
       [(str "filament",
         VObj (mkObject [(str "vendor", VObj (record [("name", "Acme")]))]
                        [(str "batch", str "true")]))]
       [])
    (str "{filament.vendor.name}/{filament.extra.batch}/{filament.vendor.id}")
  = Some (str "Acme/true/?").
Proof. reflexivity. Qed.

Example matchAll_example :
  matchAll (str "x{a} {b{c}d}{e{f}g{h}i}{ {j} }}{")
  = [str "{a}"; str "{b{c}d}"; str "{e{f}g{h}i}"; str "{ {j} }"].
Proof. reflexivity. Qed.

Example sanitizeFilename_example :
  sanitizeFilename (str "  Prusa: PLA/PETG   v1...  ") = str "Prusa- PLA-PETG v1".
Proof. reflexivity. Qed.

Example unique_names_example :
  snd <$> uniqueItems
            [mkElement (Some (str "PLA")) (str "1"); mkElement (Some (str "PLA")) (str "2");
             mkElement (Some (str "PLA")) (str "1"); mkElement (Some []) (str "3");
             mkElement (Some (str "PLA.")) (str "4")]
  = [str "PLA"; str "PLA01"; str "label-3"; str "PLA02"].
Proof. vm_compute. reflexivity. Qed.

Example fitScale_half : (fitScale true (Some (50, 100)%Z) 1 == 0.5)%Q.
Proof. reflexivity. Qed.

(** ** Suffix and prefix stripping *)

Lemma drop_trailing_split p l :
  exists t, l = drop_trailing p l ++ t /\ Forall (fun c => p c = true) t.
Proof.
  induction l as [|c r [t [Hr Ht]]]; simpl.
  - exists []. split; [reflexivity | constructor].
  - destruct (drop_trailing p r) as [|d r'] eqn:E.
    + destruct (p c) eqn:Hc.
      * exists (c :: t). simpl in Hr. subst r. split; [reflexivity | constructor; assumption].
      * exists t. simpl in *. subst r. split; [reflexivity | assumption].
    + exists t. split; [simpl; f_equal; exact Hr | assumption].
Qed.

Lemma drop_trailing_nil_iff p l :
  drop_trailing p l = [] <-> Forall (fun c => p c = true) l.
Proof.
  induction l as [|c r IH]; simpl.
  - split; [constructor | reflexivity].
  - destruct (drop_trailing p r) as [|d r'] eqn:E.
    + destruct (p c) eqn:Hc; split; intros H.
      * constructor; [assumption | apply IH; reflexivity].
      * reflexivity.
      * discriminate.
      * inversion H; congruence.
    + split; [discriminate|]. intros H. inversion H as [|? ? _ Hr]; subst.
      apply IH in Hr. discriminate.
Qed.

Lemma drop_trailing_last p l c :
  last (drop_trailing p l) = Some c -> p c = false.
Proof.
  induction l as [|d r IH]; simpl; [discriminate|].
  destruct (drop_trailing p r) as [|e r'] eqn:E.
  - destruct (p d) eqn:Hd; simpl; [discriminate|]. intros [= <-]. exact Hd.
  - intros H. apply IH. destruct r'; exact H.
Qed.

Lemma drop_trailing_id p l :
  (forall c, last l = Some c -> p c = false) -> drop_trailing p l = l.
Proof.
  induction l as [|d r IH]; simpl; [reflexivity|]. intros H.
  destruct r as [|e r'].
  - simpl. rewrite (H d eq_refl). reflexivity.
  - rewrite IH; [reflexivity|]. intros c Hc. apply H. exact Hc.
Qed.

Lemma drop_trailing_head p l c :
  head (drop_trailing p l) = Some c -> head l = Some c.
Proof.
  destruct l as [|d r]; simpl; [discriminate|].
  destruct (drop_trailing p r); [destruct (p d)|]; simpl; congruence.
Qed.

Lemma drop_leading_head p l c :
  head (drop_leading p l) = Some c -> p c = false.
Proof.
  induction l as [|d r IH]; simpl; [discriminate|].
  destruct (p d) eqn:Hd; [exact IH|]. simpl. intros [= <-]. exact Hd.
Qed.

Lemma drop_leading_id p l :
  (forall c, head l = Some c -> p c = false) -> drop_leading p l = l.
Proof.
  destruct l as [|d r]; simpl; [reflexivity|]. intros H.
  rewrite (H d eq_refl). reflexivity.
Qed.

Lemma trim_id s :
  (forall c, head s = Some c -> is_js_space c = false) ->
  (forall c, last s = Some c -> is_js_space c = false) ->
  trim s = s.
Proof.
  intros Hh Hl. unfold trim. rewrite (drop_leading_id _ _ Hh).
  apply drop_trailing_id, Hl.
Qed.

Lemma trim_head s c : head (trim s) = Some c -> is_js_space c = false.
Proof.
  unfold trim. intros H. apply drop_trailing_head in H.
  exact (drop_leading_head _ _ _ H).
Qed.

(** ** White-space normal form *)

Lemma collapse_ws_ok b s : ws_ok b (collapse_ws b s) = true.
Proof.
  revert b. induction s as [|c r IH]; intros b; simpl; [reflexivity|].
  destruct (is_js_space c) eqn:Hc.
  - destruct b; [apply IH|]. simpl. apply IH.
  - simpl. rewrite Hc. apply IH.
Qed.

Lemma ws_ok_collapse_id b s : ws_ok b s = true -> collapse_ws b s = s.
Proof.
  revert b. induction s as [|c r IH]; intros b; simpl; [reflexivity|].
  destruct (is_js_space c) eqn:Hc.
  - intros H. apply andb_prop in H as [H Hr]. apply andb_prop in H as [Hsp Hb].
    destruct b; [discriminate|]. apply Ascii.eqb_eq in Hsp. subst c.
    rewrite (IH _ Hr). reflexivity.
  - intros H. rewrite (IH _ H). reflexivity.
Qed.

Lemma ws_ok_app_l b s t : ws_ok b (s ++ t) = true -> ws_ok b s = true.
Proof.
  revert b. induction s as [|c r IH]; intros b; simpl; [reflexivity|].
  destruct (is_js_space c).
  - intros H. apply andb_prop in H as [H Hr]. rewrite H. simpl. exact (IH _ Hr).
  - apply IH.
Qed.

Lemma ws_ok_space_is_blank b s c :
  ws_ok b s = true -> In c s -> is_js_space c = true -> c = " "%char.
Proof.
  revert b. induction s as [|d r IH]; intros b Hok Hin Hc; [destruct Hin|].
  simpl in Hok. destruct Hin as [->|Hin].
  - rewrite Hc in Hok. apply andb_prop in Hok as [H _].
    apply andb_prop in H as [H _]. apply Ascii.eqb_eq in H. exact H.
  - destruct (is_js_space d).
    + apply andb_prop in Hok as [_ Hr]. exact (IH _ Hr Hin Hc).
    + exact (IH _ Hok Hin Hc).
Qed.

Lemma collapse_ws_head s c :
  head s = Some c -> is_js_space c = false ->
  head (collapse_ws false s) = Some c.
Proof.
  destruct s as [|d r]; simpl; [discriminate|]. intros [= ->] Hc.
  rewrite Hc. reflexivity.
Qed.

(** ** Allowed code units *)

Lemma replace_disallowed_allowed s : allowed (replace_disallowed s).
Proof.
  induction s as [|c r IH]; simpl; constructor; [|exact IH].
  destruct (is_disallowed c) eqn:Hc; [reflexivity | exact Hc].
Qed.

Lemma allowed_replace_id s : allowed s -> replace_disallowed s = s.
Proof.
  induction 1 as [|c r Hc _ IH]; simpl; [reflexivity|].
  rewrite Hc. f_equal. exact IH.
Qed.

Lemma collapse_ws_allowed b s : allowed s -> allowed (collapse_ws b s).
Proof.
  intros H. revert b. induction H as [|c r Hc _ IH]; intros b; simpl; [constructor|].
  destruct (is_js_space c); [destruct b|].
  - apply IH.
  - constructor; [reflexivity | apply IH].
  - constructor; [exact Hc | apply IH].
Qed.

Lemma allowed_app_l s t : allowed (s ++ t) -> allowed s.
Proof. unfold allowed. rewrite Forall_app. tauto. Qed.

Lemma replace_disallowed_head s c :
  head s = Some c -> is_js_space c = false ->
  exists d, head (replace_disallowed s) = Some d /\ is_js_space d = false.
Proof.
  destruct s as [|e r]; simpl; [discriminate|]. intros [= ->] Hc.
  destruct (is_disallowed c); eexists; split; try reflexivity; assumption.
Qed.

(** ** Shape of a sanitised name *)

Lemma sanitizeFilename_shape x :
  let s := sanitizeFilename x in
  allowed s /\ ws_ok false s = true /\
  (forall c, head s = Some c -> is_js_space c = false) /\
  (forall c, last s = Some c -> is_dot c = false).
Proof.
  unfold sanitizeFilename.
  destruct (trim x) as [|c0 t] eqn:Et.
  { simpl. repeat split; try constructor; intros; discriminate. }
  set (u := replace_disallowed (c0 :: t)).
  set (v := collapse_ws false u).
  assert (Hc0 : is_js_space c0 = false).
  { apply (trim_head x). rewrite Et. reflexivity. }
  destruct (replace_disallowed_head (c0 :: t) c0 eq_refl Hc0) as [d [Hd Hds]].
  fold u in Hd.
  assert (Hv : head v = Some d) by (apply collapse_ws_head; assumption).
  destruct (drop_trailing_split is_dot v) as [dots [Hsplit _]].
  unfold strip_trailing_dots. cbv zeta.
  assert (Hav : allowed v) by (apply collapse_ws_allowed, replace_disallowed_allowed).
  assert (Hok : ws_ok false v = true) by apply collapse_ws_ok.
  rewrite Hsplit in Hav, Hok.
  split; [exact (allowed_app_l _ _ Hav)|].
  split; [exact (ws_ok_app_l _ _ _ Hok)|].
  split.
  - intros c Hc. apply drop_trailing_head in Hc. congruence.
  - intros c Hc. exact (drop_trailing_last _ _ _ Hc).
Qed.

(** C3 (as stated): the name [a .] sanitises to [a] followed by a space,
    and sanitising that once more removes the space: [sanitizeFilename] is
    not idempotent. *)
Lemma sanitizeFilename_not_idempotent :
  ~ (forall x, sanitizeFilename (sanitizeFilename x) = sanitizeFilename x).
Proof.
  intros H. specialize (H (str "a .")). vm_compute in H. discriminate H.
Qed.

(** C3 (amended): sanitising twice equals sanitising once for every input
    whose sanitised name does not end in a space, the one shape the final
    dot-stripping step can leave behind. *)
Theorem sanitizeFilename_idempotent_no_trailing_space x :
  last (sanitizeFilename x) <> Some " "%char ->
  sanitizeFilename (sanitizeFilename x) = sanitizeFilename x.
Proof.
  intros Hlast.
  destruct (sanitizeFilename_shape x) as [Hal [Hok [Hhead Hdot]]].
  set (s := sanitizeFilename x) in *.
  assert (Htrim : trim s = s).
  { apply trim_id; [exact Hhead|]. intros c Hc.
    destruct (is_js_space c) eqn:Hsp; [|reflexivity].
    exfalso. apply Hlast. rewrite Hc. f_equal.
    apply (ws_ok_space_is_blank false s c Hok); [|exact Hsp].
    apply last_Some in Hc as [l' ->]. apply in_or_app. right. left. reflexivity. }
  unfold sanitizeFilename at 1. rewrite Htrim.
  destruct s as [|c0 r] eqn:Es; [reflexivity|].
  rewrite (allowed_replace_id _ Hal), (ws_ok_collapse_id _ _ Hok).
  apply drop_trailing_id. exact Hdot.
Qed.

Lemma sanitizeFilename_idempotent_witness :
  sanitizeFilename (sanitizeFilename (str "  Prusa: PLA/PETG   v1...  "))
  = sanitizeFilename (str "  Prusa: PLA/PETG   v1...  ").
Proof.
  apply (sanitizeFilename_idempotent_no_trailing_space (str "  Prusa: PLA/PETG   v1...  ")).
  vm_compute. discriminate.
Defined.

(** ** Decimal rendering *)

Lemma str_app s t : str (s +:+ t) = str s ++ str t.
Proof.
  induction s as [|c s IH]; [reflexivity|].
  change (c :: str (s +:+ t) = c :: (str s ++ str t)). f_equal. exact IH.
Qed.

Lemma str_inj s t : str s = str t -> s = t.
Proof.
  unfold str. intros H.
  rewrite <- (string_of_list_ascii_of_string s), <- (string_of_list_ascii_of_string t).
  f_equal. exact H.
Qed.

Lemma append_String_assoc p d s : (p +:+ String d "") +:+ s = p +:+ String d s.
Proof.
  induction p as [|c p IH]; [reflexivity|].
  change (String c ((p +:+ String d "") +:+ s) = String c (p +:+ String d s)).
  f_equal. exact IH.
Qed.

Lemma pretty_N_go_append x s : pretty_N_go x s = pretty_N_go x "" +:+ s.
Proof.
  revert s. induction (N.lt_wf_0 x) as [x _ IH]; intros s.
  destruct (decide (x = 0)%N) as [->|Hx]; [reflexivity|].
  assert (Hlt : (x `div` 10 < x)%N) by (apply N.div_lt; lia).
  rewrite !(pretty_N_go_step x) by lia.
  rewrite (IH _ Hlt (String _ s)), (IH _ Hlt (String _ "")).
  symmetry. apply append_String_assoc.
Qed.

Lemma pretty_N_ge_10 (x : N) :
  (10 <= x)%N ->
  pretty x = pretty (x `div` 10)%N +:+ String (pretty_N_char (x `mod` 10)) "".
Proof.
  intros Hx. unfold pretty, pretty_N.
  assert (x `div` 10 <> 0)%N by (intros E; apply N.div_small_iff in E; lia).
  rewrite !decide_False by lia.
  rewrite pretty_N_go_step by lia. apply pretty_N_go_append.
Qed.

Lemma pretty_N_lt_10 (x : N) :
  (x < 10)%N -> pretty x = String (pretty_N_char x) "".
Proof.
  intros Hx.
  assert (x = 0 \/ x = 1 \/ x = 2 \/ x = 3 \/ x = 4 \/ x = 5 \/ x = 6 \/ x = 7
          \/ x = 8 \/ x = 9)%N as Hc by lia.
  repeat (destruct Hc as [->|Hc]; [reflexivity|]). subst x. reflexivity.
Qed.

(** A positive number is rendered without a leading zero. *)
Lemma pretty_N_head (x : N) :
  (0 < x)%N -> exists c s, pretty x = String c s /\ c <> "0"%char.
Proof.
  induction (N.lt_wf_0 x) as [x _ IH]. intros Hx.
  destruct (decide (x < 10)%N) as [Hlt|Hge].
  - rewrite pretty_N_lt_10 by exact Hlt. eexists _, _. split; [reflexivity|].
    assert (x = 1 \/ x = 2 \/ x = 3 \/ x = 4 \/ x = 5 \/ x = 6 \/ x = 7
            \/ x = 8 \/ x = 9)%N as Hc by lia.
    repeat (destruct Hc as [->|Hc]; [discriminate|]). subst x. discriminate.
  - rewrite pretty_N_ge_10 by lia.
    destruct (IH (x `div` 10)%N) as [c [s [E Hc]]].
    + apply N.div_lt; lia.
    + apply N.div_str_pos. lia.
    + rewrite E. simpl. eexists _, _. split; [reflexivity | exact Hc].
Qed.

Lemma String_of_nat_lt_10 n :
  n < 10 -> String_of_nat n = [pretty_N_char (N.of_nat n)].
Proof.
  intros Hn. unfold String_of_nat, pretty, pretty_nat.
  rewrite pretty_N_lt_10 by lia. reflexivity.
Qed.

Lemma String_of_nat_ge_10 n :
  10 <= n -> exists c d r, String_of_nat n = c :: d :: r /\ c <> "0"%char.
Proof.
  intros Hn. unfold String_of_nat, pretty, pretty_nat.
  rewrite pretty_N_ge_10 by lia. rewrite str_app.
  destruct (pretty_N_head (N.of_nat n `div` 10)%N) as [c [s [E Hc]]].
  { apply N.div_str_pos. lia. }
  rewrite E. unfold str at 1. simpl.
  destruct (list_ascii_of_string s) as [|d r]; simpl; eexists _, _, _;
    (split; [reflexivity | exact Hc]).
Qed.

Lemma String_of_nat_inj n m : String_of_nat n = String_of_nat m -> n = m.
Proof. unfold String_of_nat. intros H. apply str_inj in H. exact (inj pretty _ _ H). Qed.

Lemma padStart_2_lt_10 n :
  n < 10 -> padStart 2 "0"%char (String_of_nat n) = ["0"%char; pretty_N_char (N.of_nat n)].
Proof. intros Hn. rewrite String_of_nat_lt_10 by exact Hn. reflexivity. Qed.

Lemma padStart_2_ge_10 n :
  10 <= n -> padStart 2 "0"%char (String_of_nat n) = String_of_nat n.
Proof.
  intros Hn. destruct (String_of_nat_ge_10 n Hn) as [c [d [r [E _]]]].
  rewrite E. reflexivity.
Qed.

Lemma padStart_2_inj n m :
  padStart 2 "0"%char (String_of_nat n) = padStart 2 "0"%char (String_of_nat m) ->
  n = m.
Proof.
  destruct (le_lt_dec 10 n) as [Hn|Hn], (le_lt_dec 10 m) as [Hm|Hm].
  - rewrite !padStart_2_ge_10 by assumption. apply String_of_nat_inj.
  - rewrite padStart_2_ge_10, padStart_2_lt_10 by assumption.
    destruct (String_of_nat_ge_10 n Hn) as [c [d [r [E Hc]]]]. rewrite E.
    intros [= -> _ _]. contradiction.
  - rewrite padStart_2_lt_10, padStart_2_ge_10 by assumption.
    destruct (String_of_nat_ge_10 m Hm) as [c [d [r [E Hc]]]]. rewrite E.
    intros [= <- _ _]. contradiction.
  - rewrite !padStart_2_lt_10 by assumption. intros [= H].
    apply pretty_N_char_inj in H; lia.
Qed.

Lemma padStart_2_nonempty n : padStart 2 "0"%char (String_of_nat n) <> [].
Proof.
  destruct (le_lt_dec 10 n) as [Hn|Hn].
  - rewrite padStart_2_ge_10 by assumption.
    destruct (String_of_nat_ge_10 n Hn) as [c [d [r [E _]]]]. rewrite E. discriminate.
  - rewrite padStart_2_lt_10 by assumption. discriminate.
Qed.

Lemma suffixed_inj base n m : suffixed base n = suffixed base m -> n = m.
Proof. unfold suffixed. intros H. apply app_inv_head in H. exact (padStart_2_inj _ _ H). Qed.

Lemma suffixed_neq_base base n : suffixed base n <> base.
Proof.
  unfold suffixed. intros H. rewrite <- (app_nil_r base) in H at 2.
  apply app_inv_head in H. exact (padStart_2_nonempty _ H).
Qed.

(** ** The collision loop *)

Lemma next_free_spec (fuel : nat) (used : gset jstring) (base : jstring) (k : nat) n :
  next_free fuel used base k = Some n ->
  exists j, k <= j /\ n = suffixed base j /\ (n ∉ used) /\
            (forall i, k <= i < j -> suffixed base i ∈ used).
Proof.
  revert k. induction fuel as [|fuel IH]; intros k; simpl; [discriminate|].
  destruct (decide (suffixed base k ∈ used)) as [Hin|Hout].
  - intros H. destruct (IH _ H) as [j [Hj [-> [Hfree Hused]]]].
    exists j. repeat split; [lia | exact Hfree |].
    intros i Hi. destruct (decide (i = k)) as [->|]; [exact Hin | apply Hused; lia].
  - intros [= <-]. exists k. repeat split; [lia | exact Hout | intros; lia].
Qed.

(** Pigeonhole: the candidates are pairwise distinct, so after more
    iterations than there are used names one of them is free. *)
Lemma next_free_total (fuel : nat) (used X : gset jstring) (base : jstring) (k : nat) :
  (forall j, k <= j -> suffixed base j ∈ used -> suffixed base j ∈ X) ->
  size X < fuel ->
  is_Some (next_free fuel used base k).
Proof.
  revert k X. induction fuel as [|fuel IH]; intros k X HX Hsize; [lia|]. simpl.
  destruct (decide (suffixed base k ∈ used)) as [Hin|Hout]; [|eexists; reflexivity].
  apply (IH (S k) (X ∖ {[ suffixed base k ]})).
  - intros j Hj Hu. apply elem_of_difference. split; [apply HX; [lia | exact Hu]|].
    rewrite elem_of_singleton. intros E. apply suffixed_inj in E. lia.
  - assert (Hk : suffixed base k ∈ X) by (apply HX; [lia | exact Hin]).
    assert (Hsub : ({[ suffixed base k ]} : gset jstring) ⊆ X)
      by (apply singleton_subseteq_l; exact Hk).
    pose proof (size_difference X {[ suffixed base k ]} Hsub) as Hd.
    rewrite size_singleton in Hd.
    assert (size X <> 0) by (intros E; apply size_empty_inv in E; set_solver).
    lia.
Qed.

Lemma safeName_for_total (used : gset jstring) (base : jstring) : is_Some (safeName_for used base).
Proof.
  unfold safeName_for. destruct (decide (base ∈ used)); [|eexists; reflexivity].
  apply (next_free_total _ used used); [auto | lia].
Qed.

Lemma safeName_for_fresh (used : gset jstring) (base n : jstring) :
  safeName_for used base = Some n -> n ∉ used.
Proof.
  unfold safeName_for. destruct (decide (base ∈ used)) as [Hin|Hout].
  - intros H. apply next_free_spec in H as [j [_ [_ [Hfree _]]]]. exact Hfree.
  - intros [= <-]. exact Hout.
Qed.

(** ** The export list *)

Lemma uniqueLoop_total (items hasPrinted : list Element) (used : gset jstring) (idx : nat) :
  is_Some (uniqueLoop items hasPrinted used idx).
Proof.
  revert hasPrinted used idx. induction items as [|item rest IH]; intros hp used idx; simpl.
  - eexists; reflexivity.
  - destruct (existsb (isEqualNode item) hp); [apply IH|].
    destruct (safeName_for_total used (baseName item idx)) as [n En]. rewrite En.
    destruct (IH (hp ++ [item]) ({[ n ]} ∪ used) (S idx)) as [more Em]. rewrite Em.
    eexists; reflexivity.
Qed.

Lemma uniqueLoop_names (items hasPrinted : list Element) (used : gset jstring)
    (idx : nat) named :
  uniqueLoop items hasPrinted used idx = Some named ->
  NoDup (named.*2) /\ (forall n, n ∈ named.*2 -> n ∉ used).
Proof.
  revert hasPrinted used idx named.
  induction items as [|item rest IH]; intros hp used idx named; simpl.
  - intros [= <-]. split; [constructor | intros n Hn; inversion Hn].
  - destruct (existsb (isEqualNode item) hp); [apply IH|].
    destruct (safeName_for used (baseName item idx)) as [n|] eqn:En; [|discriminate].
    destruct (uniqueLoop rest (hp ++ [item]) ({[ n ]} ∪ used) (S idx)) as [more|] eqn:Em;
      [|discriminate].
    intros [= <-]. destruct (IH _ _ _ _ Em) as [Hnd Hfresh]. simpl. split.
    + constructor; [|exact Hnd]. intros Hn. apply Hfresh in Hn.
      apply Hn, elem_of_union_l, elem_of_singleton. reflexivity.
    + intros m Hm. apply elem_of_cons in Hm as [->|Hm].
      * exact (safeName_for_fresh _ _ _ En).
      * apply Hfresh in Hm. intros Hu. apply Hm, elem_of_union_r, Hu.
Qed.

Lemma getUniqueExportItems_total items : is_Some (getUniqueExportItems items).
Proof. apply uniqueLoop_total. Qed.

Lemma getUniqueExportItems_NoDup items named :
  getUniqueExportItems items = Some named -> NoDup (named.*2).
Proof. intros H. exact (proj1 (uniqueLoop_names _ _ _ _ _ H)). Qed.

Lemma existsb_isEqualNode_false item (hp : list Element) :
  item ∉ hp -> existsb (isEqualNode item) hp = false.
Proof.
  induction hp as [|h hp IH]; intros Hn; simpl; [reflexivity|].
  rewrite IH by (intros Hi; apply Hn; right; exact Hi).
  unfold isEqualNode. rewrite bool_decide_eq_false_2; [reflexivity|].
  intros ->. apply Hn. left.
Qed.

(** With every base name equal to [B], [B] taken and the suffixes below
    [k] taken, the remaining items receive the suffixes from [k] on. *)
Lemma uniqueLoop_same_base (B : jstring) (rest : list Element) :
  forall (hp : list Element) (used : gset jstring) (idx k : nat),
  (forall item i, item ∈ rest -> baseName item i = B) ->
  NoDup (hp ++ rest) ->
  B ∈ used ->
  (forall j, 1 <= j < k -> suffixed B j ∈ used) ->
  (forall j, k <= j -> suffixed B j ∉ used) ->
  1 <= k ->
  uniqueLoop rest hp used idx
  = Some (zip rest (map (suffixed B) (seq k (length rest)))).
Proof.
  induction rest as [|item rest IH]; intros hp used idx k Hbase Hnd HB Hlow Hhigh Hk; simpl;
    [reflexivity|].
  assert (Hitem : item ∉ hp).
  { apply NoDup_app in Hnd as [_ [Hd _]]. intros Hi. apply (Hd item Hi). left. }
  rewrite (existsb_isEqualNode_false _ _ Hitem).
  rewrite (Hbase item idx) by left.
  destruct (safeName_for_total used B) as [n En]. rewrite En.
  assert (n = suffixed B k) as ->.
  { unfold safeName_for in En. rewrite decide_True in En by exact HB.
    apply next_free_spec in En as [j [Hj [Ej [Hfree Hused]]]]. subst n.
    destruct (lt_eq_lt_dec j k) as [[Hlt| ->]|Hgt]; [|reflexivity|].
    - exfalso. apply Hfree, Hlow. lia.
    - exfalso. apply (Hhigh k); [lia | apply Hused; lia]. }
  rewrite (IH (hp ++ [item]) ({[ suffixed B k ]} ∪ used) (S idx) (S k)).
  - reflexivity.
  - intros it i Hit. apply Hbase. right. exact Hit.
  - rewrite <- app_assoc. exact Hnd.
  - set_solver.
  - intros j Hj. destruct (decide (j = k)) as [->|].
    + apply elem_of_union_l, elem_of_singleton. reflexivity.
    + apply elem_of_union_r, Hlow. lia.
  - intros j Hj Hin. apply elem_of_union in Hin as [Hin|Hin].
    + apply elem_of_singleton in Hin. apply suffixed_inj in Hin. lia.
    + apply (Hhigh j); [lia | exact Hin].
  - lia.
Qed.

(** The names [B], [B01], [B02], ... of [n] items that share the base [B]. *)
Lemma same_base_names_NoDup B n : NoDup (same_base_names B n).
Proof.
  destruct n as [|m]; simpl; [constructor|]. constructor.
  - intros Hin. apply list_elem_of_fmap in Hin as [j [Hj _]].
    symmetry in Hj. exact (suffixed_neq_base _ _ Hj).
  - assert (Inj (=) (=) (suffixed B)) by (intros i j; apply suffixed_inj).
    apply NoDup_fmap_2; [assumption | apply NoDup_seq].
Qed.

Lemma padStart_2_two_digits k :
  1 <= k <= 99 -> exists d1 d2, padStart 2 "0"%char (String_of_nat k) = [d1; d2].
Proof.
  intros Hk.
  assert (Hall : forallb (fun k => Nat.eqb (length (padStart 2 "0"%char (String_of_nat k))) 2)
                   (seq 1 99) = true) by (vm_compute; reflexivity).
  rewrite forallb_forall in Hall.
  assert (Hlen : length (padStart 2 "0"%char (String_of_nat k)) = 2).
  { apply Nat.eqb_eq, Hall, in_seq. lia. }
  destruct (padStart 2 "0"%char (String_of_nat k)) as [|d1 [|d2 [|d3 r]]]; try discriminate.
  eexists _, _. reflexivity.
Qed.

Lemma items101_NoDup : NoDup items101.
Proof.
  assert (Inj (=) (=) (fun i => mkElement (Some (str "label")) (String_of_nat i)))
    by (intros i j [= H]; exact (String_of_nat_inj _ _ H)).
  unfold items101. apply (NoDup_fmap_2 _), NoDup_seq.
Qed.

Lemma items101_base item idx : item ∈ items101 -> baseName item idx = str "label".
Proof. intros Hin. apply list_elem_of_fmap in Hin as [i [-> _]]. reflexivity. Qed.

(** C5 (as stated): with 101 items named [label], the last one is called
    [label100]; its suffix has three digits, not two. *)
Lemma getUniqueExportItems_three_digit_suffix :
  NoDup items101 /\
  (forall item idx, item ∈ items101 -> baseName item idx = str "label") /\
  ~ (forall named, getUniqueExportItems items101 = Some named ->
       Forall (two_digit_suffix (str "label")) (tail (named.*2))).
Proof.
  split; [|split].
  - apply items101_NoDup.
  - apply items101_base.
  - intros H. destruct (getUniqueExportItems items101) as [named|] eqn:E.
    + specialize (H named eq_refl). vm_compute in E. injection E as <-.
      rewrite Forall_lookup in H.
      destruct (H 99 (str "label100") eq_refl) as [d1 [d2 Hd]].
      change (str "label100") with (str "label" ++ str "100") in Hd.
      apply app_inv_head in Hd. discriminate Hd.
    + vm_compute in E. discriminate E.
Qed.

(** C5 (amended): [N] distinct label items whose raw names all sanitise to
    the base name [B] are exported under [N] pairwise distinct names: [B]
    for the first, and for the [k]-th colliding item [B] followed by [k]
    padded with zeros to at least two digits ([01] ... [99], which are
    exactly two digits long). *)
Theorem getUniqueExportItems_same_base (items : list Element) (B : jstring) :
  NoDup items ->
  (forall item idx, item ∈ items -> baseName item idx = B) ->
  exists named,
    getUniqueExportItems items = Some named /\
    named.*1 = items /\
    named.*2 = same_base_names B (length items) /\
    NoDup (named.*2) /\
    (forall k, 1 <= k <= 99 ->
       exists d1 d2, padStart 2 "0"%char (String_of_nat k) = [d1; d2]).
Proof.
  intros Hnd Hbase.
  assert (Hrun : getUniqueExportItems items = Some (zip items (same_base_names B (length items)))).
  { destruct items as [|item rest]; [reflexivity|].
    unfold getUniqueExportItems. simpl.
    rewrite (Hbase item 1) by left.
    unfold safeName_for. rewrite decide_False by set_solver.
    rewrite (uniqueLoop_same_base B rest [item] _ 2 1).
    - reflexivity.
    - intros it i Hit. apply Hbase. right. exact Hit.
    - exact Hnd.
    - set_solver.
    - intros j Hj. lia.
    - intros j Hj Hin. apply elem_of_union in Hin as [Hin|Hin]; [|set_solver].
      apply elem_of_singleton in Hin. exact (suffixed_neq_base _ _ Hin).
    - lia. }
  assert (Hlen : length (same_base_names B (length items)) = length items).
  { destruct items; simpl; [reflexivity|]. rewrite length_map, length_seq. reflexivity. }
  eexists. split; [exact Hrun|].
  split; [apply fst_zip; lia|].
  rewrite snd_zip by lia.
  split; [reflexivity|]. split; [apply same_base_names_NoDup | exact padStart_2_two_digits].
Qed.

Lemma getUniqueExportItems_same_base_witness :
  exists named,
    getUniqueExportItems items101 = Some named /\
    named.*1 = items101 /\
    named.*2 = same_base_names (str "label") (length items101) /\
    NoDup (named.*2) /\
    (forall k, 1 <= k <= 99 ->
       exists d1 d2, padStart 2 "0"%char (String_of_nat k) = [d1; d2]).
Proof.
  apply (getUniqueExportItems_same_base items101 (str "label")).
  - apply items101_NoDup.
  - apply items101_base.
Defined.

(** ** Export *)











(** ** Header height budget *)

Lemma minMainHeightMm_nonneg s : (0 <= minMainHeightMm s)%Q.
Proof. unfold minMainHeightMm. destruct (showQRCodeMode s); discriminate. Qed.

(** C7: the header budget is the paper height minus both margins, the
    container padding (1.2 mm) and the minimum main height, cut off at
    zero; the minimum main height is 0 when the QR mode is [no] and 8 mm
    otherwise; the budget is never negative. *)
Theorem maxHeaderHeightMm_budget (s : QRCodePrintSettings.t) :
  (maxHeaderHeightMm s ==
     Qmax 0 (qr_paperHeight s - topMargin s - bottomMargin s
             - containerPaddingMm - minMainHeightMm s))%Q /\
  (0 <= maxHeaderHeightMm s)%Q /\
  minMainHeightMm s = (match showQRCodeMode s with qr_no => 0 | _ => 8 end)%Q /\
  (containerPaddingMm == 1.2)%Q.
Proof.
  split; [|split; [apply Q.le_max_l | split; reflexivity]].
  unfold maxHeaderHeightMm, availableContentHeightMm.
  pose proof (minMainHeightMm_nonneg s) as Hm.
  set (a := (qr_paperHeight s - topMargin s - bottomMargin s - containerPaddingMm)%Q).
  set (m := minMainHeightMm s) in *. clearbody a m.
  destruct (Q.max_spec 0 a) as [[Ha E]|[Ha E]]; rewrite E.
  - reflexivity.
  - rewrite (Q.max_l 0 (0 - m)) by lra. rewrite (Q.max_l 0 (a - m)) by lra. reflexivity.
Qed.

(** ** Rounding *)

Lemma round_half_up_mono x y : (x <= y)%Q -> (round_half_up x <= round_half_up y)%Z.
Proof. intros H. apply Qfloor_resp_le. lra. Qed.

Lemma pow10_pos (d : nat) : (0 < inject_Z (10 ^ Z.of_nat d))%Q.
Proof.
  change 0%Q with (inject_Z 0). rewrite <- Zlt_Qlt. apply Z.pow_pos_nonneg; lia.
Qed.

Lemma toFixed_nonneg d x :
  (0 <= x)%Q -> toFixed d x = (inject_Z (round_half_up (x * inject_Z (10 ^ Z.of_nat d)))
                               / inject_Z (10 ^ Z.of_nat d))%Q.
Proof.
  intros Hx. unfold toFixed. destruct (Qlt_le_dec x 0) as [Hneg|_]; [lra | reflexivity].
Qed.

Lemma toFixed_mono d x y : (0 <= x)%Q -> (x <= y)%Q -> (toFixed d x <= toFixed d y)%Q.
Proof.
  intros Hx Hxy. rewrite !toFixed_nonneg by lra.
  pose proof (pow10_pos d) as Hk. set (k := inject_Z (10 ^ Z.of_nat d)) in *.
  apply Qmult_le_compat_r.
  - rewrite <- Zle_Qle. apply round_half_up_mono.
    apply Qmult_le_compat_r; lra.
  - apply Qlt_le_weak, Qinv_lt_0_compat, Hk.
Qed.

Lemma toFixed_ge_0 d x : (0 <= x)%Q -> (0 <= toFixed d x)%Q.
Proof.
  intros Hx. rewrite toFixed_nonneg by exact Hx.
  pose proof (pow10_pos d) as Hk. set (k := inject_Z (10 ^ Z.of_nat d)) in *.
  apply Qle_shift_div_l; [exact Hk|]. rewrite Qmult_0_l.
  change 0%Q with (inject_Z 0). rewrite <- Zle_Qle.
  change 0%Z with (Qfloor (inject_Z 0)). apply Qfloor_resp_le.
  assert (0 <= x * k)%Q by (apply Qmult_le_0_compat; lra).
  change (inject_Z 0) with 0%Q. lra.
Qed.

(** A value already on the grid is not moved. *)
Lemma toFixed_grid d (z : Z) :
  (0 <= z)%Z ->
  (toFixed d (inject_Z z / inject_Z (10 ^ Z.of_nat d)) ==
   inject_Z z / inject_Z (10 ^ Z.of_nat d))%Q.
Proof.
  intros Hz. pose proof (pow10_pos d) as Hk. set (k := inject_Z (10 ^ Z.of_nat d)) in *.
  assert (Hx : (0 <= inject_Z z / k)%Q).
  { apply Qle_shift_div_l; [exact Hk|]. rewrite Qmult_0_l.
    change 0%Q with (inject_Z 0). rewrite <- Zle_Qle. exact Hz. }
  rewrite toFixed_nonneg by exact Hx. fold k.
  assert (E : round_half_up (inject_Z z / k * k) = z).
  { unfold round_half_up.
    assert (Hs : (inject_Z z / k * k + (1 # 2) == inject_Z z + (1 # 2))%Q)
      by (field; lra).
    rewrite (Qfloor_comp _ _ Hs).
    pose proof (Qfloor_le (inject_Z z + (1 # 2))) as H1.
    pose proof (Qlt_floor (inject_Z z + (1 # 2))) as H2.
    set (f := Qfloor (inject_Z z + (1 # 2))) in *.
    rewrite inject_Z_plus in H2. change (inject_Z 1) with 1%Q in H2.
    assert (inject_Z f < inject_Z (z + 1))%Q as H3
      by (rewrite inject_Z_plus; change (inject_Z 1) with 1%Q; lra).
    assert (inject_Z z < inject_Z (f + 1))%Q as H4
      by (rewrite inject_Z_plus; change (inject_Z 1) with 1%Q; lra).
    rewrite <- Zlt_Qlt in H3, H4. lia. }
  rewrite E. reflexivity.
Qed.

(** ** Doubles *)

Section DoubleFacts.
Local Open Scope Q_scope.

(** *** Powers of two *)

Lemma pow2_pos (e : Z) : 0 < 2 ^ e.
Proof. apply Qpower_0_lt. reflexivity. Qed.

Lemma pow2_add (a b : Z) : 2 ^ (a + b) == 2 ^ a * 2 ^ b.
Proof. apply Qpower_plus. discriminate. Qed.

Lemma pow2_le (a b : Z) : (a <= b)%Z -> 2 ^ a <= 2 ^ b.
Proof. intros H. apply Qpower_le_compat_l; [exact H | discriminate]. Qed.

Lemma pow2_lt_inv (a b : Z) : 2 ^ a < 2 ^ b -> (a < b)%Z.
Proof. intros H. apply (Qpower_lt_compat_l_inv 2); [exact H | reflexivity]. Qed.

Lemma pow2_inject (a : Z) : (0 <= a)%Z -> inject_Z (2 ^ a) == 2 ^ a.
Proof. intros H. rewrite Zpower_Qpower by exact H. reflexivity. Qed.

Lemma Z_log2_bounds (n : Z) :
  (0 < n)%Z -> inject_Z (2 ^ Z.log2 n) <= inject_Z n /\ inject_Z n < inject_Z (2 ^ (Z.log2 n + 1)).
Proof.
  intros H. destruct (Z.log2_spec n H) as [H1 H2]. split.
  - rewrite <- Zle_Qle. exact H1.
  - rewrite <- Zlt_Qlt. replace (Z.log2 n + 1)%Z with (Z.succ (Z.log2 n)) by lia. exact H2.
Qed.

Lemma binade_spec (x : Q) : 0 < x -> 2 ^ binade x <= x /\ x < 2 ^ (binade x + 1).
Proof.
  intros Hx. destruct x as [n d]. unfold binade. cbn [Qnum Qden].
  assert (Hn : (0 < n)%Z) by (unfold Qlt in Hx; simpl in Hx; lia).
  destruct (Z_log2_bounds n Hn) as [Ha1 Ha2].
  destruct (Z_log2_bounds (Z.pos d) (Pos2Z.is_pos d)) as [Hb1 Hb2].
  pose proof (Z.log2_nonneg n) as Ha0. pose proof (Z.log2_nonneg (Z.pos d)) as Hb0.
  rewrite pow2_inject in Ha1, Ha2, Hb1, Hb2 by lia.
  set (a := Z.log2 n) in *. set (b := Z.log2 (Z.pos d)) in *.
  assert (Hq : n # d == inject_Z n / inject_Z (Z.pos d)) by (rewrite Qmake_Qdiv; reflexivity).
  assert (Hd : 0 < inject_Z (Z.pos d)) by reflexivity.
  set (N := inject_Z n) in *. set (D := inject_Z (Z.pos d)) in *.
  assert (Hlo : 2 ^ (a - b - 1) < n # d).
  { rewrite Hq. apply Qlt_shift_div_l; [exact Hd|].
    apply Qlt_le_trans with (2 ^ (a - b - 1) * 2 ^ (b + 1)).
    - apply Qmult_lt_l; [apply pow2_pos | exact Hb2].
    - rewrite <- pow2_add. replace (a - b - 1 + (b + 1))%Z with a by lia. exact Ha1. }
  assert (Hhi : n # d < 2 ^ (a - b + 1)).
  { rewrite Hq. apply Qlt_shift_div_r; [exact Hd|].
    apply Qlt_le_trans with (2 ^ (a + 1)); [exact Ha2|].
    replace (a + 1)%Z with (a - b + 1 + b)%Z by lia. rewrite pow2_add.
    apply Qmult_le_l; [apply pow2_pos | exact Hb1]. }
  destruct (Qle_bool (2 ^ (a - b)) (n # d)) eqn:E.
  - apply Qle_bool_iff in E. split; [exact E | exact Hhi].
  - assert (Hlt : n # d < 2 ^ (a - b)).
    { apply Qnot_le_lt. intros H. apply Qle_bool_iff in H. congruence. }
    split; [apply Qlt_le_weak; exact Hlo|].
    replace (a - b - 1 + 1)%Z with (a - b)%Z by lia. exact Hlt.
Qed.

Lemma binade_mono (x y : Q) : 0 < x -> x <= y -> (binade x <= binade y)%Z.
Proof.
  intros Hx Hxy. destruct (binade_spec x Hx) as [H1 _].
  destruct (binade_spec y) as [_ H2]; [lra|].
  assert (H : 2 ^ binade x < 2 ^ (binade y + 1)) by lra.
  apply pow2_lt_inv in H. lia.
Qed.

Lemma binade_unique (x : Q) (b : Z) : 2 ^ b <= x -> x < 2 ^ (b + 1) -> binade x = b.
Proof.
  intros H1 H2. assert (Hx : 0 < x) by (pose proof (pow2_pos b); lra).
  destruct (binade_spec x Hx) as [H3 H4].
  assert (Ha : 2 ^ b < 2 ^ (binade x + 1)) by lra.
  assert (Hb : 2 ^ binade x < 2 ^ (b + 1)) by lra.
  apply pow2_lt_inv in Ha, Hb. lia.
Qed.

(** *** Rounding to the nearest integer *)

Lemma round_half_even_cases (x : Q) :
  let f := Qfloor x in
  (round_half_even x = f /\ x - inject_Z f <= 1 # 2 /\
     (x - inject_Z f == 1 # 2 -> Z.even f = true)) \/
  (round_half_even x = (f + 1)%Z /\ 1 # 2 <= x - inject_Z f /\
     (x - inject_Z f == 1 # 2 -> Z.even f = false)).
Proof.
  cbv zeta. unfold round_half_even.
  destruct (Qcompare_spec (x - inject_Z (Qfloor x)) (1 # 2)) as [E|E|E].
  - destruct (Z.even (Qfloor x)) eqn:Ev; [left | right]; repeat split; lra || auto.
  - left. repeat split; [lra|]. intros H. lra.
  - right. repeat split; [lra|]. intros H. lra.
Qed.

Lemma Qfloor_bounds (x : Q) : inject_Z (Qfloor x) <= x /\ x < inject_Z (Qfloor x) + 1.
Proof.
  split; [apply Qfloor_le|]. pose proof (Qlt_floor x) as H.
  rewrite inject_Z_plus in H. exact H.
Qed.

Lemma round_half_even_mono (x y : Q) : x <= y -> (round_half_even x <= round_half_even y)%Z.
Proof.
  intros Hxy. pose proof (Qfloor_resp_le _ _ Hxy) as Hf.
  destruct (Qfloor_bounds x) as [Hx1 Hx2]. destruct (Qfloor_bounds y) as [Hy1 Hy2].
  destruct (round_half_even_cases x) as [[Ex [Hx Tx]]|[Ex [Hx Tx]]];
    destruct (round_half_even_cases y) as [[Ey [Hy Ty]]|[Ey [Hy Ty]]];
    rewrite Ex, Ey; try lia.
  destruct (Z.eq_dec (Qfloor x) (Qfloor y)) as [E|E]; [|lia].
  exfalso. rewrite E in *.
  assert (H1 : x - inject_Z (Qfloor y) == 1 # 2) by lra.
  assert (H2 : y - inject_Z (Qfloor y) == 1 # 2) by lra.
  specialize (Tx H1). specialize (Ty H2). congruence.
Qed.

Lemma round_half_even_Z (z : Z) : round_half_even (inject_Z z) = z.
Proof.
  unfold round_half_even. rewrite Qfloor_Z.
  destruct (Qcompare_spec (inject_Z z - inject_Z z) (1 # 2)) as [E|E|E]; [lra | reflexivity | lra].
Qed.

Lemma round_half_even_near (x : Q) :
  x - (1 # 2) <= inject_Z (round_half_even x) <= x + (1 # 2).
Proof.
  destruct (Qfloor_bounds x) as [H1 H2].
  destruct (round_half_even_cases x) as [[E [H _]]|[E [H _]]]; rewrite E.
  - lra.
  - rewrite inject_Z_plus. change (inject_Z 1) with 1. lra.
Qed.

Lemma round_half_even_comp (x y : Q) : x == y -> round_half_even x = round_half_even y.
Proof.
  intros H. apply Z.le_antisymm; apply round_half_even_mono; lra.
Qed.

Lemma round_half_even_le_pow2 (t : Q) (k : Z) :
  (0 <= k)%Z -> t <= 2 ^ k -> inject_Z (round_half_even t) <= 2 ^ k.
Proof.
  intros Hk Ht. pose proof (pow2_inject k Hk) as E.
  apply Qle_trans with (inject_Z (2 ^ k)); [|lra].
  rewrite <- Zle_Qle. rewrite <- (round_half_even_Z (2 ^ k)).
  apply round_half_even_mono. lra.
Qed.

Lemma round_half_even_ge_pow2 (t : Q) (k : Z) :
  (0 <= k)%Z -> 2 ^ k <= t -> 2 ^ k <= inject_Z (round_half_even t).
Proof.
  intros Hk Ht. pose proof (pow2_inject k Hk) as E.
  apply Qle_trans with (inject_Z (2 ^ k)); [lra|].
  rewrite <- Zle_Qle. rewrite <- (round_half_even_Z (2 ^ k)) at 1.
  apply round_half_even_mono. lra.
Qed.

(** *** Rounding to the nearest double *)

Lemma ulp_exponent_mono (x y : Q) : 0 < x -> x <= y -> (ulp_exponent x <= ulp_exponent y)%Z.
Proof. intros Hx Hxy. unfold ulp_exponent. pose proof (binade_mono x y Hx Hxy). lia. Qed.

Lemma nearest_double_nonneg (x : Q) : 0 <= x -> 0 <= nearest_double x.
Proof.
  intros Hx. unfold nearest_double. set (e := ulp_exponent x).
  pose proof (pow2_pos e) as He.
  apply Qmult_le_0_compat; [|lra].
  change 0 with (inject_Z 0). rewrite <- Zle_Qle.
  rewrite <- (round_half_even_Z 0). apply round_half_even_mono.
  change (inject_Z 0) with 0. apply Qle_shift_div_l; [exact He | lra].
Qed.

Lemma nearest_double_zero (x : Q) : x == 0 -> nearest_double x == 0.
Proof.
  intros Hx. unfold nearest_double. set (e := ulp_exponent x).
  assert (E : round_half_even (x / 2 ^ e) = 0%Z).
  { rewrite <- (round_half_even_Z 0). apply round_half_even_comp. rewrite Hx.
    change (inject_Z 0) with 0. unfold Qdiv. apply Qmult_0_l. }
  rewrite E. apply Qmult_0_l.
Qed.

Lemma nearest_double_mono (x y : Q) : 0 <= x -> x <= y -> nearest_double x <= nearest_double y.
Proof.
  intros Hx Hxy.
  destruct (Qeq_dec x 0) as [Hz|Hnz].
  { rewrite (nearest_double_zero x Hz). apply nearest_double_nonneg. lra. }
  assert (Hx' : 0 < x) by (destruct (Qlt_le_dec 0 x) as [H|H]; [exact H|]; exfalso; apply Hnz; lra).
  pose proof (ulp_exponent_mono x y Hx' Hxy) as He.
  unfold nearest_double.
  set (ex := ulp_exponent x) in *. set (ey := ulp_exponent y) in *.
  pose proof (pow2_pos ex) as Hpx. pose proof (pow2_pos ey) as Hpy.
  destruct (Z.eq_dec ex ey) as [E|E].
  - rewrite <- E. apply Qmult_le_compat_r; [|lra].
    rewrite <- Zle_Qle. apply round_half_even_mono.
    apply Qmult_le_compat_r; [exact Hxy|].
    apply Qlt_le_weak, Qinv_lt_0_compat, Hpx.
  - assert (Hlt : (ex < ey)%Z) by lia.
    (* y lies in a normal binade starting at 2^(ey+52), above x *)
    assert (Hby : binade y = (ey + 52)%Z) by (unfold ey, ex, ulp_exponent in *; lia).
    assert (Hbx : (binade x < ey + 52)%Z) by (unfold ey, ex, ulp_exponent in *; lia).
    destruct (binade_spec x Hx') as [_ Hx2].
    destruct (binade_spec y) as [Hy1 _]; [lra|]. rewrite Hby in Hy1.
    assert (Hxb : x <= 2 ^ (ey + 52)).
    { apply Qle_trans with (2 ^ (binade x + 1)); [lra|]. apply pow2_le. lia. }
    apply Qle_trans with (2 ^ (ey + 52)).
    + (* the left side *)
      replace (ey + 52)%Z with ((ey + 52 - ex) + ex)%Z by lia. rewrite pow2_add.
      apply Qmult_le_compat_r; [|lra].
      apply round_half_even_le_pow2; [lia|].
      apply Qle_shift_div_r; [exact Hpx|]. rewrite <- pow2_add.
      replace (ey + 52 - ex + ex)%Z with (ey + 52)%Z by lia. exact Hxb.
    + replace (ey + 52)%Z with (52 + ey)%Z by lia. rewrite pow2_add.
      apply Qmult_le_compat_r; [|lra].
      apply round_half_even_ge_pow2; [lia|].
      apply Qle_shift_div_l; [exact Hpy|]. rewrite <- pow2_add.
      replace (52 + ey)%Z with (ey + 52)%Z by lia. exact Hy1.
Qed.

Lemma binary64_comp (x y : Q) : x == y -> binary64 x = binary64 y.
Proof. intros H. unfold binary64. rewrite (Qred_complete x y H). reflexivity. Qed.

Lemma binary64_mono (x y : Q) : x <= y -> binary64 x <= binary64 y.
Proof.
  intros Hxy. unfold binary64.
  pose proof (Qred_correct x) as Hx. pose proof (Qred_correct y) as Hy.
  set (x' := Qred x) in *. set (y' := Qred y) in *.
  assert (H : x' <= y') by lra. clearbody x' y'.
  destruct (Qlt_le_dec x' 0) as [Nx|Px]; destruct (Qlt_le_dec y' 0) as [Ny|Py].
  - assert (nearest_double (- y') <= nearest_double (- x')) by (apply nearest_double_mono; lra). lra.
  - pose proof (nearest_double_nonneg (- x')). pose proof (nearest_double_nonneg y'). lra.
  - lra.
  - apply nearest_double_mono; lra.
Qed.

Lemma binary64_nonneg (x : Q) : 0 <= x -> 0 <= binary64 x.
Proof.
  intros H. apply Qle_trans with (binary64 0); [vm_compute; discriminate|].
  apply binary64_mono, H.
Qed.

(** Half a grid step at most lies between a number and its double. *)
Lemma nearest_double_near (x : Q) :
  x - 2 ^ (ulp_exponent x - 1) <= nearest_double x <= x + 2 ^ (ulp_exponent x - 1).
Proof.
  unfold nearest_double. set (e := ulp_exponent x).
  pose proof (pow2_pos e) as He.
  pose proof (round_half_even_near (x / 2 ^ e)) as [H1 H2].
  set (m := inject_Z (round_half_even (x / 2 ^ e))) in *.
  assert (Hh : 2 ^ (e - 1) == 2 ^ e * (1 # 2)).
  { replace (e - 1)%Z with (e + -1)%Z by lia. rewrite pow2_add. reflexivity. }
  assert (Hx : x == x / 2 ^ e * 2 ^ e) by (field; lra).
  rewrite Hh. split.
  - apply Qle_trans with ((x / 2 ^ e - (1 # 2)) * 2 ^ e); [rewrite Hx at 1; lra|].
    apply Qmult_le_compat_r; lra.
  - apply Qle_trans with ((x / 2 ^ e + (1 # 2)) * 2 ^ e); [|rewrite Hx at 2; lra].
    apply Qmult_le_compat_r; lra.
Qed.

(** Between 0 and 1 a number and its double differ by [2^-53] at most. *)
Lemma binary64_near_unit (x : Q) :
  0 <= x <= 1 -> x - 2 ^ (-53) <= binary64 x <= x + 2 ^ (-53).
Proof.
  intros [H0 H1]. unfold binary64.
  pose proof (Qred_correct x) as Hr. set (x' := Qred x) in *. clearbody x'.
  destruct (Qlt_le_dec x' 0) as [Hn|_]; [lra|].
  destruct (Qeq_dec x' 0) as [Hz|Hnz].
  { rewrite (nearest_double_zero x' Hz). pose proof (pow2_pos (-53)). lra. }
  assert (Hp : 0 < x') by (destruct (Qlt_le_dec 0 x') as [H|H]; [exact H|]; exfalso; apply Hnz; lra).
  destruct (binade_spec x' Hp) as [Hb _].
  assert (Hlt : 2 ^ binade x' < 2 ^ 1) by (change (2 ^ 1) with 2; lra).
  apply pow2_lt_inv in Hlt.
  pose proof (nearest_double_near x') as [N1 N2].
  assert (Hu : 2 ^ (ulp_exponent x' - 1) <= 2 ^ (-53)).
  { apply pow2_le. unfold ulp_exponent. lia. }
  lra.
Qed.

Lemma binary64_one : binary64 1 == 1.
Proof. vm_compute. reflexivity. Qed.

Lemma binary64_zero : binary64 0 == 0.
Proof. vm_compute. reflexivity. Qed.

Lemma binary64_le_1 (x : Q) : x <= 1 -> binary64 x <= 1.
Proof. intros H. rewrite <- binary64_one. apply binary64_mono, H. Qed.

Lemma binary64_ge_1 (x : Q) : 1 <= x -> 1 <= binary64 x.
Proof. intros H. rewrite <- binary64_one at 1. apply binary64_mono, H. Qed.
End DoubleFacts.

(** ** Title auto-fit *)

Section AutoFitFacts.
Local Open Scope Q_scope.

Lemma Number_toFixed_mono d x y :
  0 <= x -> x <= y -> Number_toFixed d x <= Number_toFixed d y.
Proof. intros Hx Hxy. apply binary64_mono, toFixed_mono; assumption. Qed.

Lemma Number_toFixed_ge_0 d x : 0 <= x -> 0 <= Number_toFixed d x.
Proof. intros Hx. apply binary64_nonneg, toFixed_ge_0, Hx. Qed.

Lemma Number_toFixed_4_one : Number_toFixed 4 1 == 1.
Proof. vm_compute. reflexivity. Qed.

Lemma inject_Z_pos (z : Z) : (0 < z)%Z -> 0 < inject_Z z.
Proof. intros H. change 0 with (inject_Z 0). rewrite <- Zlt_Qlt. exact H. Qed.

Lemma inject_Z_ge_1 (z : Z) : (0 < z)%Z -> 1 <= inject_Z z.
Proof. intros H. change 1 with (inject_Z 1). rewrite <- Zle_Qle. lia. Qed.

Lemma nextScale_range (a n : Z) (scale : Q) :
  (0 < a)%Z -> 0 <= nextScale a n scale <= 1.
Proof.
  intros Ha. unfold nextScale. split; [|apply Q.le_min_l].
  apply Q.min_glb; [discriminate|]. apply binary64_nonneg.
  assert (Hd : 1 <= Qmax (unscaledNeededWidth n scale) 1) by apply Q.le_max_r.
  pose proof (inject_Z_pos a Ha).
  apply Qle_shift_div_l; lra.
Qed.

Lemma nextScale_mono (a1 a2 n : Z) (scale : Q) :
  (a1 <= a2)%Z -> nextScale a1 n scale <= nextScale a2 n scale.
Proof.
  intros Ha. unfold nextScale.
  assert (Hd : 1 <= Qmax (unscaledNeededWidth n scale) 1) by apply Q.le_max_r.
  apply Q.min_le_compat_l, binary64_mono. apply Qmult_le_compat_r.
  - rewrite <- Zle_Qle. exact Ha.
  - apply Qlt_le_weak, Qinv_lt_0_compat. lra.
Qed.

(** The content width of a 32-bit measurement at the smallest scale. *)
Lemma unscaledNeededWidth_bound (n : Z) (scale : Q) :
  (0 < n < 2 ^ 31)%Z ->
  unscaledNeededWidth n scale <= binary64 (inject_Z (2 ^ 31) / binary64 (1 # 10000)).
Proof.
  intros [Hn Hb]. unfold unscaledNeededWidth. apply binary64_mono.
  assert (Hc : 0 < binary64 (1 # 10000)) by (vm_compute; reflexivity).
  set (c := binary64 (1 # 10000)) in *.
  assert (Hm : c <= Qmax scale c) by apply Q.le_max_r.
  assert (Hn' : 0 < inject_Z n) by (apply inject_Z_pos, Hn).
  assert (Hb' : inject_Z n <= inject_Z (2 ^ 31)) by (rewrite <- Zle_Qle; lia).
  apply Qle_trans with (inject_Z n / c).
  - apply Qle_shift_div_l; [exact Hc|].
    assert (E : inject_Z n / Qmax scale c * c == inject_Z n * (c / Qmax scale c))
      by (field; lra).
    rewrite E. rewrite <- (Qmult_1_r (inject_Z n)) at 2.
    apply Qmult_le_l; [exact Hn'|]. apply Qle_shift_div_r; lra.
  - apply Qmult_le_compat_r; [exact Hb'|].
    apply Qlt_le_weak, Qinv_lt_0_compat, Hc.
Qed.

(** Between 32-bit widths the trial scale does not underflow. *)
Lemma nextScale_pos (a n : Z) (scale : Q) :
  (0 < a)%Z -> (0 < n < 2 ^ 31)%Z -> 0 < nextScale a n scale.
Proof.
  intros Ha Hn. unfold nextScale.
  pose proof (unscaledNeededWidth_bound n scale Hn) as Hu.
  set (u := unscaledNeededWidth n scale) in *.
  set (K := binary64 (inject_Z (2 ^ 31) / binary64 (1 # 10000))) in *.
  assert (HK : 1 <= K) by (vm_compute; discriminate).
  assert (Hd : 1 <= Qmax u 1) by apply Q.le_max_r.
  assert (HdK : Qmax u 1 <= K) by (apply Q.max_lub; assumption).
  pose proof (inject_Z_ge_1 a Ha) as Ha1.
  apply Q.min_glb_lt; [reflexivity|].
  apply Qlt_le_trans with (binary64 (1 / K)); [vm_compute; reflexivity|].
  apply binary64_mono.
  apply Qle_shift_div_l; [lra|].
  apply Qle_trans with (1 / K * K); [|field_simplify; lra].
  apply Qmult_le_l; [|exact HdK].
  apply Qlt_shift_div_l; lra.
Qed.

Lemma fitScale_measured (a n : Z) (scale : Q) :
  (0 < a)%Z -> (0 < n < 2 ^ 31)%Z ->
  fitScale true (Some (a, n)) scale = Number_toFixed 4 (nextScale a n scale).
Proof.
  intros Ha Hn. unfold fitScale. simpl.
  destruct (Z.leb_spec a 0); [lia|]. destruct (Z.leb_spec n 0); [lia|].
  fold (unscaledNeededWidth n scale). fold (nextScale a n scale).
  destruct (Qlt_le_dec 0 (nextScale a n scale)) as [_|Hle]; [reflexivity|].
  pose proof (nextScale_pos a n scale Ha Hn). lra.
Qed.

(** C6 (as stated): a long title in a one-pixel container gets the scale
    0, outside the interval; shrinking the container from 50 to 0 pixels
    raises the scale from 0.5 to 1; and with a maximum of 4.06 mm the
    reported size is 4.1 mm. *)
Lemma fitScale_claim_fails :
  fitScale true (Some (1, 20001)%Z) 1 == 0 /\
  fitScale true (Some (50, 100)%Z) 1 < fitScale true (Some (0, 100)%Z) 1 /\
  binary64 4.06 < effectiveSizeMm true (binary64 4.06) 1.
Proof. vm_compute. repeat split. Qed.

(** C6 (amended): for a positive available width and a positive content
    width, 32-bit integers as the DOM reports them, the stored scale lies
    in [0, 1] and is positive whenever the trial scale, as the doubles
    give it, is at least 0.00005; for fixed content and current scale it
    does not increase when the available width shrinks to another
    positive width; and the reported size, the maximum times the scale
    rounded to 0.1 mm, never exceeds the maximum rounded to 0.1 mm,
    hence never the maximum itself when that is a number of one
    decimal, which the rounding to 0.1 mm gives back. *)
Theorem fitScale_bounds (availableWidth neededWidth : Z) (scale maxTextSizeMm : Q) :
  (0 < availableWidth)%Z -> (0 < neededWidth < 2 ^ 31)%Z ->
  let scale' := fitScale true (Some (availableWidth, neededWidth)) scale in
  0 <= scale' <= 1 /\
  (1 # 20000 <= nextScale availableWidth neededWidth scale -> 0 < scale') /\
  (forall smaller : Z, (0 < smaller <= availableWidth)%Z ->
     fitScale true (Some (smaller, neededWidth)) scale <= scale') /\
  (0 <= maxTextSizeMm -> binary64 maxTextSizeMm == maxTextSizeMm ->
     effectiveSizeMm true maxTextSizeMm scale'
     <= effectiveSizeMm false maxTextSizeMm scale') /\
  (0 <= maxTextSizeMm -> binary64 maxTextSizeMm == maxTextSizeMm ->
   effectiveSizeMm false maxTextSizeMm scale' == maxTextSizeMm ->
     effectiveSizeMm true maxTextSizeMm scale' <= maxTextSizeMm).
Proof.
  intros Ha Hn scale'. subst scale'. rewrite (fitScale_measured _ _ _ Ha Hn).
  pose proof (nextScale_range availableWidth neededWidth scale Ha) as [Hpos Hle1].
  set (x := nextScale availableWidth neededWidth scale) in *.
  assert (Hr : 0 <= Number_toFixed 4 x <= 1).
  { split; [apply Number_toFixed_ge_0; exact Hpos|].
    rewrite <- Number_toFixed_4_one. apply Number_toFixed_mono; assumption. }
  assert (Heff : 0 <= maxTextSizeMm -> binary64 maxTextSizeMm == maxTextSizeMm ->
            effectiveSizeMm true maxTextSizeMm (Number_toFixed 4 x)
            <= effectiveSizeMm false maxTextSizeMm (Number_toFixed 4 x)).
  { intros Hm Hd. unfold effectiveSizeMm. apply Number_toFixed_mono.
    - apply binary64_nonneg, Qmult_le_0_compat; lra.
    - rewrite <- Hd at 2. apply binary64_mono.
      rewrite <- (Qmult_1_r maxTextSizeMm) at 2.
      rewrite !(Qmult_comm maxTextSizeMm). apply Qmult_le_compat_r; lra. }
  split; [exact Hr|]. split; [|split; [|split]].
  - intros Hx. apply Qlt_le_trans with (Number_toFixed 4 (1 # 20000));
      [vm_compute; reflexivity|].
    apply Number_toFixed_mono; [discriminate | exact Hx].
  - intros smaller [Hs Hle]. rewrite (fitScale_measured _ _ _ Hs Hn).
    pose proof (nextScale_range smaller neededWidth scale Hs) as [Hspos _].
    apply Number_toFixed_mono; [exact Hspos|]. apply nextScale_mono. exact Hle.
  - exact Heff.
  - intros Hm Hd Hg. rewrite <- Hg at 2. exact (Heff Hm Hd).
Qed.

Lemma fitScale_bounds_witness :
  let scale' := fitScale true (Some (101, 160)%Z) 1 in
  0 <= scale' <= 1 /\ 0 < scale' /\
  fitScale true (Some (25, 160)%Z) 1 <= scale' /\
  effectiveSizeMm true (binary64 4.1) scale' <= binary64 4.1.
Proof.
  destruct (fitScale_bounds 101 160 1 (binary64 4.1)) as [H1 [H2 [H3 [_ H5]]]];
    [lia | lia |].
  cbv zeta. split; [exact H1|]. split; [apply H2; vm_compute; discriminate|].
  split; [apply H3; lia|].
  apply H5; vm_compute; (reflexivity || discriminate).
Defined.
End AutoFitFacts.

(** ** Preset store *)

Section PresetDialogFacts.
Variable defaultPresetName : jstring.
Variable uuids : nat -> jstring.

Local Abbreviation viewD := (view uuids).
Local Abbreviation renderD := (render defaultPresetName uuids).
Local Abbreviation handleD := (handle defaultPresetName uuids).
Local Abbreviation settleD := (settle defaultPresetName uuids).
Local Abbreviation stepD := (step defaultPresetName uuids).
Local Abbreviation runD := (run defaultPresetName uuids).

Lemma render_settings d : settings (renderD d).2 = settings d.
Proof.
  unfold render. destruct (currentPresets (viewD d)) as [[|first others]|];
    try reflexivity.
  destruct (parsePresetValue (selectedPresetState d)) as [[[] i]|]; try reflexivity.
  - destruct (find_preset i (first :: others)); reflexivity.
  - destruct (find_preset i (otherPresets (viewD d))); reflexivity.
Qed.

Lemma promote_settings presets p d :
  settings (promotePresetToCurrentType uuids presets p d) = settings d.
Proof. reflexivity. Qed.

Lemma updateCurrentPreset_settings v selected p d :
  settings (updateCurrentPreset uuids v selected p d) = settings d.
Proof.
  unfold updateCurrentPreset. destruct (currentPresets v); [|reflexivity].
  destruct (parsePresetValue selected) as [[[] i]|]; try reflexivity.
  destruct (existsb _ _); reflexivity.
Qed.

Lemma handle_foreign ev d : foreign_presets (handleD ev d) = foreign_presets d.
Proof.
  unfold foreign_presets, handle.
  pose proof (render_settings d) as Hr.
  destruct (renderD d) as [curPreset d1]. simpl in Hr.
  destruct ev as [e|value| | | |].
  - rewrite updateCurrentPreset_settings, Hr. reflexivity.
  - destruct (parsePresetValue (Some value)); simpl; rewrite Hr; reflexivity.
  - destruct (currentPresets (viewD d)); simpl; rewrite Hr; reflexivity.
  - destruct (currentPresets (viewD d)); simpl; rewrite Hr; reflexivity.
  - destruct (currentPresets (viewD d)); [|rewrite Hr; reflexivity].
    destruct (parsePresetValue (selectedPresetState d)) as [[[] i]|]; simpl;
      rewrite Hr; reflexivity.
  - destruct (localCurrentPresets d); simpl; [|rewrite Hr; reflexivity].
    rewrite lookup_insert_ne by discriminate. rewrite Hr. reflexivity.
Qed.

Lemma settle_settings fuel d settled :
  settleD fuel d = Some settled -> settings settled = settings d.
Proof.
  revert d. induction fuel as [|fuel IH]; intros d; simpl;
    destruct (render_sets uuids d); try discriminate; try (intros [= <-]; reflexivity).
  intros H. rewrite (IH _ H). apply render_settings.
Qed.

(** A render that calls no setter is kept. *)
Lemma step_kept ev d : render_sets uuids d = false -> stepD ev d = handleD ev d.
Proof. intros H. unfold step, settle. rewrite H. reflexivity. Qed.

Lemma step_foreign ev d : foreign_presets (stepD ev d) = foreign_presets d.
Proof.
  unfold step. destruct (settleD 25 d) as [settled|] eqn:E; [|reflexivity].
  rewrite handle_foreign. unfold foreign_presets.
  rewrite (settle_settings _ _ _ E). reflexivity.
Qed.

Lemma run_foreign evs d : foreign_presets (runD evs d) = foreign_presets d.
Proof.
  revert d. induction evs as [|ev evs IH]; intros d; [reflexivity|].
  unfold run in *. simpl. rewrite IH. apply step_foreign.
Qed.

Lemma with_id_id u p : preset_id (with_id u p) = u.
Proof. destruct p as [t1 t2 t3 [a b c d0 e g h i j k m n o p q r s []]]. reflexivity. Qed.

Lemma promote_then_edit u e p :
  with_id u (apply_edit e p) = apply_edit (edit_on_promoted u e) (with_id u p).
Proof.
  destruct p as [t1 t2 t3 [a b c d0 e0 g h i j k m n o p q r s []]].
  destruct e as [v|v|v|v|[a' b' c' d' e' g' h' i' j' k' m' n' o' p' q' r' s' []]]; reflexivity.
Qed.

Lemma fill_ids_with_ids presets n :
  Forall (fun p => preset_id p <> []) presets -> fill_ids uuids presets n = (presets, n).
Proof.
  induction 1 as [|p rest Hp _ IH]; simpl; [reflexivity|].
  destruct (preset_id p); [contradiction|]. rewrite IH. reflexivity.
Qed.

(** What a render reads as the other type's presets is a function of the
    stored list when every stored preset has an id. *)
Lemma otherPresets_stored d :
  (forall stored, foreign_presets d = Some stored ->
     Forall (fun p => preset_id p <> []) stored) ->
  otherPresets (viewD d) = default [] (foreign_presets d).
Proof.
  intros Hids. unfold view, useGetPrintSettings, foreign_presets in *.
  destruct (settings d !! str "image_presets") as [spools|].
  - destruct (fill_ids uuids spools (drawn d)) as [l n1].
    destruct (settings d !! str "image_presets_filament") as [stored|]; [|reflexivity].
    rewrite (fill_ids_with_ids stored n1 (Hids stored eq_refl)). reflexivity.
  - destruct (settings d !! str "image_presets_filament") as [stored|]; [|reflexivity].
    rewrite (fill_ids_with_ids stored _ (Hids stored eq_refl)). reflexivity.
Qed.

Lemma find_preset_Some i presets p :
  find_preset i presets = Some p -> p ∈ presets /\ preset_id p = i.
Proof.
  unfold find_preset. destruct (list_find _ presets) as [[n q]|] eqn:E; [|discriminate].
  simpl. intros [= <-]. apply list_find_Some in E as [Hn [Hq _]].
  split; [exact (list_elem_of_lookup_2 _ _ _ Hn) | exact Hq].
Qed.

Lemma parse_promoted_selection u :
  u <> [] -> parsePresetValue (Some (toPresetValue spool u)) = Some (spool, u).
Proof. intros Hu. destruct u as [|c u]; [contradiction | reflexivity]. Qed.

(** C8: when the selection points at a preset of the other resource
    type, an edit appends to the current list a copy of that preset that
    carries the next generated UUID and the edit (the same preset as
    promoting first and editing the promoted copy), selects it under the
    current type, draws exactly one UUID for it, and leaves the other
    type's stored list as it was; no later action of the dialog changes
    that list either, nor, when its presets carry ids, what a later
    render reads as the other type's presets.  When the UUID is new among
    the ids in sight, the promoted preset shares its id with no preset of
    either list. *)
Theorem edit_cross_type_promotes (d : Dialog) (e : Edit) (cur : list Preset)
    (imported : Preset) (fid : jstring) :
  currentPresets (viewD d) = Some cur ->
  cur <> [] ->
  parsePresetValue (selectedPresetState d) = Some (filament, fid) ->
  find_preset fid (otherPresets (viewD d)) = Some imported ->
  let u := uuids (drawn_after (viewD d)) in
  let d' := stepD (EvEdit e) d in
  localCurrentPresets d' = Some (cur ++ [with_id u (apply_edit e imported)]) /\
  with_id u (apply_edit e imported) = apply_edit (edit_on_promoted u e) (with_id u imported) /\
  preset_id (with_id u (apply_edit e imported)) = u /\
  selectedPresetState d' = Some (toPresetValue spool u) /\
  drawn d' = S (drawn_after (viewD d)) /\
  (u <> [] -> parsePresetValue (selectedPresetState d') = Some (spool, u)) /\
  ((forall p, p ∈ cur ++ otherPresets (viewD d) -> preset_id p <> u) ->
     u <> fid /\ Forall (fun p => preset_id p <> u) cur) /\
  foreign_presets d' = foreign_presets d /\
  (forall evs,
     foreign_presets (runD evs d') = foreign_presets d /\
     ((forall stored, foreign_presets d = Some stored ->
         Forall (fun p => preset_id p <> []) stored) ->
      otherPresets (viewD (runD evs d')) = otherPresets (viewD d))).
Proof.
  intros Hcur Hne Hsel Hfind u d'.
  assert (Hd' : d' = mkDialog (Some (toPresetValue spool u))
                       (Some (cur ++ [with_id u (apply_edit e imported)]))
                       (settings d) (S (drawn_after (viewD d)))).
  { subst d'. rewrite step_kept.
    2:{ unfold render_sets. rewrite Hcur. destruct cur; [contradiction|].
        rewrite Hsel, Hfind. reflexivity. }
    unfold handle, render.
    rewrite Hcur. destruct cur as [|first others]; [contradiction|].
    rewrite Hsel, Hfind. unfold updateCurrentPreset. rewrite Hcur, Hsel.
    unfold promotePresetToCurrentType. simpl. fold u.
    rewrite with_id_id. reflexivity. }
  split; [rewrite Hd'; reflexivity|].
  split; [apply promote_then_edit|].
  split; [apply with_id_id|].
  split; [rewrite Hd'; reflexivity|].
  split; [rewrite Hd'; reflexivity|].
  split; [intros Hu; rewrite Hd'; apply parse_promoted_selection, Hu|].
  split.
  { intros Hfresh. apply find_preset_Some in Hfind as [Hin Hid]. split.
    - intros E. apply (Hfresh imported); [apply elem_of_app; right; exact Hin | congruence].
    - apply Forall_forall. intros p Hp. apply Hfresh, elem_of_app. left. exact Hp. }
  split; [apply step_foreign|].
  intros evs.
  assert (Hrun : foreign_presets (runD evs d') = foreign_presets d)
    by (rewrite run_foreign; apply step_foreign).
  split; [exact Hrun|]. intros Hids.
  rewrite !otherPresets_stored; [rewrite Hrun; reflexivity | exact Hids |].
  rewrite Hrun. exact Hids.
Qed.
End PresetDialogFacts.

Lemma edit_cross_type_promotes_witness :
  let d' := step (str "Default") example_uuids
              (EvEdit (SetName (str "Small spool"))) example_dialog in
  localCurrentPresets d'
  = Some [example_preset "S1" "Default";
          with_name (str "Small spool") (example_preset "uuid-0" "Small")] /\
  selectedPresetState d' = Some (str "spool:uuid-0") /\
  foreign_presets d' = Some [example_preset "F1" "Small"].
Proof.
  destruct (edit_cross_type_promotes (str "Default") example_uuids example_dialog
              (SetName (str "Small spool")) [example_preset "S1" "Default"]
              (example_preset "F1" "Small") (str "F1"))
    as [H1 [_ [_ [H2 [_ [_ [_ [H3 _]]]]]]]].
  - vm_compute. reflexivity.
  - discriminate.
  - vm_compute. reflexivity.
  - vm_compute. reflexivity.
  - cbv zeta in *. split; [|split].
    + rewrite H1. vm_compute. reflexivity.
    + rewrite H2. vm_compute. reflexivity.
    + rewrite H3. vm_compute. reflexivity.
Defined.

(** ** The span pattern *)

Lemma brace_free_open c : is_brace c = false -> is_open c = false.
Proof. unfold is_brace. destruct (is_open c); [discriminate | reflexivity]. Qed.

Lemma brace_free_close c : is_brace c = false -> is_close c = false.
Proof. unfold is_brace. destruct (is_open c), (is_close c); try discriminate; reflexivity. Qed.

Lemma span_scan_skip nested x rest :
  brace_free x ->
  span_scan nested (x ++ rest)
  = match span_scan nested rest with
    | Some (m, r) => Some (x ++ m, r)
    | None => None
    end.
Proof.
  induction 1 as [|c x Hc _ IH]; simpl.
  - destruct (span_scan nested rest) as [[m r]|]; reflexivity.
  - rewrite (brace_free_close _ Hc), (brace_free_open _ Hc), IH.
    destruct (span_scan nested rest) as [[m r]|]; reflexivity.
Qed.

Lemma span_scan_block_body p t s rest :
  brace_free p -> brace_free t -> brace_free s ->
  span_scan false (p ++ "{"%char :: t ++ "}"%char :: s ++ "}"%char :: rest)
  = Some (p ++ "{"%char :: t ++ "}"%char :: s ++ ["}"%char], rest).
Proof.
  intros Hp Ht Hs. rewrite (span_scan_skip _ _ _ Hp). simpl.
  rewrite (span_scan_skip _ _ _ Ht). simpl.
  rewrite (span_scan_skip _ _ _ Hs). simpl. reflexivity.
Qed.

Lemma span_scan_tag_body t rest :
  brace_free t ->
  span_scan false (t ++ "}"%char :: rest) = Some (t ++ ["}"%char], rest).
Proof. intros Ht. rewrite (span_scan_skip _ _ _ Ht). reflexivity. Qed.

(** *** The backtracking matcher and the scanner agree *)

Lemma open_not_close c : is_open c = true -> is_close c = false.
Proof.
  unfold is_open, is_close, ascii_eqb. intros H. apply Ascii.eqb_eq in H. subst c. reflexivity.
Qed.

Lemma non_brace_false_iff c : non_brace c = false <-> is_open c = true \/ is_close c = true.
Proof.
  unfold non_brace, is_brace. destruct (is_open c), (is_close c); simpl; intuition discriminate.
Qed.

Lemma after_inner_shorter s r : after_inner s = Some r -> length r < length s.
Proof.
  revert r. induction s as [|c s IH]; intros r; simpl; [discriminate|].
  destruct (is_close c); [intros [= <-]; lia|].
  destruct (is_open c); [discriminate|]. intros H. apply IH in H. lia.
Qed.

Lemma span_scan_nested s :
  snd <$> span_scan true s
  = match after_inner s with
    | Some r => snd <$> span_scan false r
    | None => None
    end.
Proof.
  induction s as [|c s IH]; simpl; [reflexivity|].
  destruct (is_close c).
  - destruct (span_scan false s) as [[m r]|]; reflexivity.
  - destruct (is_open c); [reflexivity|].
    rewrite <- IH. destruct (span_scan true s) as [[m r]|]; reflexivity.
Qed.

Lemma backtrack_Chr_cons {A : Type} p c s (k : jstring -> option A) :
  backtrack (Chr p) (c :: s) k = if p c then k s else None.
Proof. reflexivity. Qed.

Lemma backtrack_Cat {A : Type} r1 r2 s (k : jstring -> option A) :
  backtrack (Cat r1 r2) s k = backtrack r1 s (fun s' => backtrack r2 s' k).
Proof. reflexivity. Qed.

Lemma backtrack_Alt {A : Type} r1 r2 s (k : jstring -> option A) :
  backtrack (Alt r1 r2) s k
  = match backtrack r1 s k with Some x => Some x | None => backtrack r2 s k end.
Proof. reflexivity. Qed.

Lemma backtrack_Star {A : Type} r s (k : jstring -> option A) :
  backtrack (Star r) s k = star_iter (backtrack r) k (length s) s.
Proof. reflexivity. Qed.

Lemma star_iter_S {A : Type} (m : jstring -> (jstring -> option A) -> option A) k n s :
  star_iter m k (S n) s
  = match m s (fun s' => if (length s' <? length s)%nat then star_iter m k n s' else None) with
    | Some r => Some r
    | None => k s
    end.
Proof. reflexivity. Qed.

(** The inner star, over non-brace units, followed by a closing brace. *)
Lemma star_non_brace {A : Type} (k : jstring -> option A) s :
  forall n, length s <= n ->
  star_iter (backtrack (Chr non_brace)) (fun s0 => backtrack (Chr is_close) s0 k) n s
  = match after_inner s with
    | Some r => k r
    | None => None
    end.
Proof.
  induction s as [|c s IH]; intros n Hn.
  - destruct n; reflexivity.
  - destruct n as [|n]; [simpl in Hn; lia|].
    rewrite star_iter_S, !backtrack_Chr_cons. cbn [after_inner].
    destruct (non_brace c) eqn:Hc.
    + assert (Hb : is_brace c = false) by (unfold non_brace in Hc; destruct (is_brace c); [discriminate | reflexivity]).
      rewrite (brace_free_close _ Hb), (brace_free_open _ Hb).
      assert (Hl : (length s <? length (c :: s))%nat = true) by (apply Nat.ltb_lt; simpl; lia).
      rewrite Hl, IH by (simpl in Hn; lia).
      destruct (after_inner s) as [r|]; [destruct (k r)|]; reflexivity.
    + apply non_brace_false_iff in Hc as [Ho|Hcl].
      * rewrite (open_not_close _ Ho), Ho. reflexivity.
      * rewrite Hcl. reflexivity.
Qed.

(** The outer star, over items, followed by the closing brace. *)
Lemma star_items n :
  forall s, length s <= n ->
  star_iter
    (backtrack (Alt (Chr non_brace)
                    (Cat (Chr is_open) (Cat (Star (Chr non_brace)) (Chr is_close)))))
    (fun s0 => backtrack (Chr is_close) s0 Some) n s
  = snd <$> span_scan false s.
Proof.
  induction n as [|n IH]; intros s Hn.
  - destruct s; [reflexivity | simpl in Hn; lia].
  - destruct s as [|c s]; [reflexivity|].
    rewrite star_iter_S, backtrack_Alt, backtrack_Cat, !backtrack_Chr_cons.
    rewrite backtrack_Cat, backtrack_Star. cbn [span_scan].
    destruct (non_brace c) eqn:Hc.
    + assert (Hb : is_brace c = false) by (unfold non_brace in Hc; destruct (is_brace c); [discriminate | reflexivity]).
      rewrite (brace_free_close _ Hb), (brace_free_open _ Hb).
      assert (Hl : (length s <? length (c :: s))%nat = true) by (apply Nat.ltb_lt; simpl; lia).
      rewrite Hl, IH by (simpl in Hn; lia).
      destruct (span_scan false s) as [[m r]|]; reflexivity.
    + apply non_brace_false_iff in Hc as [Ho|Hcl].
      * rewrite (open_not_close _ Ho), Ho.
        rewrite (star_non_brace _ s (length s) (Nat.le_refl _)).
        pose proof (span_scan_nested s) as Hnest.
        destruct (after_inner s) as [r|] eqn:Ea.
        -- pose proof (after_inner_shorter _ _ Ea) as Hlen.
           assert (Hl : (length r <? length (c :: s))%nat = true)
             by (apply Nat.ltb_lt; simpl; lia).
           rewrite Hl, IH by (simpl in Hn; lia).
           destruct (span_scan true s) as [[m r']|]; simpl in Hnest; rewrite <- Hnest; reflexivity.
        -- destruct (span_scan true s) as [[m r']|]; [discriminate Hnest | reflexivity].
      * rewrite Hcl.
        assert (Ho : is_open c = false).
        { destruct (is_open c) eqn:E; [|reflexivity].
          apply open_not_close in E. congruence. }
        rewrite Ho. reflexivity.
Qed.

(** The span pattern at the start of a text: the scanner finds what the
    backtracking matcher finds. *)
Lemma span_exec_scan c r :
  span_exec (c :: r) = if is_open c then snd <$> span_scan false r else None.
Proof.
  unfold span_exec, span_regex. rewrite backtrack_Cat, backtrack_Chr_cons.
  destruct (is_open c); [|reflexivity].
  rewrite backtrack_Cat, backtrack_Star.
  exact (star_items (length r) r (Nat.le_refl _)).
Qed.

Lemma span_scan_split nested s m rest :
  span_scan nested s = Some (m, rest) -> s = m ++ rest.
Proof.
  revert nested m rest. induction s as [|c s IH]; intros nested m rest; simpl; [discriminate|].
  destruct (is_close c).
  - destruct nested.
    + destruct (span_scan false s) as [[m' r']|] eqn:E; [|discriminate].
      intros [= <- <-]. simpl. f_equal. exact (IH _ _ _ E).
    + intros [= <- <-]. reflexivity.
  - destruct (is_open c).
    + destruct nested; [discriminate|].
      destruct (span_scan true s) as [[m' r']|] eqn:E; [|discriminate].
      intros [= <- <-]. simpl. f_equal. exact (IH _ _ _ E).
    + destruct (span_scan nested s) as [[m' r']|] eqn:E; [|discriminate].
      intros [= <- <-]. simpl. f_equal. exact (IH _ _ _ E).
Qed.

(** [matchAll] in terms of the scanner. *)
Lemma matchAll_from_cons c r :
  matchAll_from 0 (c :: r)
  = if is_open c then
      match span_scan false r with
      | Some (m, _) => (c :: m) :: matchAll_from (length m) r
      | None => matchAll_from 0 r
      end
    else matchAll_from 0 r.
Proof.
  cbn [matchAll_from]. rewrite span_exec_scan.
  destruct (is_open c); [|reflexivity].
  destruct (span_scan false r) as [[m rest]|] eqn:E; [|reflexivity].
  apply span_scan_split in E. subst r. cbn [fmap option_fmap option_map snd].
  assert (Hlen : length (c :: m ++ rest) - length rest = S (length m))
    by (simpl; rewrite length_app; lia).
  rewrite Hlen. cbn [take]. rewrite take_app_length.
  replace (length (c :: m) - 1) with (length m) by (simpl; lia). reflexivity.
Qed.

Lemma matchAll_from_skip m rest : matchAll_from (length m) (m ++ rest) = matchAll_from 0 rest.
Proof. induction m as [|c m IH]; simpl; [reflexivity | exact IH]. Qed.

Lemma matchAll_open_free pre rest :
  open_free pre -> matchAll_from 0 (pre ++ rest) = matchAll_from 0 rest.
Proof.
  induction 1 as [|c pre Hc _ IH]; [reflexivity|].
  simpl app. rewrite matchAll_from_cons, Hc. exact IH.
Qed.

Lemma matchAll_at_match m rest :
  span_scan false (m ++ rest) = Some (m, rest) ->
  matchAll_from 0 ("{"%char :: m ++ rest) = ("{"%char :: m) :: matchAll_from 0 rest.
Proof.
  intros H. rewrite matchAll_from_cons. change (is_open "{"%char) with true. cbv iota.
  rewrite H, matchAll_from_skip. reflexivity.
Qed.

Lemma matchAll_block pre p t s post :
  open_free pre -> brace_free p -> brace_free t -> brace_free s ->
  matchAll (pre ++ block p t s ++ post) = block p t s :: matchAll post.
Proof.
  intros Hpre Hp Ht Hs. unfold matchAll. rewrite (matchAll_open_free _ _ Hpre).
  unfold block.
  change (("{"%char :: p ++ "{"%char :: t ++ "}"%char :: s ++ ["}"%char]) ++ post)
    with ("{"%char :: (p ++ "{"%char :: t ++ "}"%char :: s ++ ["}"%char]) ++ post).
  apply matchAll_at_match.
  repeat (rewrite <- app_assoc; simpl).
  apply span_scan_block_body; assumption.
Qed.

Lemma matchAll_nil s : open_free s -> matchAll s = [].
Proof.
  intros H. unfold matchAll. rewrite <- (app_nil_r s).
  rewrite (matchAll_open_free _ _ H). reflexivity.
Qed.

Lemma count_open_app a b : count_open (a ++ b) = count_open a + count_open b.
Proof. unfold count_open. rewrite filter_app, length_app. reflexivity. Qed.

Lemma count_open_brace_free s : brace_free s -> count_open s = 0.
Proof.
  unfold count_open. induction 1 as [|c s Hc _ IH]; [reflexivity|].
  rewrite filter_cons. rewrite (brace_free_open _ Hc).
  destruct (decide (false = true)); [discriminate | exact IH].
Qed.

Lemma count_open_block p t s :
  brace_free p -> brace_free t -> brace_free s -> count_open (block p t s) = 2.
Proof.
  intros Hp Ht Hs. unfold block.
  change ("{"%char :: p ++ "{"%char :: t ++ "}"%char :: s ++ ["}"%char])
    with (["{"%char] ++ p ++ ["{"%char] ++ t ++ ["}"%char] ++ s ++ ["}"%char]).
  rewrite !count_open_app, (count_open_brace_free _ Hp), (count_open_brace_free _ Ht),
    (count_open_brace_free _ Hs). reflexivity.
Qed.

(** ** The structure pattern *)

(** A lazy group runs over a text that the rest of the pattern rejects at
    every earlier cut and accepts at the end. *)
Lemma lazy_dots_run {A : Type} (x s acc : jstring) (k : jstring -> jstring -> option A) r :
  one_line x ->
  (forall x1 c x2, x = x1 ++ c :: x2 -> k (rev acc ++ x1) (c :: x2 ++ s) = None) ->
  k (rev acc ++ x) s = Some r ->
  lazy_dots (x ++ s) acc k = Some r.
Proof.
  intros Hx. revert acc. induction Hx as [|c x Hc _ IH]; intros acc Hrej Hacc.
  - simpl in *. rewrite app_nil_r in Hacc.
    destruct s; simpl; rewrite Hacc; reflexivity.
  - simpl. specialize (Hrej [] c x eq_refl) as Hr0. rewrite app_nil_r in Hr0.
    rewrite Hr0, Hc. apply IH.
    + intros x1 d x2 E. simpl. rewrite <- app_assoc. simpl.
      apply (Hrej (c :: x1) d x2). rewrite E. reflexivity.
    + simpl. rewrite <- app_assoc. exact Hacc.
Qed.

Lemma expect_other {A : Type} c d s (k : jstring -> option A) :
  ascii_eqb d c = false -> expect c (d :: s) k = None.
Proof. intros H. simpl. rewrite H. reflexivity. Qed.

Lemma structure_at_block p t s :
  brace_free p -> brace_free t -> brace_free s ->
  one_line p -> one_line t -> one_line s ->
  structure_at (block p t s) = Some (p, t, s).
Proof.
  intros Hp Ht Hs Lp Lt Ls. unfold structure_at, block. simpl expect at 1.
  apply (lazy_dots_run p _ []); [exact Lp | |].
  - intros x1 c x2 E. apply expect_other.
    assert (Hc : is_brace c = false).
    { unfold brace_free in Hp. rewrite E, Forall_app, Forall_cons in Hp. tauto. }
    exact (brace_free_open _ Hc).
  - simpl. apply (lazy_dots_run t _ []); [exact Lt | |].
    + intros x1 c x2 E. apply expect_other.
      assert (Hc : is_brace c = false).
      { unfold brace_free in Ht. rewrite E, Forall_app, Forall_cons in Ht. tauto. }
      exact (brace_free_close _ Hc).
    + simpl. apply (lazy_dots_run s _ []); [exact Ls | |].
      * intros x1 c x2 E. apply expect_other.
        assert (Hc : is_brace c = false).
        { unfold brace_free in Hs. rewrite E, Forall_app, Forall_cons in Hs. tauto. }
        exact (brace_free_close _ Hc).
      * reflexivity.
Qed.

Lemma structure_match_block p t s :
  brace_free p -> brace_free t -> brace_free s ->
  one_line p -> one_line t -> one_line s ->
  structure_match (block p t s) = Some (p, t, s).
Proof.
  intros Hp Ht Hs Lp Lt Ls.
  pose proof (structure_at_block p t s Hp Ht Hs Lp Lt Ls) as E.
  unfold block in *. cbn [structure_match]. rewrite E. reflexivity.
Qed.

(** ** Replacement *)

Lemma strip_prefix_app m rest : strip_prefix m (m ++ rest) = Some rest.
Proof.
  induction m as [|c m IH]; simpl; [reflexivity|].
  unfold ascii_eqb. rewrite Ascii.eqb_refl. exact IH.
Qed.

Lemma find_first_open_free pre m rest :
  open_free pre ->
  find_first ("{"%char :: m) (pre ++ "{"%char :: m ++ rest) = Some (pre, rest).
Proof.
  induction 1 as [|c pre Hc _ IH].
  - simpl app. unfold find_first; fold find_first.
    change ("{"%char :: m ++ rest) with (("{"%char :: m) ++ rest).
    rewrite strip_prefix_app. reflexivity.
  - simpl app. unfold find_first; fold find_first.
    assert (E : strip_prefix ("{"%char :: m) (c :: pre ++ "{"%char :: m ++ rest) = None).
    { cbn [strip_prefix].
      replace (ascii_eqb "{"%char c) with (is_open c); [rewrite Hc; reflexivity|].
      unfold is_open, ascii_eqb. apply Ascii.eqb_sym. }
    rewrite E, IH. reflexivity.
Qed.

Lemma expand_replacement_dollar_free matched before after repl :
  dollar_free repl -> expand_replacement matched before after repl = repl.
Proof.
  induction 1 as [|c r Hc _ IH]; simpl; [reflexivity|]. rewrite Hc, IH. reflexivity.
Qed.

Lemma js_replace_first_block pre p t s post repl :
  open_free pre ->
  js_replace (pre ++ block p t s ++ post) (block p t s) repl
  = pre ++ expand_replacement (block p t s) pre post repl ++ post.
Proof.
  intros Hpre. unfold js_replace, block. simpl app.
  rewrite (find_first_open_free pre _ post Hpre). reflexivity.
Qed.

(** ** Tag resolution *)

Section ResolutionFacts.
Variable JSON_parse : jstring -> option jsval.

Lemma getTagValue_extra tag fields1 fields2 extra :
  jstring_eqb (tag_head tag) (str "extra") = true ->
  getTagValue JSON_parse tag (mkObject fields1 extra)
  = getTagValue JSON_parse tag (mkObject fields2 extra).
Proof. intros H. unfold tag_head in H. cbn [getTagValue]. cbv zeta. rewrite H. reflexivity. Qed.

Lemma getTagValue_nil tag extra :
  jstring_eqb (tag_head tag) (str "extra") = false ->
  getTagValue JSON_parse tag (mkObject [] extra)
  = inherited_value (tag_head tag) (tag_rest tag).
Proof. intros H. unfold tag_head in H. cbn [getTagValue]. cbv zeta. rewrite H. reflexivity. Qed.

Lemma inherited_value_sentinel key rest :
  not_inherited key -> inherited_value key rest = Some (VStr (str "?")).
Proof.
  intros [Hf Hp]. unfold inherited_value. rewrite Hf.
  unfold jstring_eqb. rewrite bool_decide_eq_false_2 by exact Hp. reflexivity.
Qed.

Lemma getTagValue_cons_other tag k v fields extra :
  jstring_eqb k (tag_head tag) = false ->
  getTagValue JSON_parse tag (mkObject ((k, v) :: fields) extra)
  = getTagValue JSON_parse tag (mkObject fields extra).
Proof.
  intros H. unfold tag_head in H. cbn [getTagValue]. cbv zeta.
  destruct (jstring_eqb _ (str "extra")); [reflexivity|].
  cbn [look_field]. rewrite H. reflexivity.
Qed.

Lemma getTagValue_cons_string tag k s fields extra :
  jstring_eqb (tag_head tag) (str "extra") = false ->
  jstring_eqb k (tag_head tag) = true ->
  getTagValue JSON_parse tag (mkObject ((k, VStr s) :: fields) extra) = Some (VStr s).
Proof.
  intros H1 H2. unfold tag_head in *. cbn [getTagValue]. cbv zeta. rewrite H1.
  cbn [look_field]. rewrite H2. reflexivity.
Qed.

Lemma getTagValue_absent tag fields extra :
  jstring_eqb (tag_head tag) (str "extra") = false ->
  Forall (fun kv => jstring_eqb kv.1 (tag_head tag) = false) fields ->
  getTagValue JSON_parse tag (mkObject fields extra)
  = inherited_value (tag_head tag) (tag_rest tag).
Proof.
  intros He. induction 1 as [|[k v] fields Hk _ IH].
  - apply getTagValue_nil, He.
  - rewrite getTagValue_cons_other by exact Hk. exact IH.
Qed.

(** A field that stores the string [?] resolves like a missing field,
    whatever the tag, unless its name is inherited. *)
Lemma getTagValue_sentinel_field f fields extra tag :
  not_inherited f ->
  Forall (fun kv => kv.1 <> f) fields ->
  getTagValue JSON_parse tag (mkObject ((f, VStr (str "?")) :: fields) extra)
  = getTagValue JSON_parse tag (mkObject fields extra).
Proof.
  intros Hn Hf.
  destruct (jstring_eqb (tag_head tag) (str "extra")) eqn:He.
  - apply getTagValue_extra, He.
  - destruct (jstring_eqb f (tag_head tag)) eqn:Hk.
    + rewrite getTagValue_cons_string by assumption.
      symmetry. apply bool_decide_eq_true in Hk. subst f.
      rewrite <- (inherited_value_sentinel (tag_head tag) (tag_rest tag) Hn).
      apply getTagValue_absent; [exact He|].
      eapply Forall_impl; [exact Hf|]. intros [k v] Hkv. simpl in *.
      apply bool_decide_eq_false. exact Hkv.
    + apply getTagValue_cons_other, Hk.
Qed.

(** ** Rendering *)

Lemma render_match_ext o1 o2 txt m :
  (forall tag, getTagValue JSON_parse tag o1 = getTagValue JSON_parse tag o2) ->
  render_match JSON_parse o1 txt m = render_match JSON_parse o2 txt m.
Proof.
  intros H. unfold render_match. rewrite H.
  destruct (structure_match m) as [[[p t] s]|]; [rewrite H|]; reflexivity.
Qed.

(** The callback on a tag. *)
Lemma render_match_tag obj txt m v :
  count_open m = 1 ->
  getTagValue JSON_parse (strip_braces m) obj = Some v ->
  String_throws v = false ->
  render_match JSON_parse obj txt m = Some (js_replace txt m (String_of v)).
Proof.
  intros Hc Hv Ht. unfold render_match. rewrite Hc. simpl Nat.eqb. cbv iota.
  rewrite Hv, Ht. reflexivity.
Qed.

Lemma render_matches_ext o1 o2 ms txt :
  (forall tag, getTagValue JSON_parse tag o1 = getTagValue JSON_parse tag o2) ->
  render_matches JSON_parse o1 ms txt = render_matches JSON_parse o2 ms txt.
Proof.
  intros H. revert txt. induction ms as [|m ms IH]; intros txt; simpl; [reflexivity|].
  rewrite (render_match_ext o1 o2 txt m H).
  destruct (render_match JSON_parse o2 txt m); [apply IH | reflexivity].
Qed.

(** The callback on an optional block. *)
Lemma render_match_block obj txt p t s v :
  brace_free p -> brace_free t -> brace_free s ->
  one_line p -> one_line t -> one_line s ->
  getTagValue JSON_parse t obj = Some v ->
  String_throws v = false ->
  render_match JSON_parse obj txt (block p t s)
  = Some (js_replace txt (block p t s)
            (if is_sentinel v then [] else p ++ String_of v ++ s)).
Proof.
  intros Hp Ht Hs Lp Lt Ls Hv Hth. unfold render_match.
  rewrite count_open_block by assumption. simpl Nat.eqb. cbv iota.
  rewrite structure_match_block by assumption. rewrite Hv, Hth.
  destruct (is_sentinel v); reflexivity.
Qed.

(** The callback skips a match that has neither one nor two opening
    braces and a match with two that the structure pattern rejects. *)
Lemma render_match_skip obj txt m :
  (count_open m <> 1 /\ count_open m <> 2) \/
  (count_open m = 2 /\ structure_match m = None) ->
  render_match JSON_parse obj txt m = Some txt.
Proof.
  unfold render_match. intros [[H1 H2]|[H2 Hs]].
  - destruct (Nat.eqb_spec (count_open m) 1); [contradiction|].
    destruct (Nat.eqb_spec (count_open m) 2); [contradiction | reflexivity].
  - rewrite H2, Hs. reflexivity.
Qed.

(** An optional block that no opening brace precedes: the block is
    replaced where it stands and rendering goes on with the matches
    behind it. *)
Lemma render_first_block obj pre p t s post v :
  open_free pre ->
  brace_free p -> brace_free t -> brace_free s ->
  one_line p -> one_line t -> one_line s ->
  getTagValue JSON_parse t obj = Some v ->
  String_throws v = false ->
  renderTemplateText JSON_parse obj (pre ++ block p t s ++ post)
  = render_matches JSON_parse obj (matchAll post)
      (pre ++ expand_replacement (block p t s) pre post
                (if is_sentinel v then [] else p ++ String_of v ++ s) ++ post).
Proof.
  intros Hpre Hp Ht Hs Lp Lt Ls Hv Hth. unfold renderTemplateText.
  rewrite matchAll_block by assumption. cbn [render_matches].
  rewrite (render_match_block obj _ p t s v) by assumption.
  rewrite js_replace_first_block by assumption. reflexivity.
Qed.
End ResolutionFacts.

Section RenderingFacts.
Variable JSON_parse : jstring -> option jsval.

Lemma render_matches_skipped obj ms txt :
  Forall (fun m => (count_open m <> 1 /\ count_open m <> 2) \/
                   (count_open m = 2 /\ structure_match m = None)) ms ->
  render_matches JSON_parse obj ms txt = Some txt.
Proof.
  induction 1 as [|m ms Hm _ IH]; simpl; [reflexivity|].
  rewrite (render_match_skip JSON_parse obj txt m Hm). exact IH.
Qed.

(** A template whose only span is one optional block: the block is
    deleted when its tag resolves to the sentinel and replaced by prefix,
    value and suffix otherwise, provided these contain no dollar sign. *)
Lemma render_single_block obj pre p t s post v :
  open_free pre -> open_free post ->
  brace_free p -> brace_free t -> brace_free s ->
  one_line p -> one_line t -> one_line s ->
  getTagValue JSON_parse t obj = Some v ->
  String_throws v = false ->
  dollar_free (p ++ String_of v ++ s) ->
  renderTemplateText JSON_parse obj (pre ++ block p t s ++ post)
  = Some (if is_sentinel v then pre ++ post else pre ++ (p ++ String_of v ++ s) ++ post).
Proof.
  intros Hpre Hpost Hp Ht Hs Lp Lt Ls Hv Hth Hd.
  rewrite (render_first_block JSON_parse obj pre p t s post v) by assumption.
  rewrite (matchAll_nil post Hpost). simpl render_matches.
  destruct (is_sentinel v); [reflexivity|].
  rewrite expand_replacement_dollar_free by exact Hd. reflexivity.
Qed.

(** C1: the template [{Lot: {lot_nr}}] is one optional block with prefix
    [Lot: ], tag [lot_nr] and an empty suffix; on a record whose [lot_nr]
    is the two-unit string dollar-ampersand, which is not the sentinel,
    the block is replaced by [Lot: {Lot: {lot_nr}}], not by prefix, value
    and suffix: [replace] reads the value as a replacement pattern. *)
Theorem renderTemplateText_block_dollar_pattern :
  let template := str "{Lot: {lot_nr}}" in
  let obj := record [("lot_nr", "$&")] in
  matchAll template = [block (str "Lot: ") (str "lot_nr") []] /\
  getTagValue JSON_parse (str "lot_nr") obj = Some (VStr (str "$&")) /\
  is_sentinel (VStr (str "$&")) = false /\
  renderTemplateText JSON_parse obj template = Some (str "Lot: {Lot: {lot_nr}}") /\
  renderTemplateText JSON_parse obj template
  <> Some (str "Lot: " ++ String_of (VStr (str "$&")) ++ []).
Proof. vm_compute. repeat split. discriminate. Qed.

(** C2: on a record whose [comment] is the text [{lot_nr}] and whose
    [lot_nr] is [X], the template [{comment} {lot_nr}] renders to
    [X {lot_nr}]: the second substitution expands the span that the first
    one put into the text and leaves the tag of the template alone. *)
Theorem renderTemplateText_expands_substituted_span :
  let template := str "{comment} {lot_nr}" in
  let obj := record [("comment", "{lot_nr}"); ("lot_nr", "X")] in
  matchAll template = [str "{comment}"; str "{lot_nr}"] /\
  getTagValue JSON_parse (str "comment") obj = Some (VStr (str "{lot_nr}")) /\
  getTagValue JSON_parse (str "lot_nr") obj = Some (VStr (str "X")) /\
  renderTemplateText JSON_parse obj template = Some (str "X {lot_nr}") /\
  renderTemplateText JSON_parse obj template <> Some (str "{lot_nr} X").
Proof. vm_compute. repeat split. discriminate. Qed.

(** C4: in the template [{a{lot_nr}b{id}c} {lot_nr}] the first span has
    three opening braces and its own callback leaves the text alone, but
    the substitution of the tag behind it lands inside the span: the
    output is [{aXb{id}c} {lot_nr}], the span is not left as it was. *)
Theorem renderTemplateText_rewrites_skipped_span :
  let template := str "{a{lot_nr}b{id}c} {lot_nr}" in
  let obj := record [("lot_nr", "X")] in
  matchAll template = [str "{a{lot_nr}b{id}c}"; str "{lot_nr}"] /\
  count_open (str "{a{lot_nr}b{id}c}") = 3 /\
  render_match JSON_parse obj template (str "{a{lot_nr}b{id}c}") = Some template /\
  renderTemplateText JSON_parse obj template = Some (str "{aXb{id}c} {lot_nr}") /\
  renderTemplateText JSON_parse obj template <> Some (str "{a{lot_nr}b{id}c} X").
Proof. vm_compute. repeat split. discriminate. Qed.

(** C10: on a record whose [comment] is the text of the optional block
    [{Lot: {lot_nr}}], the template [{comment} {Lot: {lot_nr}}] keeps
    the block although its tag resolves to the sentinel, be the field
    [lot_nr] missing or the string [?]: the callback of the block
    deletes the first occurrence of the block's text, which is the copy
    that the tag [comment] has put in front of it.  With the block
    deleted the output would be the comment and a space. *)
Theorem sentinel_block_survives :
  let template := str "{comment} {Lot: {lot_nr}}" in
  let missing := record [("comment", "{Lot: {lot_nr}}")] in
  let stored := record [("comment", "{Lot: {lot_nr}}"); ("lot_nr", "?")] in
  matchAll template = [str "{comment}"; block (str "Lot: ") (str "lot_nr") []] /\
  getTagValue JSON_parse (str "lot_nr") missing = Some (VStr (str "?")) /\
  getTagValue JSON_parse (str "lot_nr") stored = Some (VStr (str "?")) /\
  renderTemplateText JSON_parse missing template = Some (str " {Lot: {lot_nr}}") /\
  renderTemplateText JSON_parse stored template = Some (str " {Lot: {lot_nr}}") /\
  renderTemplateText JSON_parse missing template <> Some (str "{Lot: {lot_nr}} ") /\
  renderTemplateText JSON_parse stored template <> Some (str "{Lot: {lot_nr}} ").
Proof. vm_compute. repeat split; discriminate. Qed.

(** X30: a field that stores the string [?] and a missing field are told
    apart by no tag and by no template, unless the name of the field is
    one that plain objects inherit from [Object.prototype]. *)
Theorem stored_sentinel_like_missing (f : jstring) (fields : list (jstring * jsval))
    (extra : list (jstring * jstring)) :
  not_inherited f ->
  Forall (fun kv => kv.1 <> f) fields ->
  (forall tag,
     getTagValue JSON_parse tag (mkObject ((f, VStr (str "?")) :: fields) extra)
     = getTagValue JSON_parse tag (mkObject fields extra)) /\
  (forall template,
     renderTemplateText JSON_parse (mkObject ((f, VStr (str "?")) :: fields) extra) template
     = renderTemplateText JSON_parse (mkObject fields extra) template).
Proof.
  intros Hn Hf.
  assert (H : forall tag,
             getTagValue JSON_parse tag (mkObject ((f, VStr (str "?")) :: fields) extra)
             = getTagValue JSON_parse tag (mkObject fields extra))
    by (intros tag; apply getTagValue_sentinel_field; assumption).
  split; [exact H|]. intros template. apply render_matches_ext, H.
Qed.
End RenderingFacts.

Lemma stored_sentinel_like_missing_witness :
  renderTemplateText JSON_parse_scalar (record [("lot_nr", "?"); ("id", "7")])
    (str "#{id} {Lot: {lot_nr}}")
  = renderTemplateText JSON_parse_scalar (record [("id", "7")]) (str "#{id} {Lot: {lot_nr}}").
Proof.
  apply (stored_sentinel_like_missing JSON_parse_scalar (str "lot_nr")
           [(str "id", VStr (str "7"))] []).
  - split; [reflexivity | discriminate].
  - repeat constructor; discriminate.
Defined.

(** ** Selection values and preset names *)

Lemma index_of_split c v n :
  index_of c v = Some n -> v = take n v ++ c :: drop (S n) v.
Proof.
  revert n. induction v as [|d r IH]; intros n; simpl; [discriminate|].
  destruct (ascii_eqb d c) eqn:E.
  - intros [= <-]. apply Ascii.eqb_eq in E. subst d. reflexivity.
  - destruct (index_of c r) as [m|]; [|discriminate]. simpl. intros [= <-].
    simpl. f_equal. apply IH. reflexivity.
Qed.

Lemma index_of_type_name t i :
  index_of ":"%char (toPresetValue t i) = Some (length (type_name t)).
Proof. destruct t; reflexivity. Qed.

(** X1: a selection value decodes to a type and an id exactly when the id is
    not empty and the value is the type, a colon and the id, or is a bare
    id without a colon, which is read as an id of the current type.  The
    id may itself contain colons: the value is cut at the first one. *)
Theorem parsePresetValue_decodes (v : jstring) (t : PresetType) (i : jstring) :
  parsePresetValue (Some v) = Some (t, i) <->
  i <> [] /\
  (v = toPresetValue t i \/
   (t = currentPresetType /\ v = i /\ index_of ":"%char v = None)).
Proof.
  split.
  - unfold parsePresetValue. destruct v as [|c0 v0]; [discriminate|].
    destruct (index_of ":"%char (c0 :: v0)) as [n|] eqn:En.
    + pose proof (index_of_split _ _ _ En) as Hv.
      destruct (drop (S n) (c0 :: v0)) as [|d r] eqn:Ed; [discriminate|].
      destruct (jstring_eqb (take n (c0 :: v0)) (type_name currentPresetType)) eqn:E1.
      * intros [= <- <-]. apply bool_decide_eq_true in E1.
        split; [discriminate|]. left. rewrite Hv at 1. rewrite E1. reflexivity.
      * destruct (jstring_eqb (take n (c0 :: v0)) (type_name otherPresetType)) eqn:E2;
          [|discriminate].
        intros [= <- <-]. apply bool_decide_eq_true in E2.
        split; [discriminate|]. left. rewrite Hv at 1. rewrite E2. reflexivity.
    + intros [= <- <-]. split; [discriminate|]. right. auto.
  - intros [Hi [->|[-> [-> Hn]]]].
    + destruct i as [|c i]; [contradiction|]. destruct t; reflexivity.
    + unfold parsePresetValue. destruct i as [|c i]; [contradiction|].
      rewrite Hn. reflexivity.
Qed.

Section PresetNameFacts.
Variable defaultPresetName : jstring.

Local Abbreviation stemOf := (normalizedBaseName defaultPresetName).
Local Abbreviation nextName := (getNextPresetName defaultPresetName).

Lemma getNextPresetName_eq base presets :
  nextName base presets
  = stemOf base ++ "-"%char
      :: padStart 2 "0"%char (String_of_nat (maxSuffix (stemOf base) presets + 1)).
Proof. reflexivity. Qed.

Lemma split_numbered_app stem d1 d2 :
  split_numbered (stem ++ ["-"%char; d1; d2])
  = if is_digit d1 && is_digit d2
    then Some (stem, 10 * digit_value d1 + digit_value d2) else None.
Proof.
  unfold split_numbered. rewrite rev_app_distr. simpl.
  rewrite rev_involutive. reflexivity.
Qed.

Lemma padStart_2_digits k :
  1 <= k <= 99 ->
  exists d1 d2, padStart 2 "0"%char (String_of_nat k) = [d1; d2] /\
                is_digit d1 = true /\ is_digit d2 = true /\
                10 * digit_value d1 + digit_value d2 = k.
Proof.
  intros Hk.
  assert (Hall : forallb (fun k =>
                   match padStart 2 "0"%char (String_of_nat k) with
                   | [d1; d2] => is_digit d1 && is_digit d2
                                 && Nat.eqb (10 * digit_value d1 + digit_value d2) k
                   | _ => false
                   end) (seq 1 99) = true) by (vm_compute; reflexivity).
  rewrite forallb_forall in Hall.
  assert (Hin : In k (seq 1 99)) by (apply in_seq; lia).
  specialize (Hall k Hin).
  destruct (padStart 2 "0"%char (String_of_nat k)) as [|d1 [|d2 [|d3 r]]];
    try discriminate.
  apply andb_prop in Hall as [Hd He]. apply andb_prop in Hd as [H1 H2].
  exists d1, d2. repeat split; try assumption. apply Nat.eqb_eq, He.
Qed.

Lemma split_numbered_next stem k :
  1 <= k <= 99 ->
  split_numbered (stem ++ "-"%char :: padStart 2 "0"%char (String_of_nat k))
  = Some (stem, k).
Proof.
  intros Hk. destruct (padStart_2_digits k Hk) as [d1 [d2 [E [H1 [H2 Hv]]]]].
  rewrite E. rewrite split_numbered_app, H1, H2, Hv. reflexivity.
Qed.

Lemma maxSuffix_foldl stem presets acc :
  foldl (fun acc preset =>
           match split_numbered (trim (default [] (preset_name preset))) with
           | Some (stem', n) => if jstring_eqb stem' stem then Nat.max acc n else acc
           | None => acc
           end) acc presets
  = Nat.max acc (maxSuffix stem presets).
Proof.
  unfold maxSuffix. revert acc. induction presets as [|p ps IH]; intros acc; simpl.
  - lia.
  - rewrite IH. rewrite (IH (match _ with Some _ => _ | None => _ end)).
    destruct (split_numbered _) as [[stem' n]|]; [|reflexivity].
    destruct (jstring_eqb stem' stem); simpl; lia.
Qed.

Lemma maxSuffix_app stem ps qs :
  maxSuffix stem (ps ++ qs) = Nat.max (maxSuffix stem ps) (maxSuffix stem qs).
Proof.
  unfold maxSuffix at 1. rewrite foldl_app. fold (maxSuffix stem ps).
  apply maxSuffix_foldl.
Qed.

Lemma maxSuffix_ge stem presets p n :
  p ∈ presets -> split_numbered (trimmed_name p) = Some (stem, n) ->
  n <= maxSuffix stem presets.
Proof.
  intros Hin Hp. apply list_elem_of_split in Hin as [l1 [l2 ->]].
  rewrite maxSuffix_app. change (p :: l2) with ([p] ++ l2). rewrite maxSuffix_app.
  assert (maxSuffix stem [p] = n).
  { unfold maxSuffix. simpl. unfold trimmed_name in Hp. rewrite Hp.
    unfold jstring_eqb. rewrite bool_decide_eq_true_2 by reflexivity. reflexivity. }
  lia.
Qed.

(** X2: the name proposed for a new preset is the name of no preset of the
    list (names compared as the code reads them, trimmed), as long as no
    preset of the same stem is numbered 99. *)
Theorem getNextPresetName_fresh (base : jstring) (presets : list Preset) (p : Preset) :
  maxSuffix (stemOf base) presets < 99 ->
  p ∈ presets ->
  trimmed_name p <> nextName base presets.
Proof.
  intros Hmax Hin E. rewrite getNextPresetName_eq in E.
  pose proof (maxSuffix_ge (stemOf base) presets p
                (maxSuffix (stemOf base) presets + 1) Hin) as Hge.
  rewrite E in Hge. rewrite split_numbered_next in Hge by lia.
  specialize (Hge eq_refl). lia.
Qed.

Lemma or_else_nonempty (a b : jstring) : a <> [] -> or_else a b = a.
Proof. destruct a; [contradiction | reflexivity]. Qed.

Lemma trim_trim s : trim (trim s) = trim s.
Proof.
  apply trim_id.
  - apply trim_head.
  - intros c Hc. unfold trim in Hc. exact (drop_trailing_last _ _ _ Hc).
Qed.

Lemma split_numbered_prefix s stem n :
  split_numbered s = Some (stem, n) -> exists d1 d2, s = stem ++ ["-"%char; d1; d2].
Proof.
  unfold split_numbered. destruct (rev s) as [|d2 [|d1 [|dash r]]] eqn:E; try discriminate.
  destruct (ascii_eqb dash "-"%char && is_digit d1 && is_digit d2) eqn:B; [|discriminate].
  intros [= <- _]. apply andb_prop in B as [B _]. apply andb_prop in B as [B _].
  apply Ascii.eqb_eq in B. subst dash. exists d1, d2.
  rewrite <- (rev_involutive s), E. simpl. rewrite <- !app_assoc. reflexivity.
Qed.

Lemma stemOf_head base c :
  trim defaultPresetName = defaultPresetName ->
  head (stemOf base) = Some c -> is_js_space c = false.
Proof.
  intros Hd. unfold normalizedBaseName.
  assert (Ht : forall c, head (or_else (trim base) defaultPresetName) = Some c ->
                         is_js_space c = false).
  { intros c0. unfold or_else. destruct (trim base) eqn:E.
    - rewrite <- Hd. apply trim_head.
    - rewrite <- E. apply trim_head. }
  destruct (split_numbered _) as [[stem n]|] eqn:E; [|apply Ht].
  apply split_numbered_prefix in E as [d1 [d2 E]]. intros Hh. apply Ht.
  rewrite E. destruct stem; [discriminate | exact Hh].
Qed.

Lemma nextName_trimmed base presets :
  trim defaultPresetName = defaultPresetName ->
  maxSuffix (stemOf base) presets < 99 ->
  trim (nextName base presets) = nextName base presets.
Proof.
  intros Hd Hmax. rewrite getNextPresetName_eq.
  destruct (padStart_2_digits (maxSuffix (stemOf base) presets + 1))
    as [d1 [d2 [E [H1 [H2 _]]]]]; [lia|].
  rewrite E. apply trim_id.
  - intros c Hc. destruct (stemOf base) as [|s0 stem] eqn:Es.
    + simpl in Hc. injection Hc as <-. reflexivity.
    + simpl in Hc. injection Hc as <-. apply (stemOf_head base); [exact Hd|].
      rewrite Es. reflexivity.
  - intros c Hc.
    change (stemOf base ++ ["-"%char; d1; d2]) with (stemOf base ++ ["-"%char; d1] ++ [d2]) in Hc.
    rewrite !app_assoc in Hc. rewrite last_snoc in Hc. injection Hc as <-.
    unfold is_digit in H2. unfold is_js_space.
    destruct d2 as [[] [] [] [] [] [] [] []]; try reflexivity; discriminate.
Qed.

(** X3: numbering goes on from the last name: when the preset created under
    the proposed name is in the list and serves as the base, the next
    proposal keeps the stem and carries the next number, as long as the
    numbers of the stem stay below 99 and the default name has no white
    space around it. *)
Theorem getNextPresetName_succession (base : jstring) (presets : list Preset) (q : Preset) :
  trim defaultPresetName = defaultPresetName ->
  maxSuffix (stemOf base) presets < 99 ->
  preset_name q = Some (nextName base presets) ->
  nextName (nextName base presets) (presets ++ [q])
  = stemOf base ++ "-"%char
      :: padStart 2 "0"%char (String_of_nat (maxSuffix (stemOf base) presets + 2)).
Proof.
  intros Hd Hmax Hq.
  pose proof (nextName_trimmed base presets Hd Hmax) as Ht.
  assert (Hs : split_numbered (nextName base presets)
               = Some (stemOf base, maxSuffix (stemOf base) presets + 1)).
  { rewrite getNextPresetName_eq. apply split_numbered_next. lia. }
  assert (Hne : nextName base presets <> []).
  { rewrite getNextPresetName_eq. destruct (stemOf base); discriminate. }
  assert (Hstem : stemOf (nextName base presets) = stemOf base).
  { unfold normalizedBaseName at 1. rewrite Ht.
    rewrite (or_else_nonempty _ _ Hne), Hs. reflexivity. }
  rewrite (getNextPresetName_eq (nextName base presets)), Hstem.
  rewrite maxSuffix_app.
  assert (Hq1 : maxSuffix (stemOf base) [q] = maxSuffix (stemOf base) presets + 1).
  { unfold maxSuffix at 1. simpl. rewrite Hq. simpl. rewrite Ht, Hs.
    unfold jstring_eqb. rewrite bool_decide_eq_true_2 by reflexivity. reflexivity. }
  rewrite Hq1. do 4 f_equal. lia.
Qed.
End PresetNameFacts.

Lemma getNextPresetName_fresh_witness :
  let presets := [example_preset "S1" "Copy-01"; example_preset "S2" "Copy-02"] in
  getNextPresetName (str "Default") (str "Copy-01") presets = str "Copy-03" /\
  trimmed_name (example_preset "S2" "Copy-02")
  <> getNextPresetName (str "Default") (str "Copy-01") presets.
Proof.
  cbv zeta. split; [vm_compute; reflexivity|].
  apply getNextPresetName_fresh.
  - vm_compute. lia.
  - right. left.
Defined.

Lemma getNextPresetName_succession_witness :
  let presets := [example_preset "S1" "Copy-01"; example_preset "S2" "Copy-02"] in
  getNextPresetName (str "Default") (str "Copy-03")
    (presets ++ [example_preset "S3" "Copy-03"])
  = str "Copy-04".
Proof.
  cbv zeta.
  pose proof (getNextPresetName_succession (str "Default") (str "Copy-01")
                [example_preset "S1" "Copy-01"; example_preset "S2" "Copy-02"]
                (example_preset "S3" "Copy-03")) as H.
  assert (E : getNextPresetName (str "Default") (str "Copy-01")
                [example_preset "S1" "Copy-01"; example_preset "S2" "Copy-02"]
              = str "Copy-03") by (vm_compute; reflexivity).
  rewrite E in H. rewrite H.
  - vm_compute. reflexivity.
  - vm_compute. reflexivity.
  - vm_compute. lia.
  - vm_compute. reflexivity.
Defined.

(** ** Adding, duplicating and deleting presets *)

Section PresetEventFacts.
Variable defaultPresetName : jstring.
Variable uuids : nat -> jstring.

Local Abbreviation viewE := (view uuids).
Local Abbreviation renderE := (render defaultPresetName uuids).
Local Abbreviation stepE := (step defaultPresetName uuids).

Lemma find_preset_cons i p presets :
  find_preset i (p :: presets)
  = if decide (preset_id p = i) then Some p else find_preset i presets.
Proof.
  unfold find_preset. simpl. destruct (decide (preset_id p = i)) as [E|E]; [reflexivity|].
  destruct (list_find _ presets) as [[k q]|]; reflexivity.
Qed.

Lemma find_preset_snoc i presets q :
  Forall (fun p => preset_id p <> i) presets -> preset_id q = i ->
  find_preset i (presets ++ [q]) = Some q.
Proof.
  intros Hall Hq. induction Hall as [|p presets Hp _ IH]; simpl.
  - rewrite find_preset_cons. destruct (decide (preset_id q = i)); [reflexivity | contradiction].
  - rewrite find_preset_cons. destruct (decide (preset_id p = i)); [contradiction | exact IH].
Qed.

Lemma find_preset_elem i presets p :
  find_preset i presets = Some p -> p ∈ presets /\ preset_id p = i.
Proof.
  induction presets as [|q presets IH]; [discriminate|].
  rewrite find_preset_cons. destruct (decide (preset_id q = i)) as [E|E].
  - intros [= <-]. split; [left | exact E].
  - intros H. destruct (IH H) as [Hin Hid]. split; [right; exact Hin | exact Hid].
Qed.

Lemma view_local d l :
  localCurrentPresets d = Some l -> currentPresets (viewE d) = Some l.
Proof.
  intros H. unfold view.
  destruct (useGetPrintSettings uuids (str "image_presets") d (drawn d)) as [r1 n1].
  destruct (useGetPrintSettings uuids (str "image_presets_filament") d n1) as [r2 n2].
  simpl. rewrite H. reflexivity.
Qed.

Lemma with_id_preset_id u p : preset_id (with_id u p) = u.
Proof. destruct p as [t1 t2 t3 [a b c d0 e g h i j k m n o p q r s []]]. reflexivity. Qed.

Lemma with_name_preset_id name p : preset_id (with_name name p) = preset_id p.
Proof. destruct p as [t1 t2 t3 [a b c d0 e g h i j k m n o p q r s []]]. reflexivity. Qed.

Lemma with_name_preset_name name p : preset_name (with_name name p) = Some name.
Proof. destruct p as [t1 t2 t3 [a b c d0 e g h i j k m n o p q r s []]]. reflexivity. Qed.

Lemma parse_spool_value u :
  u <> [] -> parsePresetValue (Some (toPresetValue spool u)) = Some (spool, u).
Proof. intros Hu. destruct u as [|c u]; [contradiction | reflexivity]. Qed.

Lemma render_working d cur p :
  working uuids d cur p ->
  renderE d = (p, mkDialog (selectedPresetState d) (localCurrentPresets d) (settings d)
                    (drawn_after (viewE d))).
Proof.
  intros [Hcur [i [[Hsel Hf]|[Hsel [Hne Hf]]]]]; unfold render; rewrite Hcur.
  - destruct cur as [|first others]; [discriminate|]. rewrite Hsel, Hf. reflexivity.
  - destruct cur as [|first others]; [contradiction|]. rewrite Hsel, Hf. reflexivity.
Qed.

Lemma working_kept d cur p : working uuids d cur p -> render_sets uuids d = false.
Proof.
  intros [Hcur [i [[Hsel Hf]|[Hsel [Hne Hf]]]]]; unfold render_sets; rewrite Hcur.
  - destruct cur as [|first others]; [discriminate|]. rewrite Hsel, Hf. reflexivity.
  - destruct cur as [|first others]; [contradiction|]. rewrite Hsel, Hf. reflexivity.
Qed.

(** The handlers that run in a state with a working preset are those of
    the render of that state. *)
Lemma step_working ev d cur p :
  working uuids d cur p -> stepE ev d = handle defaultPresetName uuids ev d.
Proof. intros Hw. apply step_kept, (working_kept d cur p Hw). Qed.

Lemma render_selected d l u q :
  localCurrentPresets d = Some (l ++ [q]) ->
  selectedPresetState d = Some (toPresetValue spool u) ->
  u <> [] -> Forall (fun p => preset_id p <> u) l -> preset_id q = u ->
  (renderE d).1 = q.
Proof.
  intros Hl Hs Hu Hfresh Hq. unfold render. rewrite (view_local d _ Hl).
  destruct (l ++ [q]) as [|first others] eqn:E; [destruct l; discriminate|].
  rewrite Hs, (parse_spool_value u Hu). rewrite <- E.
  rewrite (find_preset_snoc u l q Hfresh Hq). reflexivity.
Qed.

(** X4: duplicating appends to the current list a copy of the working preset
    under the next generated UUID, leaves every other preset and the
    stored settings as they were, and makes the copy the working preset
    of the next render, provided the UUID is not empty and not the id of
    a preset of the list. *)
Theorem duplicate_selects_copy (d : Dialog) (cur : list Preset) (p : Preset) :
  working uuids d cur p ->
  let u := uuids (drawn_after (viewE d)) in
  let d' := stepE EvDuplicate d in
  u <> [] -> Forall (fun q => preset_id q <> u) cur ->
  localCurrentPresets d' = Some (cur ++ [with_id u p]) /\
  settings d' = settings d /\
  (renderE d').1 = with_id u p.
Proof.
  intros Hw u d' Hu Hfresh.
  assert (Hd' : d' = mkDialog (Some (toPresetValue spool u)) (Some (cur ++ [with_id u p]))
                       (settings d) (S (drawn_after (viewE d)))).
  { subst d'. rewrite (step_working _ d cur p Hw). unfold handle.
      rewrite (render_working d cur p Hw).
    destruct Hw as [Hcur _]. rewrite Hcur. simpl. fold u.
    rewrite with_id_preset_id. reflexivity. }
  split; [rewrite Hd'; reflexivity|]. split; [rewrite Hd'; reflexivity|].
  apply (render_selected d' cur u); try assumption.
  - rewrite Hd'. reflexivity.
  - rewrite Hd'. reflexivity.
  - apply with_id_preset_id.
Qed.

(** X5: adding appends a copy of the working preset that carries the next
    generated UUID and the next free name for the working preset's name,
    and makes it the working preset of the next render, provided the
    UUID is not empty and not the id of a preset of the list. *)
Theorem add_selects_new_preset (d : Dialog) (cur : list Preset) (p : Preset) :
  working uuids d cur p ->
  let u := uuids (drawn_after (viewE d)) in
  let d' := stepE EvAdd d in
  let name := getNextPresetName defaultPresetName
                (default defaultPresetName (preset_name p)) cur in
  let newPreset := with_name name (with_id u p) in
  u <> [] -> Forall (fun q => preset_id q <> u) cur ->
  localCurrentPresets d' = Some (cur ++ [newPreset]) /\
  preset_id newPreset = u /\
  preset_name newPreset = Some name /\
  settings d' = settings d /\
  (renderE d').1 = newPreset.
Proof.
  intros Hw u d' name newPreset Hu Hfresh.
  assert (Hd' : d' = mkDialog (Some (toPresetValue spool u)) (Some (cur ++ [newPreset]))
                       (settings d) (S (drawn_after (viewE d)))).
  { subst d'. rewrite (step_working _ d cur p Hw). unfold handle.
      rewrite (render_working d cur p Hw).
    destruct Hw as [Hcur [i [[Hsel Hf]|[Hsel [Hne Hf]]]]]; rewrite Hcur; simpl;
      rewrite Hsel, Hf; reflexivity. }
  assert (Hid : preset_id newPreset = u).
  { subst newPreset. rewrite with_name_preset_id. apply with_id_preset_id. }
  split; [rewrite Hd'; reflexivity|]. split; [exact Hid|].
  split; [apply with_name_preset_name|]. split; [rewrite Hd'; reflexivity|].
  apply (render_selected d' cur u); try assumption.
  - rewrite Hd'. reflexivity.
  - rewrite Hd'. reflexivity.
Qed.

Lemma preferredPreset_elem presets q :
  preferredPreset defaultPresetName presets = Some q -> q ∈ presets.
Proof.
  unfold preferredPreset.
  destruct (list_find _ presets) as [[n r]|] eqn:E.
  - intros [= <-]. apply list_find_Some in E as [Hn _].
    exact (list_elem_of_lookup_2 _ _ _ Hn).
  - destruct presets as [|r rest]; [discriminate|]. intros [= <-]. left.
Qed.

(** X6: deleting removes from the current list every preset that carries the
    selected id, keeps the others in their order and clears the
    selection; the next render then works on a preset of what is left, or
    on a new default preset when nothing is left.  With a preset of the
    other type selected, deleting changes neither the list nor the
    selection. *)
Theorem delete_removes_selected (d : Dialog) (cur : list Preset) (p : Preset) (i : jstring) :
  currentPresets (viewE d) = Some cur ->
  let d' := stepE EvDelete d in
  let rest := filter (fun q => preset_id q <> i) cur in
  (parsePresetValue (selectedPresetState d) = Some (spool, i) ->
   find_preset i cur = Some p ->
   localCurrentPresets d' = Some rest /\
   selectedPresetState d' = None /\
   settings d' = settings d /\
   (rest <> [] ->
    (renderE d').1 ∈ rest /\
    localCurrentPresets (renderE d').2 = Some rest /\
    selectedPresetState (renderE d').2
    = Some (toPresetValue spool (preset_id (renderE d').1))) /\
   (rest = [] ->
    (renderE d').1 = buildNewPreset (uuids (drawn_after (viewE d'))) defaultPresetName None /\
    localCurrentPresets (renderE d').2 = Some [(renderE d').1])) /\
  (parsePresetValue (selectedPresetState d) = Some (filament, i) ->
   cur <> [] ->
   find_preset i (otherPresets (viewE d)) = Some p ->
   localCurrentPresets d' = localCurrentPresets d /\
   selectedPresetState d' = selectedPresetState d /\
   settings d' = settings d).
Proof.
  intros Hcur d' rest. split.
  - intros Hsel Hf.
    assert (Hw : working uuids d cur p) by (split; [exact Hcur | exists i; left; auto]).
    assert (Hd' : d' = mkDialog None (Some rest) (settings d) (drawn_after (viewE d))).
    { subst d'. rewrite (step_working _ d cur p Hw). unfold handle.
      rewrite (render_working d cur p Hw).
      rewrite Hcur, Hsel. reflexivity. }
    split; [rewrite Hd'; reflexivity|]. split; [rewrite Hd'; reflexivity|].
    split; [rewrite Hd'; reflexivity|].
    assert (Hv : currentPresets (viewE d') = Some rest)
      by (apply view_local; rewrite Hd'; reflexivity).
    split.
    + intros Hne. unfold render. rewrite Hv.
      destruct rest as [|first others] eqn:Er; [contradiction|].
      assert (Hsel' : parsePresetValue (selectedPresetState d') = None)
        by (rewrite Hd'; reflexivity).
      rewrite Hsel'. simpl.
      split; [|split; [rewrite Hd'; reflexivity | reflexivity]].
      destruct (preferredPreset defaultPresetName (first :: others)) as [q|] eqn:Eq.
      * simpl. exact (preferredPreset_elem _ _ Eq).
      * simpl. left.
    + intros He. unfold render. rewrite Hv, He. split; reflexivity.
  - intros Hsel Hne Hf.
    assert (Hw : working uuids d cur p).
    { split; [exact Hcur | exists i; right; auto]. }
    subst d'. rewrite (step_working _ d cur p Hw). unfold handle.
      rewrite (render_working d cur p Hw).
    rewrite Hcur, Hsel. simpl. auto.
Qed.
End PresetEventFacts.

Lemma example_working :
  working example_uuids example_dialog [example_preset "S1" "Default"]
    (example_preset "F1" "Small").
Proof.
  split; [vm_compute; reflexivity|]. exists (str "F1"). right.
  split; [vm_compute; reflexivity|]. split; [discriminate | vm_compute; reflexivity].
Defined.

Lemma duplicate_selects_copy_witness :
  let d' := step (str "Default") example_uuids EvDuplicate example_dialog in
  localCurrentPresets d'
  = Some [example_preset "S1" "Default"; example_preset "uuid-0" "Small"] /\
  (render (str "Default") example_uuids d').1 = example_preset "uuid-0" "Small".
Proof.
  destruct (duplicate_selects_copy (str "Default") example_uuids example_dialog
              [example_preset "S1" "Default"] (example_preset "F1" "Small") example_working)
    as [H1 [_ H3]].
  - intros E. vm_compute in E. discriminate E.
  - repeat constructor. intros E. vm_compute in E. discriminate E.
  - cbv zeta in *. split.
    + rewrite H1. vm_compute. reflexivity.
    + rewrite H3. vm_compute. reflexivity.
Defined.

Lemma add_selects_new_preset_witness :
  let d' := step (str "Default") example_uuids EvAdd example_dialog in
  localCurrentPresets d'
  = Some [example_preset "S1" "Default"; example_preset "uuid-0" "Small-01"] /\
  (render (str "Default") example_uuids d').1 = example_preset "uuid-0" "Small-01".
Proof.
  destruct (add_selects_new_preset (str "Default") example_uuids example_dialog
              [example_preset "S1" "Default"] (example_preset "F1" "Small") example_working)
    as [H1 [_ [_ [_ H5]]]].
  - intros E. vm_compute in E. discriminate E.
  - repeat constructor. intros E. vm_compute in E. discriminate E.
  - cbv zeta in *. split.
    + rewrite H1. vm_compute. reflexivity.
    + rewrite H5. vm_compute. reflexivity.
Defined.

Lemma delete_removes_selected_witness :
  let d' := step (str "Default") example_uuids EvDelete example_dialog_spool in
  localCurrentPresets d' = Some [example_preset "S2" "Small"] /\
  selectedPresetState d' = None /\
  (render (str "Default") example_uuids d').1 = example_preset "S2" "Small".
Proof.
  destruct (delete_removes_selected (str "Default") example_uuids example_dialog_spool
              [example_preset "S1" "Default"; example_preset "S2" "Small"]
              (example_preset "S1" "Default") (str "S1")) as [H _].
  - vm_compute. reflexivity.
  - destruct H as [H1 [H2 _]].
    + vm_compute. reflexivity.
    + vm_compute. reflexivity.
    + cbv zeta in *. split; [|split].
      * rewrite H1. vm_compute. reflexivity.
      * exact H2.
      * vm_compute. reflexivity.
Defined.

(** ** Rendering a template part by part *)

Section SegmentFacts.
Variable JSON_parse : jstring -> option jsval.
Variable obj : GenericObject.

Lemma strip_braces_tag t : brace_free t -> strip_braces ("{"%char :: t ++ ["}"%char]) = t.
Proof.
  intros Ht. unfold strip_braces. rewrite filter_cons. simpl.
  rewrite filter_app. simpl.
  destruct (decide (true = false)); [discriminate|].
  rewrite app_nil_r. clear -Ht. induction Ht as [|c t Hc _ IH]; [reflexivity|].
  rewrite filter_cons. destruct (decide (is_brace c = false)); [|contradiction].
  rewrite IH. reflexivity.
Qed.

Lemma count_open_tag t : brace_free t -> count_open ("{"%char :: t ++ ["}"%char]) = 1.
Proof.
  intros Ht. change ("{"%char :: t ++ ["}"%char]) with (["{"%char] ++ t ++ ["}"%char]).
  rewrite !count_open_app, (count_open_brace_free _ Ht). reflexivity.
Qed.

Lemma matchAll_tag t post :
  brace_free t ->
  matchAll (("{"%char :: t ++ ["}"%char]) ++ post)
  = ("{"%char :: t ++ ["}"%char]) :: matchAll post.
Proof.
  intros Ht. unfold matchAll.
  change (("{"%char :: t ++ ["}"%char]) ++ post)
    with ("{"%char :: (t ++ ["}"%char]) ++ post).
  apply matchAll_at_match. rewrite <- app_assoc. simpl.
  apply span_scan_tag_body, Ht.
Qed.

Lemma js_replace_tag pre t post repl :
  open_free pre -> dollar_free repl ->
  js_replace (pre ++ ("{"%char :: t ++ ["}"%char]) ++ post) ("{"%char :: t ++ ["}"%char]) repl
  = pre ++ repl ++ post.
Proof.
  intros Hpre Hrepl. unfold js_replace. simpl app.
  rewrite (find_first_open_free pre (t ++ ["}"%char]) post Hpre).
  rewrite (expand_replacement_dollar_free _ _ _ _ Hrepl). reflexivity.
Qed.

Lemma open_free_app a b : open_free a -> open_free b -> open_free (a ++ b).
Proof. intros Ha Hb. apply Forall_app. split; assumption. Qed.

Lemma render_segments pre segs vals :
  open_free pre ->
  Forall well_formed segs ->
  Forall2 (renders_to JSON_parse obj) segs vals ->
  render_matches JSON_parse obj (matchAll (template_of segs)) (pre ++ template_of segs)
  = Some (pre ++ concat vals).
Proof.
  intros Hpre Hwf Hvals. revert pre Hpre Hwf.
  induction Hvals as [|seg val segs vals [Hv [Hopen Hdollar]] _ IH]; intros pre Hpre Hwf.
  - reflexivity.
  - apply Forall_cons in Hwf as [Hseg Hwf].
    unfold template_of in *. cbn [map concat].
    destruct seg as [text|tag|p t s]; cbn [segment_text segment_value] in *.
    + injection Hv as <-. unfold matchAll at 1.
      rewrite (matchAll_open_free text _ Hseg). fold (matchAll (concat (map segment_text segs))).
      rewrite !(app_assoc pre). apply IH; [apply open_free_app; assumption | exact Hwf].
    + destruct (getTagValue JSON_parse tag obj) as [v|] eqn:Ev; [|discriminate].
      cbn [mbind option_bind] in Hv. unfold text_of_value in Hv.
      destruct (String_throws v) eqn:Eth; [discriminate|]. injection Hv as <-.
      rewrite (matchAll_tag tag _ Hseg). cbn [render_matches].
      rewrite (render_match_tag JSON_parse obj _ _ v (count_open_tag tag Hseg));
        [|rewrite (strip_braces_tag tag Hseg); exact Ev | exact Eth].
      rewrite (js_replace_tag pre tag _ _ Hpre Hdollar).
      rewrite !(app_assoc pre). apply IH; [apply open_free_app; assumption | exact Hwf].
    + destruct Hseg as [Hp [Ht [Hs [Lp [Lt Ls]]]]].
      destruct (getTagValue JSON_parse t obj) as [v|] eqn:Ev; [|discriminate].
      cbn [mbind option_bind] in Hv.
      assert (Hval : String_throws v = false /\
                     val = if is_sentinel v then [] else p ++ String_of v ++ s).
      { destruct (is_sentinel v) eqn:Es.
        - injection Hv as <-. split; [|reflexivity].
          destruct v; try discriminate. reflexivity.
        - unfold text_of_value in Hv.
          destruct (String_throws v); [discriminate|]. injection Hv as <-.
          split; reflexivity. }
      destruct Hval as [Eth ->].
      pose proof (matchAll_block [] p t s (concat (map segment_text segs))
                    (List.Forall_nil _) Hp Ht Hs) as Hm.
      cbn [app] in Hm. rewrite Hm. cbn [render_matches].
      rewrite (render_match_block JSON_parse obj _ p t s v Hp Ht Hs Lp Lt Ls Ev Eth).
      rewrite (js_replace_first_block pre p t s _ _ Hpre).
      rewrite (expand_replacement_dollar_free _ _ _ _ Hdollar).
      rewrite !(app_assoc pre). apply IH; [apply open_free_app; assumption | exact Hwf].
Qed.

Lemma render_template_of segs vals :
  Forall well_formed segs ->
  Forall2 (renders_to JSON_parse obj) segs vals ->
  renderTemplateText JSON_parse obj (template_of segs) = Some (concat vals).
Proof.
  intros Hwf Hvals. unfold renderTemplateText.
  exact (render_segments [] segs vals (List.Forall_nil _) Hwf Hvals).
Qed.

(** X7: a template made of literal text, tags and optional blocks, the
    parts of a block each on one line, renders to the concatenation, in
    order, of what stands for each part, when every tag resolves to a
    value that has a text and no substituted text holds an opening brace
    or a dollar sign: each tag is then replaced where it stands. *)
Theorem renderTemplateText_segments (segs : list Segment) (vals : list jstring) :
  Forall well_formed segs ->
  Forall2 (renders_to JSON_parse obj) segs vals ->
  renderTemplateText JSON_parse obj (template_of segs) = Some (concat vals).
Proof. exact (render_template_of segs vals). Qed.
End SegmentFacts.

Lemma renderTemplateText_segments_witness :
  renderTemplateText JSON_parse_scalar (record [("material", "PLA"); ("lot_nr", "?")])
    (str "M: {material}{ Lot {lot_nr}}!")
  = Some (str "M: PLA!").
Proof.
  apply (renderTemplateText_segments JSON_parse_scalar
           (record [("material", "PLA"); ("lot_nr", "?")])
           [Literal (str "M: "); Tag (str "material");
            Optional (str " Lot ") (str "lot_nr") []; Literal (str "!")]
           [str "M: "; str "PLA"; []; str "!"]).
  - repeat constructor.
  - repeat constructor.
Defined.

(** ** Tag paths *)

Lemma split_dot_nonempty s : split_dot s <> [].
Proof.
  destruct s as [|c r]; simpl; [discriminate|].
  destruct (ascii_eqb c "."%char); [discriminate|].
  destruct (split_dot r); discriminate.
Qed.

Lemma split_dot_dot_free k : dot_free k -> split_dot k = [k].
Proof.
  induction 1 as [|c k Hc _ IH]; simpl; [reflexivity|]. rewrite Hc, IH. reflexivity.
Qed.

Lemma split_dot_path k rest :
  dot_free k -> split_dot (k ++ "."%char :: rest) = k :: split_dot rest.
Proof.
  induction 1 as [|c k Hc _ IH]; simpl; [reflexivity|]. rewrite Hc, IH. reflexivity.
Qed.

(** Joining the parts of a tag with dots gives the tag back. *)
Lemma join_dot_split_dot s : join_dot (split_dot s) = s.
Proof.
  induction s as [|c r IH]; simpl; [reflexivity|].
  destruct (ascii_eqb c "."%char) eqn:Ec.
  - apply Ascii.eqb_eq in Ec. subst c.
    pose proof (split_dot_nonempty r) as Hne.
    destruct (split_dot r) as [|p ps] eqn:E; [contradiction|].
    cbn [join_dot]. simpl. f_equal. exact IH.
  - pose proof (split_dot_nonempty r) as Hne.
    destruct (split_dot r) as [|p ps] eqn:E; [contradiction|].
    destruct ps as [|q qs]; simpl in *; rewrite <- IH; reflexivity.
Qed.

Section TagPathFacts.
Variable JSON_parse : jstring -> option jsval.

Lemma look_field_lookup resolve inherited first fields :
  look_field resolve inherited first fields
  = match lookup_field first fields with
    | None => inherited
    | Some VUndefined | Some VNull => Some (VStr (str "?"))
    | Some (VObj o) => resolve o
    | Some v => Some v
    end.
Proof.
  induction fields as [|[k v] fields IH]; simpl; [reflexivity|].
  destruct (jstring_eqb k first); [destruct v; reflexivity | exact IH].
Qed.

(** X8: a tag is resolved one part at a time.  For a first part [k] that is
    not [extra], the tag [k] and every tag [k.sub] resolve by the value
    of the record's field [k]: an undefined or null value is the
    sentinel, an object is resolved further with what is left of the
    path (nothing, for the tag [k]), and any other value is the result,
    whatever the rest of the path says.  A [k] that is no field of the
    record is looked up in [Object.prototype]: a function that every
    plain object inherits is the result, whatever the rest of the path
    says, [__proto__] leads into the prototype, and any other key gives
    the sentinel. *)
Theorem getTagValue_by_first_part (k sub tag : jstring)
    (fields : list (jstring * jsval)) (extra : list (jstring * jstring)) :
  dot_free k -> k <> str "extra" ->
  (tag = k /\ sub = []) \/ tag = k ++ "."%char :: sub ->
  getTagValue JSON_parse tag (mkObject fields extra)
  = match lookup_field k fields with
    | Some VUndefined | Some VNull => Some (VStr (str "?"))
    | Some (VObj o) => getTagValue JSON_parse sub o
    | Some v => Some v
    | None =>
        if is_prototype_function k then Some (VFun k)
        else if jstring_eqb k (str "__proto__") then getTagValue_prototype sub
        else Some (VStr (str "?"))
    end.
Proof.
  intros Hk Hne Htag. cbn [getTagValue]. cbv zeta.
  assert (Hparts : split_dot tag = k :: tail (split_dot tag) /\
                   join_dot (tail (split_dot tag)) = sub).
  { destruct Htag as [[-> ->]| ->].
    - rewrite (split_dot_dot_free k Hk). split; reflexivity.
    - rewrite (split_dot_path k sub Hk). split; [reflexivity | apply join_dot_split_dot]. }
  destruct Hparts as [Hp Hj]. rewrite Hj. rewrite Hp. cbn [head default].
  unfold jstring_eqb at 1. rewrite bool_decide_eq_false_2 by exact Hne.
  rewrite look_field_lookup. unfold id.
  destruct (lookup_field k fields) as [v|]; [destruct v|]; reflexivity.
Qed.

(** X9: a tag that starts with the part [extra] reads the [extra] map under
    its second part only: a stored text is decoded by [JSON.parse], whose
    exception is the function's; a key that the map does not hold gives
    the sentinel, unless it names a property of [Object.prototype],
    whose text, the source of a built-in function or [[object Object]],
    is handed to [JSON.parse]; and neither a field named [extra] nor a
    longer path changes the result. *)
Theorem getTagValue_extra_key (key more : jstring)
    (fields : list (jstring * jsval)) (extra : list (jstring * jstring)) :
  dot_free key -> more = [] \/ (exists sub, more = "."%char :: sub) ->
  getTagValue JSON_parse (str "extra." ++ key ++ more) (mkObject fields extra)
  = match lookup_extra key extra with
    | Some extraValue => JSON_parse extraValue
    | None =>
        if is_prototype_function key then JSON_parse (native_source key)
        else if jstring_eqb key (str "__proto__") then JSON_parse (str "[object Object]")
        else Some (VStr (str "?"))
    end.
Proof.
  intros Hk Hmore. cbn [getTagValue]. cbv zeta.
  assert (Hparts : exists ps, split_dot (str "extra." ++ key ++ more)
                              = str "extra" :: key :: ps).
  { change (str "extra." ++ key ++ more) with (str "extra" ++ "."%char :: key ++ more).
    rewrite split_dot_path by (repeat constructor).
    destruct Hmore as [->|[sub ->]].
    - rewrite app_nil_r, (split_dot_dot_free key Hk). eexists. reflexivity.
    - rewrite (split_dot_path key sub Hk). eexists. reflexivity. }
  destruct Hparts as [ps ->]. cbn [head default lookup list_lookup]. unfold id.
  change (jstring_eqb (str "extra") (str "extra")) with true. cbv iota.
  destruct (lookup_extra key extra); [reflexivity|].
  unfold inherited_text. destruct (is_prototype_function key); [reflexivity|].
  destruct (jstring_eqb key (str "__proto__")); reflexivity.
Qed.

(** X10: rendering throws as soon as one tag throws: when the value of any
    tag of the template cannot be resolved, there is no output at all. *)
Theorem renderTemplateText_throws (obj : GenericObject) (template m : jstring) :
  m ∈ matchAll template ->
  count_open m = 1 ->
  getTagValue JSON_parse (strip_braces m) obj = None ->
  renderTemplateText JSON_parse obj template = None.
Proof.
  intros Hin Hc Hv. unfold renderTemplateText.
  generalize template at 2. intros txt. revert txt.
  induction (matchAll template) as [|m' ms IH]; intros txt; [inversion Hin|].
  cbn [render_matches]. apply elem_of_cons in Hin as [<-|Hin].
  - unfold render_match. rewrite Hc, Hv. reflexivity.
  - destruct (render_match JSON_parse obj txt m'); [apply IH, Hin | reflexivity].
Qed.
End TagPathFacts.

Lemma getTagValue_by_first_part_witness :
  getTagValue JSON_parse_scalar (str "filament.name")
    (mkObject [(str "filament", VObj (record [("name", "PLA")]))] [])
  = Some (VStr (str "PLA")) /\
  getTagValue JSON_parse_scalar (str "id.unit") (mkObject [(str "id", VNum (str "7"))] [])
  = Some (VNum (str "7")) /\
  getTagValue JSON_parse_scalar (str "constructor.name")
    (mkObject [(str "id", VNum (str "7"))] [])
  = Some (VFun (str "constructor")) /\
  getTagValue JSON_parse_scalar (str "lot_nr") (mkObject [(str "id", VNum (str "7"))] [])
  = Some (VStr (str "?")).
Proof.
  split; [|split; [|split]].
  - rewrite (getTagValue_by_first_part JSON_parse_scalar (str "filament") (str "name")).
    + reflexivity.
    + repeat constructor.
    + discriminate.
    + right. reflexivity.
  - rewrite (getTagValue_by_first_part JSON_parse_scalar (str "id") (str "unit")).
    + reflexivity.
    + repeat constructor.
    + discriminate.
    + right. reflexivity.
  - rewrite (getTagValue_by_first_part JSON_parse_scalar (str "constructor") (str "name")).
    + reflexivity.
    + repeat constructor.
    + discriminate.
    + right. reflexivity.
  - rewrite (getTagValue_by_first_part JSON_parse_scalar (str "lot_nr") []).
    + reflexivity.
    + repeat constructor.
    + discriminate.
    + left. split; reflexivity.
Defined.

Lemma getTagValue_extra_key_witness :
  getTagValue JSON_parse_scalar (str "extra.batch.x")
    (mkObject [(str "extra", VStr (str "shadowed"))] [(str "batch", str "true")])
  = Some (VBool true) /\
  getTagValue JSON_parse_scalar (str "extra.toString") (mkObject [] [(str "batch", str "true")])
  = None.
Proof.
  split.
  - rewrite (getTagValue_extra_key JSON_parse_scalar (str "batch") (str ".x")).
    + reflexivity.
    + repeat constructor.
    + right. exists (str "x"). reflexivity.
  - rewrite (getTagValue_extra_key JSON_parse_scalar (str "toString") []).
    + reflexivity.
    + repeat constructor.
    + left. reflexivity.
Defined.

Lemma renderTemplateText_throws_witness :
  renderTemplateText JSON_parse_scalar (mkObject [] [(str "batch", str "oops")])
    (str "Lot {extra.batch} of {id}")
  = None.
Proof.
  apply (renderTemplateText_throws JSON_parse_scalar _ _ (str "{extra.batch}")).
  - vm_compute. left.
  - reflexivity.
  - reflexivity.
Defined.

(** ** Export file names *)

Lemma pretty_N_char_digit x : is_digit (pretty_N_char x) = true.
Proof.
  destruct x as [|p]; [reflexivity|].
  do 4 (try (destruct p as [p|p|])); reflexivity.
Qed.

Lemma String_of_nat_digits n : Forall (fun c => is_digit c = true) (String_of_nat n).
Proof.
  unfold String_of_nat, pretty, pretty_nat. generalize (N.of_nat n). clear n. intros x.
  induction (N.lt_wf_0 x) as [x _ IH].
  destruct (decide (x < 10)%N) as [Hlt|Hge].
  - rewrite pretty_N_lt_10 by exact Hlt. repeat constructor. apply pretty_N_char_digit.
  - rewrite pretty_N_ge_10 by lia. rewrite str_app. apply Forall_app. split.
    + apply IH. apply N.div_lt; lia.
    + repeat constructor. apply pretty_N_char_digit.
Qed.

Lemma digit_plain c :
  is_digit c = true ->
  is_disallowed c = false /\ is_js_space c = false /\ is_dot c = false.
Proof.
  destruct c as [[] [] [] [] [] [] [] []]; intros H; try discriminate H;
    repeat split; reflexivity.
Qed.

Lemma String_of_nat_nonempty n : String_of_nat n <> [].
Proof.
  destruct (le_lt_dec 10 n) as [Hn|Hn].
  - destruct (String_of_nat_ge_10 n Hn) as [c [d [r [E _]]]]. rewrite E. discriminate.
  - rewrite String_of_nat_lt_10 by exact Hn. discriminate.
Qed.

Lemma ws_ok_no_space b s :
  Forall (fun c => is_js_space c = false) s -> ws_ok b s = true.
Proof.
  intros H. revert b. induction H as [|c s Hc _ IH]; intros b; simpl; [reflexivity|].
  rewrite Hc. apply IH.
Qed.

(** A name that is already in the shape [sanitizeFilename] produces and
    does not end in white space is left as it is. *)
Lemma sanitizeFilename_fixed s :
  allowed s -> ws_ok false s = true ->
  (forall c, head s = Some c -> is_js_space c = false) ->
  (forall c, last s = Some c -> is_js_space c = false /\ is_dot c = false) ->
  sanitizeFilename s = s.
Proof.
  intros Hal Hok Hhead Hlast. unfold sanitizeFilename.
  rewrite (trim_id s Hhead) by (intros c Hc; apply (Hlast c Hc)).
  destruct s as [|c0 r] eqn:Es; [reflexivity|].
  rewrite (allowed_replace_id _ Hal), (ws_ok_collapse_id _ _ Hok).
  apply drop_trailing_id. intros c Hc. apply (Hlast c Hc).
Qed.

Lemma label_idx_plain idx :
  Forall (fun c => is_disallowed c = false /\ is_js_space c = false /\ is_dot c = false)
    (label_idx idx).
Proof.
  unfold label_idx. apply Forall_app. split.
  - repeat constructor.
  - eapply Forall_impl; [apply String_of_nat_digits|]. intros c Hc. apply digit_plain, Hc.
Qed.

Lemma label_idx_nonempty idx : label_idx idx <> [].
Proof. unfold label_idx. discriminate. Qed.

Lemma plain_fixed s :
  Forall (fun c => is_disallowed c = false /\ is_js_space c = false /\ is_dot c = false) s ->
  sanitizeFilename s = s /\ trim s = s.
Proof.
  intros H.
  assert (Hhead : forall c, head s = Some c -> is_js_space c = false).
  { intros c Hc. destruct s as [|d r]; [discriminate|]. injection Hc as <-.
    apply Forall_cons in H as [[_ [Hs _]] _]. exact Hs. }
  assert (Hlast : forall c, last s = Some c -> is_js_space c = false /\ is_dot c = false).
  { intros c Hc. apply last_Some in Hc as [l' ->]. apply Forall_app in H as [_ H].
    apply Forall_cons in H as [[_ [Hs Hd]] _]. auto. }
  split.
  - apply sanitizeFilename_fixed; [| |exact Hhead|exact Hlast].
    + eapply Forall_impl; [exact H|]. intros c [Hc _]. exact Hc.
    + apply ws_ok_no_space. eapply Forall_impl; [exact H|]. intros c [_ [Hc _]]. exact Hc.
  - apply trim_id; [exact Hhead|]. intros c Hc. apply (Hlast c Hc).
Qed.

Lemma trim_idem s : trim (trim s) = trim s.
Proof.
  apply trim_id; [apply trim_head|].
  intros c Hc. unfold trim in Hc. exact (drop_trailing_last _ _ _ Hc).
Qed.

Lemma sanitizeFilename_trim s : sanitizeFilename (trim s) = sanitizeFilename s.
Proof. unfold sanitizeFilename. rewrite trim_idem. reflexivity. Qed.

(** The preview and the export compute the same base name for an item. *)
Lemma preview_baseName item idx :
  or_else (sanitizePreviewFilename (trim (default (label_idx idx) (dataAmlName item))))
    (label_idx idx)
  = baseName item idx.
Proof.
  change sanitizePreviewFilename with sanitizeFilename.
  unfold baseName, rawName. rewrite sanitizeFilename_trim.
  destruct (plain_fixed _ (label_idx_plain idx)) as [Hs _].
  destruct (dataAmlName item) as [[|c r]|]; simpl default; simpl or_else at 2.
  - rewrite Hs. pose proof (label_idx_nonempty idx) as Hne.
    destruct (label_idx idx); [contradiction | reflexivity].
  - reflexivity.
  - reflexivity.
Qed.

Lemma previewLoop_uniqueLoop (els hp : list Element) (used : gset jstring) (idx : nat) :
  NoDup (hp ++ els) ->
  previewLoop (dataAmlName <$> els) used idx
  = (fun named => named.*2) <$> uniqueLoop els hp used idx.
Proof.
  revert hp used idx. induction els as [|item rest IH]; intros hp used idx Hnd; simpl;
    [reflexivity|].
  assert (Hitem : item ∉ hp).
  { apply NoDup_app in Hnd as [_ [Hd _]]. intros Hi. apply (Hd item Hi). left. }
  rewrite (existsb_isEqualNode_false _ _ Hitem).
  rewrite preview_baseName.
  destruct (safeName_for used (baseName item idx)) as [n|]; [|reflexivity].
  rewrite (IH (hp ++ [item])) by (rewrite <- app_assoc; exact Hnd).
  destruct (uniqueLoop rest (hp ++ [item]) ({[ n ]} ∪ used) (S idx)); reflexivity.
Qed.

(** X11: the file names shown under the preview are, in order, the names the
    export writes, as long as no two label nodes are equal; equal nodes
    are exported once but previewed each under a name of its own. *)
Theorem previewFilenameBases_export_names (els : list Element) :
  NoDup els ->
  previewFilenameBases (dataAmlName <$> els)
  = (fun named => named.*2) <$> getUniqueExportItems els.
Proof. intros Hnd. apply (previewLoop_uniqueLoop els []). exact Hnd. Qed.

Lemma existsb_isEqualNode_true item (hp : list Element) :
  item ∈ hp -> existsb (isEqualNode item) hp = true.
Proof.
  intros Hin. apply existsb_exists. exists item. split.
  - apply list_elem_of_In. exact Hin.
  - unfold isEqualNode. apply bool_decide_eq_true. reflexivity.
Qed.

Lemma uniqueLoop_items (items hp : list Element) (used : gset jstring) (idx : nat) named :
  uniqueLoop items hp used idx = Some named ->
  NoDup hp ->
  NoDup (hp ++ named.*1) /\
  (forall x, x ∈ named.*1 <-> x ∈ items /\ x ∉ hp) /\
  sublist (named.*1) items.
Proof.
  revert hp used idx named. induction items as [|item rest IH]; intros hp used idx named; simpl.
  - intros [= <-] Hnd. simpl. rewrite app_nil_r. split; [exact Hnd|]. split.
    + intros x. split; [intros H; inversion H | intros [H _]; inversion H].
    + constructor.
  - destruct (decide (item ∈ hp)) as [Hin|Hout].
    + rewrite (existsb_isEqualNode_true _ _ Hin). intros H Hnd.
      destruct (IH _ _ _ _ H Hnd) as [H1 [H2 H3]]. split; [exact H1|]. split.
      * intros x. rewrite H2. split.
        -- intros [Hx Hn]. split; [right; exact Hx | exact Hn].
        -- intros [Hx Hn]. split; [|exact Hn].
           apply elem_of_cons in Hx as [->|Hx]; [contradiction | exact Hx].
      * apply sublist_cons. exact H3.
    + rewrite (existsb_isEqualNode_false _ _ Hout).
      destruct (safeName_for used (baseName item idx)) as [n|]; [|discriminate].
      destruct (uniqueLoop rest (hp ++ [item]) ({[ n ]} ∪ used) (S idx)) as [more|] eqn:Em;
        [|discriminate].
      intros [= <-] Hnd.
      assert (Hnd' : NoDup (hp ++ [item])).
      { apply NoDup_app. split; [exact Hnd|]. split.
        - intros x Hx Hi. apply list_elem_of_singleton in Hi. subst x. contradiction.
        - apply NoDup_singleton. }
      destruct (IH _ _ _ _ Em Hnd') as [H1 [H2 H3]]. simpl.
      split; [rewrite <- app_assoc in H1; exact H1|]. split.
      * intros x. rewrite elem_of_cons, H2. split.
        -- intros [->|[Hx Hn]].
           ++ split; [left | exact Hout].
           ++ split; [right; exact Hx|]. intros Hh. apply Hn, elem_of_app. left. exact Hh.
        -- intros [Hx Hn]. apply elem_of_cons in Hx as [->|Hx]; [left; reflexivity|].
           destruct (decide (x = item)) as [->|Hne]; [left; reflexivity|].
           right. split; [exact Hx|]. intros Hh. apply elem_of_app in Hh as [Hh|Hh].
           ++ contradiction.
           ++ apply list_elem_of_singleton in Hh. contradiction.
      * apply sublist_skip. exact H3.
Qed.

(** A file name is usable: not empty and free of the characters that
    [sanitizeFilename] replaces. *)
Lemma baseName_usable item idx : baseName item idx <> [] /\ allowed (baseName item idx).
Proof.
  unfold baseName.
  destruct (sanitizeFilename (rawName item idx)) as [|c r] eqn:E; simpl.
  - split; [apply label_idx_nonempty|].
    eapply Forall_impl; [apply label_idx_plain|]. intros c [Hc _]. exact Hc.
  - split; [discriminate|]. rewrite <- E.
    exact (proj1 (sanitizeFilename_shape (rawName item idx))).
Qed.

Lemma padStart_allowed n : allowed (padStart 2 "0"%char (String_of_nat n)).
Proof.
  unfold padStart. apply Forall_app. split.
  - apply Forall_forall. intros c Hc. apply list_elem_of_In, repeat_spec in Hc. subst c.
    reflexivity.
  - eapply Forall_impl; [apply String_of_nat_digits|]. intros c Hc.
    exact (proj1 (digit_plain c Hc)).
Qed.

Lemma safeName_for_usable (used : gset jstring) base n :
  base <> [] -> allowed base -> safeName_for used base = Some n -> n <> [] /\ allowed n.
Proof.
  intros Hne Hal. unfold safeName_for. destruct (decide (base ∈ used)).
  - intros H. apply next_free_spec in H as [j [_ [-> _]]]. unfold suffixed. split.
    + destruct base; [contradiction | discriminate].
    + apply Forall_app. split; [exact Hal | apply padStart_allowed].
  - intros [= <-]. auto.
Qed.

Lemma uniqueLoop_usable (items hp : list Element) (used : gset jstring) (idx : nat) named :
  uniqueLoop items hp used idx = Some named ->
  Forall (fun n => n <> [] /\ allowed n) (named.*2).
Proof.
  revert hp used idx named. induction items as [|item rest IH]; intros hp used idx named; simpl.
  - intros [= <-]. constructor.
  - destruct (existsb (isEqualNode item) hp); [apply IH|].
    destruct (safeName_for used (baseName item idx)) as [n|] eqn:En; [|discriminate].
    destruct (uniqueLoop rest (hp ++ [item]) ({[ n ]} ∪ used) (S idx)) as [more|] eqn:Em;
      [|discriminate].
    intros [= <-]. simpl. constructor; [|exact (IH _ _ _ _ Em)].
    destruct (baseName_usable item idx) as [Hne Hal].
    exact (safeName_for_usable used _ n Hne Hal En).
Qed.

(** X12: every run of [getUniqueExportItems] ends, whatever the labels: it
    returns each distinct label node once, in the order of the page, each
    with a name that is not empty, holds none of the characters
    [sanitizeFilename] replaces, and differs from the name of every other
    label. *)
Theorem getUniqueExportItems_one_file_per_label (items : list Element) :
  exists named,
    getUniqueExportItems items = Some named /\
    NoDup (named.*1) /\
    (forall x, x ∈ named.*1 <-> x ∈ items) /\
    sublist (named.*1) items /\
    NoDup (named.*2) /\
    Forall (fun n => n <> [] /\ allowed n) (named.*2).
Proof.
  destruct (getUniqueExportItems_total items) as [named E]. exists named.
  split; [exact E|].
  destruct (uniqueLoop_items items [] ∅ 1 named E NoDup_nil_2) as [H1 [H2 H3]].
  split; [exact H1|]. split.
  - intros x. rewrite H2. split; [intros [Hx _]; exact Hx|].
    intros Hx. split; [exact Hx | intros Hn; inversion Hn].
  - split; [exact H3|]. split.
    + exact (getUniqueExportItems_NoDup items named E).
    + exact (uniqueLoop_usable items [] ∅ 1 named E).
Qed.

(** ** Sanitised names *)

Lemma drop_leading_length p s : length (drop_leading p s) <= length s.
Proof. induction s as [|c r IH]; simpl; [lia|]. destruct (p c); simpl; lia. Qed.

Lemma drop_trailing_length p s : length (drop_trailing p s) <= length s.
Proof.
  destruct (drop_trailing_split p s) as [t [E _]]. rewrite E at 2. rewrite length_app. lia.
Qed.

Lemma collapse_ws_length b s : length (collapse_ws b s) <= length s.
Proof.
  revert b. induction s as [|c r IH]; intros b; simpl; [lia|].
  destruct (is_js_space c); [destruct b|]; simpl;
    [pose proof (IH true) | pose proof (IH true) | pose proof (IH false)]; lia.
Qed.

(** X13: a sanitised name is never longer than the raw name, holds none of the
    characters that are replaced by a dash, has no white space other than
    single spaces between other characters or at its end, and does not end
    in a dot. *)
Theorem sanitizeFilename_safe (x : jstring) :
  let s := sanitizeFilename x in
  length s <= length x /\
  allowed s /\
  ws_ok false s = true /\
  (forall c, head s = Some c -> is_js_space c = false) /\
  (forall c, last s = Some c -> is_dot c = false).
Proof.
  split; [|apply sanitizeFilename_shape].
  unfold sanitizeFilename.
  assert (Ht : length (trim x) <= length x).
  { unfold trim. pose proof (drop_trailing_length is_js_space (drop_leading is_js_space x)).
    pose proof (drop_leading_length is_js_space x). lia. }
  destruct (trim x) as [|c0 t] eqn:Et; [simpl; lia|].
  unfold strip_trailing_dots.
  pose proof (drop_trailing_length is_dot
                (collapse_ws false (replace_disallowed (c0 :: t)))) as H1.
  pose proof (collapse_ws_length false (replace_disallowed (c0 :: t))) as H2.
  unfold replace_disallowed in H2 at 2. rewrite length_map in H2. lia.
Qed.

Lemma previewFilenameBases_export_names_witness :
  previewFilenameBases [Some (str "PLA"); Some (str "PLA"); None]
  = Some [str "PLA"; str "PLA01"; str "label-3"].
Proof.
  assert (Hnd : NoDup [mkElement (Some (str "PLA")) (str "1");
                       mkElement (Some (str "PLA")) (str "2"); mkElement None (str "3")])
    by (apply (bool_decide_unpack _); vm_compute; exact I).
  pose proof (previewFilenameBases_export_names _ Hnd) as E.
  cbn [fmap list_fmap dataAmlName] in E. rewrite E. vm_compute. reflexivity.
Defined.

(** ** XML escaping *)

Lemma flat_map_flat_map {A B C : Type} (f : B -> list C) (g : A -> list B) (l : list A) :
  flat_map f (flat_map g l) = flat_map (fun a => flat_map f (g a)) l.
Proof.
  induction l as [|a l IH]; simpl; [reflexivity|]. rewrite flat_map_app, IH. reflexivity.
Qed.

Lemma escapeXml_flat_map s : escapeXml s = flat_map xml_entity s.
Proof.
  unfold escapeXml, replace_unit. rewrite !flat_map_flat_map.
  apply flat_map_ext. intros c. destruct c as [[] [] [] [] [] [] [] []]; reflexivity.
Qed.

Lemma xml_entity_cases c :
  (c = "&" \/ c = "<" \/ c = ">" \/ c = "034" \/ c = "'")%char \/
  (xml_entity c = [c] /\ c <> "&"%char /\ is_xml_special c = false).
Proof.
  destruct c as [[] [] [] [] [] [] [] []];
    first [ right; split; [reflexivity | split; [discriminate | reflexivity]]
          | left; auto 6 ].
Qed.

Lemma xml_entity_inj c d a b :
  xml_entity c ++ a = xml_entity d ++ b -> c = d /\ a = b.
Proof.
  destruct (xml_entity_cases c) as [Hc|[Hc [Hc1 _]]], (xml_entity_cases d) as [Hd|[Hd [Hd1 _]]].
  - destruct Hc as [->|[->|[->|[->| ->]]]], Hd as [->|[->|[->|[->| ->]]]];
      simpl; intros H; try discriminate H; injection H as ->; auto.
  - rewrite Hd. destruct Hc as [->|[->|[->|[->| ->]]]]; simpl; intros H;
      injection H as H; symmetry in H; contradiction.
  - rewrite Hc. destruct Hd as [->|[->|[->|[->| ->]]]]; simpl; intros H;
      injection H as H; contradiction.
  - rewrite Hc, Hd. simpl. intros H. injection H as -> ->. auto.
Qed.

Lemma xml_entity_nonempty c : xml_entity c <> [].
Proof. destruct c as [[] [] [] [] [] [] [] []]; discriminate. Qed.

Lemma xml_entity_safe c : Forall (fun d => is_xml_special d = false) (xml_entity c).
Proof.
  destruct (xml_entity_cases c) as [Hc|[Hc [_ Hs]]].
  - destruct Hc as [->|[->|[->|[->| ->]]]]; repeat constructor.
  - rewrite Hc. repeat constructor. exact Hs.
Qed.

(** X14: the five replacements act as one pass that puts an entity for each of
    the five characters: an ampersand that an entity brings in is not
    escaped again.  The escaped text holds no angle bracket and no quote,
    and two names have the same escaped text only if they are equal. *)
Theorem escapeXml_entities :
  (forall s, escapeXml s = flat_map xml_entity s) /\
  (forall s, Forall (fun c => is_xml_special c = false) (escapeXml s)) /\
  (forall a b, escapeXml a = escapeXml b -> a = b).
Proof.
  split; [exact escapeXml_flat_map|]. split.
  - intros s. rewrite escapeXml_flat_map. induction s as [|c s IH]; simpl; [constructor|].
    apply Forall_app. split; [apply xml_entity_safe | exact IH].
  - intros a b. rewrite !escapeXml_flat_map. revert b.
    induction a as [|c a IH]; intros [|d b]; simpl.
    + reflexivity.
    + intros H. symmetry in H. apply app_eq_nil in H as [H _].
      exfalso. exact (xml_entity_nonempty d H).
    + intros H. apply app_eq_nil in H as [H _]. exfalso. exact (xml_entity_nonempty c H).
    + intros H. apply xml_entity_inj in H as [-> H]. f_equal. exact (IH b H).
Qed.

(** ** Export resolution *)

(** X15: the pixel ratio handed to the rasteriser always lies between 1 and 10:
    it is the resolution over 96 dpi for 96 to 960 dpi, 1 below and 10
    above; a resolution that is missing or zero counts as 300 dpi. *)
Theorem exportPixelRatio_bounds (ps : PrintSettings.t) :
  (1 <= exportPixelRatio ps <= 10)%Q /\
  (PrintSettings.exportDpi ps = None -> (exportPixelRatio ps == 25 # 8)%Q) /\
  (forall dpi, PrintSettings.exportDpi ps = Some dpi ->
     ((dpi == 0)%Q -> (exportPixelRatio ps == 25 # 8)%Q) /\
     (~ (dpi == 0)%Q -> (dpi <= 96)%Q -> (exportPixelRatio ps == 1)%Q) /\
     ((96 <= dpi)%Q -> (dpi <= 960)%Q -> (exportPixelRatio ps == dpi / 96)%Q) /\
     ((960 <= dpi)%Q -> (exportPixelRatio ps == 10)%Q)).
Proof.
  unfold exportPixelRatio, exportDpi. split; [|split].
  - split; [apply Q.le_max_l|]. apply Q.max_lub; [lra | apply Q.le_min_r].
  - intros ->. reflexivity.
  - intros dpi ->. destruct (Qeq_bool dpi 0) eqn:E.
    + apply Qeq_bool_iff in E. repeat split; intros; try reflexivity; try contradiction.
      * rewrite E in *. lra.
      * rewrite E in *. lra.
    + assert (Hne : ~ (dpi == 0)%Q) by (intros H; apply Qeq_bool_iff in H; congruence).
      assert (Hdiv : (dpi / 96 == dpi * (1 # 96))%Q) by reflexivity.
      repeat split; intros; try contradiction.
      * rewrite Q.min_l by (rewrite Hdiv; lra). apply Q.max_l. rewrite Hdiv. lra.
      * rewrite Q.min_l by (rewrite Hdiv; lra). apply Q.max_r. rewrite Hdiv. lra.
      * rewrite Q.min_r by (rewrite Hdiv; lra). apply Q.max_r. lra.
Qed.

(** ** QR code size and title scale *)

Lemma round_half_up_near x :
  (x - (1 # 2) < inject_Z (round_half_up x) <= x + (1 # 2))%Q.
Proof.
  unfold round_half_up.
  pose proof (Qfloor_le (x + (1 # 2))) as H1.
  pose proof (Qlt_floor (x + (1 # 2))) as H2.
  rewrite inject_Z_plus in H2. change (inject_Z 1) with 1%Q in H2. lra.
Qed.


Lemma tenth_bounds (z : Z) (lo hi : Z) :
  (lo <= z <= hi)%Z -> (inject_Z lo / 10 <= inject_Z z / 10 <= inject_Z hi / 10)%Q.
Proof.
  intros [H1 H2]. rewrite Zle_Qle in H1, H2.
  unfold Qdiv. change (/ 10)%Q with (1 # 10)%Q. lra.
Qed.


Lemma toFixed_comp_nonneg d x y :
  (0 <= x)%Q -> (x == y)%Q -> (toFixed d x == toFixed d y)%Q.
Proof.
  intros Hx E. apply Qle_antisym; apply toFixed_mono; lra.
Qed.

Lemma toFixed_4_near x :
  (0 <= x)%Q -> (x - (1 # 20000) <= toFixed 4 x <= x + (1 # 20000))%Q.
Proof.
  intros Hx. rewrite toFixed_nonneg by exact Hx.
  change (inject_Z (10 ^ Z.of_nat 4)) with 10000%Q.
  pose proof (round_half_up_near (x * 10000)) as [H1 H2].
  set (f := inject_Z (round_half_up (x * 10000))) in *.
  assert (Hq : (f / 10000 == f * (1 # 10000))%Q) by reflexivity.
  rewrite Hq. lra.
Qed.

(** X17: a title that fits is not shrunk: for a positive available width
    and a positive content width, 32-bit integers as the DOM reports
    them, when the content width at scale 1, as the doubles give it, is at
    most the available width, the stored scale is 1.  Otherwise the scale
    is the ratio of the available width to that content width, moved by at
    most 0.00005 by the rounding to four decimals and by at most [2^-52]
    by the rounding of the doubles. *)
Theorem fitScale_ratio (availableWidth neededWidth : Z) (scale : Q) :
  (0 < availableWidth)%Z -> (0 < neededWidth < 2 ^ 31)%Z ->
  let needed := unscaledNeededWidth neededWidth scale in
  let fitted := fitScale true (Some (availableWidth, neededWidth)) scale in
  ((needed <= inject_Z availableWidth)%Q -> (fitted == 1)%Q) /\
  ((inject_Z availableWidth < needed)%Q ->
   (inject_Z availableWidth / needed - ((1 # 20000) + 2 ^ (-52)) <= fitted
    <= inject_Z availableWidth / needed + ((1 # 20000) + 2 ^ (-52)))%Q).
Proof.
  intros Ha Hn u fitted. subst fitted. rewrite (fitScale_measured _ _ _ Ha Hn).
  unfold nextScale. fold u.
  assert (Ha1 : (1 <= inject_Z availableWidth)%Q).
  { change 1%Q with (inject_Z 1). rewrite <- Zle_Qle. lia. }
  split.
  - intros Hfit.
    assert (Hm : (Qmax u 1 <= inject_Z availableWidth)%Q) by (apply Q.max_lub; lra).
    assert (Hm1 : (1 <= Qmax u 1)%Q) by apply Q.le_max_r.
    assert (H1 : (1 <= inject_Z availableWidth / Qmax u 1)%Q).
    { apply Qle_shift_div_l; lra. }
    pose proof (binary64_ge_1 _ H1) as H2.
    unfold Number_toFixed.
    rewrite (binary64_comp _ 1); [exact binary64_one|].
    rewrite (toFixed_comp_nonneg 4 _ 1); [reflexivity | | apply Q.min_l; exact H2].
    apply Q.min_glb; lra.
  - intros Hbig.
    assert (Hm : (Qmax u 1 == u)%Q) by (apply Q.max_l; lra).
    assert (Hq : (inject_Z availableWidth / Qmax u 1 == inject_Z availableWidth / u)%Q)
      by (rewrite Hm; reflexivity).
    rewrite (binary64_comp _ _ Hq).
    set (q := (inject_Z availableWidth / u)%Q) in *.
    assert (Hq01 : (0 <= q <= 1)%Q).
    { split; [apply Qle_shift_div_l | apply Qle_shift_div_r]; lra. }
    pose proof (binary64_near_unit q Hq01) as [R1 R2].
    pose proof (binary64_le_1 q (proj2 Hq01)) as R3.
    pose proof (binary64_nonneg q (proj1 Hq01)) as R4.
    set (r := binary64 q) in *.
    assert (Hmin : (Qmin 1 r == r)%Q) by (apply Q.min_r; exact R3).
    unfold Number_toFixed.
    assert (Hcomp : (toFixed 4 (Qmin 1 r) == toFixed 4 r)%Q).
    { apply toFixed_comp_nonneg; [rewrite Hmin; exact R4 | exact Hmin]. }
    rewrite (binary64_comp _ _ Hcomp).
    pose proof (toFixed_4_near r R4) as [T1 T2].
    assert (T3 : (0 <= toFixed 4 r <= 1)%Q).
    { split; [apply toFixed_ge_0; exact R4|].
      apply Qle_trans with (toFixed 4 1); [apply toFixed_mono; assumption | discriminate]. }
    pose proof (binary64_near_unit _ T3) as [B1 B2].
    assert (Hp : (2 ^ (-52) == 2 * 2 ^ (-53))%Q) by reflexivity.
    set (p := (2 ^ (-53))%Q) in *. set (t := toFixed 4 r) in *.
    rewrite Hp. lra.
Qed.

Lemma fitScale_ratio_witness :
  (fitScale true (Some (100, 50)%Z) 1 == 1)%Q /\
  (inject_Z 101 / unscaledNeededWidth 160 1 - ((1 # 20000) + 2 ^ (-52))
   <= fitScale true (Some (101, 160)%Z) 1
   <= inject_Z 101 / unscaledNeededWidth 160 1 + ((1 # 20000) + 2 ^ (-52)))%Q.
Proof.
  split.
  - apply (fitScale_ratio 100 50 1); [lia | lia | vm_compute; discriminate].
  - apply (fitScale_ratio 101 160 1); [lia | lia | vm_compute; reflexivity].
Defined.

(** ** Merging preset lists *)

Lemma ids_of_nil_union (seen : gset jstring) : ids_of [] ∪ seen = seen.
Proof. unfold ids_of. simpl. apply (left_id_L ∅ (∪)). Qed.

Lemma ids_of_cons_union (p : Preset) (l : list Preset) (seen : gset jstring) :
  ids_of (p :: l) ∪ seen = ids_of l ∪ ({[ preset_id p ]} ∪ seen).
Proof.
  unfold ids_of. rewrite fmap_cons. apply set_eq. intros x.
  rewrite !elem_of_union, !elem_of_list_to_set, elem_of_cons, elem_of_singleton. tauto.
Qed.

Lemma merge_list_first_by_id (l : list Preset) (seen : gset jstring) (merged : list Preset) :
  merge_list l seen merged
  = (ids_of (first_by_id l seen) ∪ seen, merged ++ first_by_id l seen).
Proof.
  revert seen merged. induction l as [|p l IH]; intros seen merged; simpl.
  - rewrite app_nil_r, ids_of_nil_union. reflexivity.
  - destruct (bool_decide (preset_id p = []) || bool_decide (preset_id p ∈ seen)).
    + apply IH.
    + rewrite IH. rewrite <- app_assoc. simpl. rewrite ids_of_cons_union. reflexivity.
Qed.

Lemma first_by_id_app (a b : list Preset) (seen : gset jstring) :
  first_by_id (a ++ b) seen
  = first_by_id a seen ++ first_by_id b (ids_of (first_by_id a seen) ∪ seen).
Proof.
  revert seen. induction a as [|p a IH]; intros seen; simpl.
  - rewrite ids_of_nil_union. reflexivity.
  - destruct (bool_decide (preset_id p = []) || bool_decide (preset_id p ∈ seen)).
    + apply IH.
    + simpl. f_equal. rewrite IH, ids_of_cons_union. reflexivity.
Qed.

Lemma merge_lists_first_by_id (ls : list (option (list Preset))) (seen : gset jstring)
    (merged : list Preset) :
  merge_lists ls seen merged = merged ++ first_by_id (loaded_presets ls) seen.
Proof.
  revert seen merged. induction ls as [|[l|] ls IH]; intros seen merged; simpl.
  - rewrite app_nil_r. reflexivity.
  - rewrite merge_list_first_by_id, IH. unfold loaded_presets. simpl.
    rewrite first_by_id_app, app_assoc. reflexivity.
  - apply IH.
Qed.

Lemma first_by_id_ids (l : list Preset) (seen : gset jstring) :
  Forall (fun p => preset_id p <> [] /\ preset_id p ∉ seen) (first_by_id l seen) /\
  NoDup (preset_id <$> first_by_id l seen).
Proof.
  revert seen. induction l as [|p l IH]; intros seen; simpl.
  - split; constructor.
  - destruct (bool_decide (preset_id p = [])) eqn:E1; simpl; [apply IH|].
    destruct (bool_decide (preset_id p ∈ seen)) eqn:E2; simpl; [apply IH|].
    apply bool_decide_eq_false in E1, E2.
    destruct (IH ({[ preset_id p ]} ∪ seen)) as [Hall Hnd]. split.
    + constructor; [auto|]. eapply Forall_impl; [exact Hall|].
      intros q [Hq1 Hq2]. split; [exact Hq1|].
      intros H. apply Hq2, elem_of_union_r, H.
    + simpl. constructor; [|exact Hnd]. intros Hin.
      apply list_elem_of_fmap in Hin as [q [Hq Hin]].
      rewrite Forall_forall in Hall. destruct (Hall q Hin) as [_ Hn].
      apply Hn, elem_of_union_l, elem_of_singleton. symmetry. exact Hq.
Qed.

Lemma first_by_id_sublist (l : list Preset) (seen : gset jstring) :
  sublist (first_by_id l seen) l.
Proof.
  revert seen. induction l as [|p l IH]; intros seen; simpl; [constructor|].
  destruct (bool_decide (preset_id p = []) || bool_decide (preset_id p ∈ seen)).
  - apply sublist_cons, IH.
  - apply sublist_skip, IH.
Qed.

Lemma first_by_id_covers (l : list Preset) (seen : gset jstring) p :
  p ∈ l -> preset_id p <> [] -> preset_id p ∉ seen ->
  exists q, q ∈ first_by_id l seen /\ preset_id q = preset_id p.
Proof.
  revert seen. induction l as [|x l IH]; intros seen Hin Hne Hns; [inversion Hin|]. simpl.
  destruct (bool_decide (preset_id x = [])) eqn:E1; simpl.
  { apply bool_decide_eq_true in E1. apply elem_of_cons in Hin as [->|Hin]; [contradiction|].
    exact (IH seen Hin Hne Hns). }
  destruct (bool_decide (preset_id x ∈ seen)) eqn:E2; simpl.
  { apply bool_decide_eq_true in E2. apply elem_of_cons in Hin as [->|Hin]; [contradiction|].
    exact (IH seen Hin Hne Hns). }
  destruct (decide (preset_id p = preset_id x)) as [E|E].
  - exists x. split; [left | symmetry; exact E].
  - apply elem_of_cons in Hin as [->|Hin]; [contradiction|].
    destruct (IH ({[ preset_id x ]} ∪ seen) Hin Hne) as [q [Hq Hid]].
    { intros H. apply elem_of_union in H as [H|H]; [|contradiction].
      apply elem_of_singleton in H. contradiction. }
    exists q. split; [right; exact Hq | exact Hid].
Qed.

Lemma find_preset_step i p presets :
  find_preset i (p :: presets)
  = if decide (preset_id p = i) then Some p else find_preset i presets.
Proof.
  unfold find_preset. simpl. destruct (decide (preset_id p = i)) as [E|E]; [reflexivity|].
  destruct (list_find _ presets) as [[k q]|]; reflexivity.
Qed.

Lemma first_by_id_first (l : list Preset) (seen : gset jstring) p :
  p ∈ first_by_id l seen -> find_preset (preset_id p) l = Some p.
Proof.
  revert seen. induction l as [|x l IH]; intros seen; simpl; [intros H; inversion H|].
  rewrite find_preset_step.
  destruct (bool_decide (preset_id x = [])) eqn:E1; simpl.
  { apply bool_decide_eq_true in E1. intros Hin.
    pose proof (first_by_id_ids l seen) as [Hall _]. rewrite Forall_forall in Hall.
    destruct (Hall p Hin) as [Hne _].
    destruct (decide (preset_id x = preset_id p)) as [E|E]; [congruence|].
    exact (IH seen Hin). }
  destruct (bool_decide (preset_id x ∈ seen)) eqn:E2; simpl.
  { apply bool_decide_eq_true in E2. intros Hin.
    pose proof (first_by_id_ids l seen) as [Hall _]. rewrite Forall_forall in Hall.
    destruct (Hall p Hin) as [_ Hns].
    destruct (decide (preset_id x = preset_id p)) as [E|E]; [congruence|].
    exact (IH seen Hin). }
  intros Hin. apply elem_of_cons in Hin as [->|Hin].
  - destruct (decide (preset_id x = preset_id x)); [reflexivity | contradiction].
  - pose proof (first_by_id_ids l ({[ preset_id x ]} ∪ seen)) as [Hall _].
    rewrite Forall_forall in Hall. destruct (Hall p Hin) as [_ Hns].
    destruct (decide (preset_id x = preset_id p)) as [E|E].
    { exfalso. apply Hns, elem_of_union_l, elem_of_singleton. symmetry. exact E. }
    exact (IH _ Hin).
Qed.

Lemma mergePrintPresets_eq (ls : list (option (list Preset))) :
  mergePrintPresets ls
  = let merged := first_by_id (loaded_presets ls) ∅ in
    if Nat.eqb (length merged) 0 && hasUnloadedList ls then None else Some merged.
Proof. unfold mergePrintPresets. rewrite merge_lists_first_by_id. reflexivity. Qed.

Lemma merged_first_by_id (ls : list (option (list Preset)))
    (merged : list Preset) :
  mergePrintPresets ls = Some merged ->
  NoDup (preset_id <$> merged) /\
  Forall (fun p => preset_id p <> []) merged /\
  sublist merged (loaded_presets ls) /\
  (forall p, p ∈ merged -> find_preset (preset_id p) (loaded_presets ls) = Some p) /\
  (forall p, p ∈ loaded_presets ls -> preset_id p <> [] ->
             exists q, q ∈ merged /\ preset_id q = preset_id p).
Proof.
  rewrite mergePrintPresets_eq. cbv zeta.
  destruct (Nat.eqb _ 0 && hasUnloadedList ls); [discriminate|]. intros [= <-].
  pose proof (first_by_id_ids (loaded_presets ls) ∅) as [Hall Hnd].
  split; [exact Hnd|]. split.
  - eapply Forall_impl; [exact Hall|]. intros p [Hp _]. exact Hp.
  - split; [apply first_by_id_sublist|]. split.
    + intros p. apply first_by_id_first.
    + intros p Hin Hne.
      apply first_by_id_covers; [exact Hin | exact Hne | apply not_elem_of_empty].
Qed.

(** X18: the merged list holds, in the order of the lists, the first preset of
    each non-empty id: its ids are pairwise distinct and not empty, every
    preset in it is the first one with its id among the loaded lists, and
    every non-empty id of a loaded list is the id of a merged preset. *)
Theorem mergePrintPresets_first_wins (ls : list (option (list Preset)))
    (merged : list Preset) :
  mergePrintPresets ls = Some merged ->
  NoDup (preset_id <$> merged) /\
  Forall (fun p => preset_id p <> []) merged /\
  sublist merged (loaded_presets ls) /\
  (forall p, p ∈ merged -> find_preset (preset_id p) (loaded_presets ls) = Some p) /\
  (forall p, p ∈ loaded_presets ls -> preset_id p <> [] ->
             exists q, q ∈ merged /\ preset_id q = preset_id p).
Proof. exact (merged_first_by_id ls merged). Qed.

Lemma first_by_id_nil_iff (l : list Preset) :
  first_by_id l ∅ = [] <-> Forall (fun p => preset_id p = []) l.
Proof.
  split.
  - intros E. apply Forall_forall. intros p Hin.
    destruct (decide (preset_id p = [])) as [|Hne]; [assumption|].
    destruct (first_by_id_covers l ∅ p Hin Hne) as [q [Hq _]]; [apply not_elem_of_empty|].
    rewrite E in Hq. inversion Hq.
  - induction 1 as [|p l Hp _ IH]; simpl; [reflexivity|].
    rewrite bool_decide_eq_true_2 by exact Hp. exact IH.
Qed.

Lemma hasUnloadedList_true (ls : list (option (list Preset))) :
  hasUnloadedList ls = true <-> None ∈ ls.
Proof.
  unfold hasUnloadedList. rewrite existsb_exists. split.
  - intros [[l|] [Hin H]]; [discriminate|]. apply list_elem_of_In. exact Hin.
  - intros Hin. exists None. split; [apply list_elem_of_In; exact Hin | reflexivity].
Qed.

(** X19: the result is undefined exactly when a list is still unloaded and no
    loaded preset carries an id; with every list loaded there is always a
    result, possibly the empty list. *)
Theorem mergePrintPresets_undefined (ls : list (option (list Preset))) :
  mergePrintPresets ls = None <->
  None ∈ ls /\ Forall (fun p => preset_id p = []) (loaded_presets ls).
Proof.
  rewrite mergePrintPresets_eq. cbv zeta.
  rewrite <- first_by_id_nil_iff, <- hasUnloadedList_true.
  destruct (first_by_id (loaded_presets ls) ∅) as [|p l]; simpl.
  - destruct (hasUnloadedList ls); split; try discriminate; auto.
    intros [H _]. discriminate.
  - split; [discriminate|]. intros [_ H]. discriminate.
Qed.

Lemma first_by_id_fixed (m : list Preset) (seen : gset jstring) :
  NoDup (preset_id <$> m) ->
  Forall (fun p => preset_id p <> [] /\ preset_id p ∉ seen) m ->
  first_by_id m seen = m.
Proof.
  revert seen. induction m as [|p m IH]; intros seen Hnd Hall; simpl; [reflexivity|].
  apply Forall_cons in Hall as [[Hne Hns] Hall]. simpl in Hnd.
  apply NoDup_cons in Hnd as [Hp Hnd].
  rewrite bool_decide_eq_false_2 by exact Hne.
  rewrite bool_decide_eq_false_2 by exact Hns. simpl. f_equal.
  apply IH; [exact Hnd|]. rewrite Forall_forall in Hall. apply Forall_forall.
  intros q Hq. destruct (Hall q Hq) as [Hq1 Hq2]. split; [exact Hq1|].
  intros Hin. apply elem_of_union in Hin as [Hin|Hin]; [|contradiction].
  apply elem_of_singleton in Hin. apply Hp. rewrite <- Hin.
  apply list_elem_of_fmap. exists q. auto.
Qed.

Lemma first_by_id_seen (l : list Preset) (seen : gset jstring) :
  Forall (fun p => preset_id p = [] \/ preset_id p ∈ seen) l ->
  first_by_id l seen = [].
Proof.
  induction 1 as [|p l Hp _ IH]; simpl; [reflexivity|].
  destruct Hp as [Hp|Hp].
  - rewrite bool_decide_eq_true_2 by exact Hp. exact IH.
  - rewrite (bool_decide_eq_true_2 (preset_id p ∈ seen)) by exact Hp.
    rewrite orb_true_r. exact IH.
Qed.

(** X20: merging is stable: putting the merged list in front of the lists it
    came from, or merging it alone, gives the merged list again. *)
Theorem mergePrintPresets_absorbs (ls : list (option (list Preset))) (merged : list Preset) :
  mergePrintPresets ls = Some merged ->
  mergePrintPresets (Some merged :: ls) = Some merged /\
  mergePrintPresets [Some merged] = Some merged.
Proof.
  intros H. pose proof (merged_first_by_id ls merged) as Hw.
  assert (Hm : merged = first_by_id (loaded_presets ls) ∅ /\
               (merged = [] -> hasUnloadedList ls = false)).
  { rewrite mergePrintPresets_eq in H. cbv zeta in H.
    destruct (first_by_id (loaded_presets ls) ∅) as [|p l] eqn:E; simpl in H.
    - destruct (hasUnloadedList ls); [discriminate|]. injection H as <-. auto.
    - injection H as <-. split; [reflexivity | discriminate]. }
  destruct Hm as [Hm Hempty].
  pose proof (first_by_id_ids (loaded_presets ls) ∅) as [Hall Hnd]. rewrite <- Hm in Hall, Hnd.
  assert (Hfix : first_by_id merged ∅ = merged) by (apply first_by_id_fixed; assumption).
  split.
  - rewrite mergePrintPresets_eq. cbv zeta.
    change (loaded_presets (Some merged :: ls)) with (merged ++ loaded_presets ls).
    rewrite first_by_id_app, Hfix.
    rewrite (first_by_id_seen (loaded_presets ls)).
    + rewrite app_nil_r. change (hasUnloadedList (Some merged :: ls)) with (hasUnloadedList ls).
      destruct merged as [|p m]; [rewrite (Hempty eq_refl)|]; reflexivity.
    + apply Forall_forall. intros p Hin.
      destruct (decide (preset_id p = [])) as [|Hne]; [left; assumption|]. right.
      destruct (first_by_id_covers (loaded_presets ls) ∅ p Hin Hne) as [q [Hq Hid]];
        [apply not_elem_of_empty|].
      rewrite <- Hm in Hq. apply elem_of_union_l. unfold ids_of.
      apply elem_of_list_to_set, list_elem_of_fmap. exists q. split; [symmetry|]; assumption.
  - rewrite mergePrintPresets_eq. cbv zeta.
    change (loaded_presets [Some merged]) with (merged ++ []). rewrite app_nil_r, Hfix.
    simpl. rewrite andb_false_r. reflexivity.
Qed.

Lemma mergePrintPresets_first_wins_witness :
  let lists := [Some [example_preset "a" "A"; example_preset "b" "B"]; None;
                Some [example_preset "a" "Other"; example_preset EmptyString "No id";
                      example_preset "c" "C"]] in
  let merged := [example_preset "a" "A"; example_preset "b" "B"; example_preset "c" "C"] in
  mergePrintPresets lists = Some merged /\
  NoDup (preset_id <$> merged) /\
  find_preset (str "a") (loaded_presets lists) = Some (example_preset "a" "A").
Proof.
  cbv zeta.
  assert (E : mergePrintPresets
                [Some [example_preset "a" "A"; example_preset "b" "B"]; None;
                 Some [example_preset "a" "Other"; example_preset EmptyString "No id";
                       example_preset "c" "C"]]
              = Some [example_preset "a" "A"; example_preset "b" "B"; example_preset "c" "C"])
    by (vm_compute; reflexivity).
  destruct (mergePrintPresets_first_wins _ _ E) as [H1 [_ [_ [H4 _]]]].
  split; [exact E|]. split; [exact H1|].
  apply (H4 (example_preset "a" "A")). left.
Defined.

Lemma mergePrintPresets_absorbs_witness :
  let merged := [example_preset "a" "A"; example_preset "b" "B"] in
  mergePrintPresets [Some merged; Some merged; Some [example_preset "b" "B2"]] = Some merged.
Proof.
  cbv zeta.
  apply (mergePrintPresets_absorbs
           [Some [example_preset "a" "A"; example_preset "b" "B"];
            Some [example_preset "b" "B2"]]
           [example_preset "a" "A"; example_preset "b" "B"]).
  vm_compute. reflexivity.
Defined.

(** ** Text formatting *)

Lemma strip_prefix_Some p s r : strip_prefix p s = Some r -> s = p ++ r.
Proof.
  revert s. induction p as [|a p IH]; intros s; simpl.
  - intros [= <-]. reflexivity.
  - destruct s as [|b s]; [discriminate|].
    destruct (ascii_eqb a b) eqn:E; [|discriminate].
    apply Ascii.eqb_eq in E. subst b. intros H. rewrite (IH _ H). reflexivity.
Qed.

Lemma find_first_Some pat text before after :
  find_first pat text = Some (before, after) -> text = before ++ pat ++ after.
Proof.
  revert before. induction text as [|c text IH]; intros before.
  - simpl. destruct (strip_prefix pat []) as [a|] eqn:E; [|discriminate].
    intros [= <- <-]. apply strip_prefix_Some in E. exact E.
  - simpl. destruct (strip_prefix pat (c :: text)) as [a|] eqn:E.
    + intros [= <- <-]. apply strip_prefix_Some in E. exact E.
    + destruct (find_first pat text) as [[b a]|]; [|discriminate].
      intros [= <- <-]. simpl. f_equal. apply IH. reflexivity.
Qed.

Lemma delimited_Some delim s m :
  delimited delim s = Some m ->
  exists content rest, m = delim ++ content ++ delim /\ s = m ++ rest.
Proof.
  unfold delimited. destruct (strip_prefix delim s) as [r|] eqn:E1; [|discriminate].
  destruct (find_first delim r) as [[content rest]|] eqn:E2; [|discriminate].
  intros [= <-]. exists content, rest. split; [reflexivity|].
  apply strip_prefix_Some in E1. apply find_first_Some in E2. subst s r.
  rewrite <- !app_assoc. reflexivity.
Qed.

Lemma format_match_Some s m :
  format_match s = Some m -> exists rest, s = m ++ rest /\ 4 <= length m.
Proof.
  unfold format_match. destruct (delimited (str "**") s) as [m1|] eqn:E1.
  - intros [= <-]. apply delimited_Some in E1 as [content [rest [-> ->]]].
    exists rest. split; [reflexivity|]. rewrite !length_app. simpl. lia.
  - intros E2. apply delimited_Some in E2 as [content [rest [-> ->]]].
    exists rest. split; [reflexivity|]. rewrite !length_app. simpl. lia.
Qed.

(** The pieces of the split, put together, are the text. *)
Lemma split_format_concat skip piece s :
  concat (split_format skip piece s) = rev piece ++ drop skip s.
Proof.
  revert skip piece. induction s as [|c r IH]; intros skip piece.
  - simpl. rewrite drop_nil, !app_nil_r. reflexivity.
  - destruct skip as [|k].
    + cbn [split_format]. destruct (format_match (c :: r)) as [m|] eqn:E.
      * apply format_match_Some in E as [rest [Es Hl]].
        cbn [concat]. rewrite IH. simpl rev. simpl app at 2. f_equal.
        destruct m as [|c' m']; [simpl in Hl; lia|].
        simpl in Es. injection Es as <- ->.
        replace (length (c :: m') - 1) with (length m') by (simpl; lia).
        rewrite drop_app_length. reflexivity.
      * rewrite IH. simpl. rewrite <- app_assoc. reflexivity.
    + cbn [split_format]. rewrite IH. reflexivity.
Qed.

Lemma concat_elem_length (part : jstring) (l : list jstring) :
  part ∈ l -> length part <= length (concat l).
Proof.
  induction 1 as [x l|x y l _ IH]; simpl; rewrite length_app; lia.
Qed.

Lemma split_format_piece_length text part :
  part ∈ split_format 0 [] text -> length part <= length text.
Proof.
  intros Hin. apply concat_elem_length in Hin.
  rewrite split_format_concat in Hin. exact Hin.
Qed.

Lemma startsWith_nonempty p s : p <> [] -> startsWith p s = true -> s <> [].
Proof.
  intros Hp. unfold startsWith. destruct p as [|a p]; [contradiction|].
  destruct s; [discriminate | discriminate].
Qed.

Lemma slice_2_2_shorter part : part <> [] -> length (slice_2_2 part) < length part.
Proof.
  intros Hne. unfold slice_2_2. rewrite length_take.
  destruct part; [contradiction|]. simpl length. lia.
Qed.

Lemma formatting_part fuel part :
  (if startsWith (str "**") part && endsWith (str "**") part
   then Bold (formatting fuel (slice_2_2 part))
   else if startsWith (str "==") part && endsWith (str "==") part
   then Inverted (formatting fuel (slice_2_2 part))
   else Span (applyNewline part))
  = format_part (formatting fuel) part.
Proof. reflexivity. Qed.

Lemma format_part_ext f g part :
  (part <> [] -> f (slice_2_2 part) = g (slice_2_2 part)) ->
  format_part f part = format_part g part.
Proof.
  intros H. unfold format_part. destruct part as [|c r]; [reflexivity|].
  rewrite H by discriminate. reflexivity.
Qed.

(** More fuel than the text has units changes nothing. *)
Lemma formatting_fuel f1 f2 text :
  length text < f1 -> length text < f2 -> formatting f1 text = formatting f2 text.
Proof.
  revert f2 text. induction f1 as [|f1 IH]; intros f2 text H1 H2; [lia|].
  destruct f2 as [|f2]; [lia|]. cbn [formatting].
  apply map_ext_in. intros part Hin. rewrite !formatting_part.
  apply format_part_ext. intros Hne.
  apply list_elem_of_In in Hin. apply split_format_piece_length in Hin.
  pose proof (slice_2_2_shorter part Hne). apply IH; lia.
Qed.

(** The equation of the source: each piece of the split becomes one
    element, and the content of a block is formatted in turn. *)
Lemma applyTextFormatting_eq text :
  applyTextFormatting text
  = map (format_part applyTextFormatting) (split_format 0 [] text).
Proof.
  unfold applyTextFormatting at 1. cbn [formatting].
  apply map_ext_in. intros part Hin. rewrite formatting_part.
  apply format_part_ext. intros Hne. unfold applyTextFormatting.
  apply list_elem_of_In in Hin. apply split_format_piece_length in Hin.
  pose proof (slice_2_2_shorter part Hne). apply formatting_fuel; lia.
Qed.

(** *** Lines *)

Lemma split_unit_nonempty sep s : split_unit sep s <> [].
Proof.
  destruct s as [|c r]; simpl; [discriminate|].
  destruct (ascii_eqb c sep); [discriminate|].
  destruct (split_unit sep r); discriminate.
Qed.

Lemma join_lines_split text : join_lines (split_unit "010"%char text) = text.
Proof.
  induction text as [|c r IH]; simpl; [reflexivity|].
  pose proof (split_unit_nonempty "010"%char r) as Hne.
  destruct (ascii_eqb c "010"%char) eqn:Ec.
  - apply Ascii.eqb_eq in Ec. subst c.
    destruct (split_unit "010"%char r) as [|p ps] eqn:E; [contradiction|].
    cbn [join_lines]. simpl. f_equal. exact IH.
  - destruct (split_unit "010"%char r) as [|p ps] eqn:E; [contradiction|].
    destruct ps as [|q qs]; simpl in *; rewrite <- IH; reflexivity.
Qed.

Lemma lines_text (arr : list jstring) (k : nat) :
  flat_map text_of
    (imap (fun idx line => Line line (Nat.ltb (k + idx) (k + length arr - 1))) arr)
  = join_lines arr.
Proof.
  revert k. induction arr as [|l rest IH]; intros k; [reflexivity|].
  rewrite imap_cons. cbn [flat_map text_of].
  rewrite (imap_ext _ (fun idx line =>
             Line line (Nat.ltb (S k + idx) (S k + length rest - 1))) rest).
  - rewrite IH. destruct rest as [|l2 rest].
    + simpl. replace (k + 0 <? k + 1 - 1) with false; [rewrite app_nil_r; reflexivity|].
      symmetry. apply Nat.ltb_ge. lia.
    + cbn [join_lines]. replace (k + 0 <? k + length (l :: l2 :: rest) - 1) with true.
      * rewrite <- app_assoc. reflexivity.
      * symmetry. apply Nat.ltb_lt. simpl. lia.
  - intros i x _. simpl. f_equal.
    replace (k + S i) with (S (k + i)) by lia.
    replace (k + S (length rest) - 1) with (S (k + length rest) - 1) by lia. reflexivity.
Qed.

(** The lines of [applyNewline], with a line feed for each [br], spell the
    text. *)
Lemma applyNewline_text text : flat_map text_of (applyNewline text) = text.
Proof.
  unfold applyNewline. cbv zeta.
  transitivity (join_lines (split_unit "010"%char text)); [|apply join_lines_split].
  exact (lines_text (split_unit "010"%char text) 0).
Qed.

(** *** What formatting keeps of the text *)

Lemma unmarked_app a b : unmarked (a ++ b) = unmarked a ++ unmarked b.
Proof. apply filter_app. Qed.

Lemma unmarked_markers s : Forall (fun c => is_marker c = true) s -> unmarked s = [].
Proof.
  induction 1 as [|c s Hc _ IH]; [reflexivity|].
  unfold unmarked in *. rewrite filter_cons, Hc.
  destruct (decide (true = false)); [discriminate | exact IH].
Qed.

Lemma startsWith_app p s : startsWith p s = true -> exists r, s = p ++ r.
Proof.
  unfold startsWith. destruct (strip_prefix p s) as [r|] eqn:E; [|discriminate].
  intros _. exists r. exact (strip_prefix_Some _ _ _ E).
Qed.

Lemma endsWith_app p s : endsWith p s = true -> exists r, s = r ++ p.
Proof.
  unfold endsWith. intros H. apply startsWith_app in H as [r E].
  exists (rev r). rewrite <- (rev_involutive s), E, rev_app_distr, rev_involutive.
  reflexivity.
Qed.

Lemma unmarked_slice d part :
  length d = 2 -> Forall (fun c => is_marker c = true) d ->
  startsWith d part = true -> endsWith d part = true ->
  unmarked (slice_2_2 part) = unmarked part.
Proof.
  intros Hd Hm Hs He.
  assert (Hsplit : part = take 2 part ++ slice_2_2 part
                          ++ drop (2 + (length part - 4)) part).
  { unfold slice_2_2. rewrite <- (take_drop 2 part) at 1. f_equal.
    rewrite <- (take_drop (length part - 4) (drop 2 part)) at 1. f_equal.
    rewrite drop_drop. reflexivity. }
  rewrite Hsplit at 2. rewrite !unmarked_app.
  assert (H1 : unmarked (take 2 part) = []).
  { apply unmarked_markers. apply startsWith_app in Hs as [r ->].
    rewrite <- Hd, take_app_length. exact Hm. }
  assert (H2 : unmarked (drop (2 + (length part - 4)) part) = []).
  { apply unmarked_markers. apply endsWith_app in He as [r ->].
    rewrite length_app, Hd.
    rewrite drop_app_ge by lia. apply Forall_drop. exact Hm. }
  rewrite H1, H2, app_nil_r. reflexivity.
Qed.

Lemma slice_2_2_sublist part : sublist (slice_2_2 part) part.
Proof.
  unfold slice_2_2. etransitivity; [apply sublist_take | apply sublist_drop].
Qed.

Lemma format_part_keeps part :
  (forall t, length t < length part ->
     sublist (flat_map text_of (applyTextFormatting t)) t /\
     unmarked (flat_map text_of (applyTextFormatting t)) = unmarked t) ->
  sublist (text_of (format_part applyTextFormatting part)) part /\
  unmarked (text_of (format_part applyTextFormatting part)) = unmarked part.
Proof.
  intros IH. unfold format_part.
  destruct (startsWith (str "**") part && endsWith (str "**") part) eqn:E1.
  - apply andb_prop in E1 as [Hs He].
    assert (Hne : part <> []) by (apply (startsWith_nonempty (str "**")); [discriminate | exact Hs]).
    destruct (IH _ (slice_2_2_shorter part Hne)) as [H1 H2]. cbn [text_of]. split.
    + etransitivity; [exact H1 | apply slice_2_2_sublist].
    + rewrite H2. apply (unmarked_slice (str "**")); try assumption; [reflexivity|].
      repeat constructor.
  - destruct (startsWith (str "==") part && endsWith (str "==") part) eqn:E2.
    + apply andb_prop in E2 as [Hs He].
      assert (Hne : part <> [])
        by (apply (startsWith_nonempty (str "==")); [discriminate | exact Hs]).
      destruct (IH _ (slice_2_2_shorter part Hne)) as [H1 H2]. cbn [text_of]. split.
      * etransitivity; [exact H1 | apply slice_2_2_sublist].
      * rewrite H2. apply (unmarked_slice (str "==")); try assumption; [reflexivity|].
        repeat constructor.
    + cbn [text_of]. rewrite applyNewline_text. split; reflexivity.
Qed.

Lemma flat_map_keeps (f : jstring -> jstring) (pieces : list jstring) :
  Forall (fun part => sublist (f part) part /\ unmarked (f part) = unmarked part) pieces ->
  sublist (flat_map f pieces) (concat pieces) /\
  unmarked (flat_map f pieces) = unmarked (concat pieces).
Proof.
  induction 1 as [|part pieces [H1 H2] _ [IH1 IH2]]; simpl.
  - split; [constructor | reflexivity].
  - split; [apply sublist_app; assumption|]. rewrite !unmarked_app, H2, IH2. reflexivity.
Qed.

Lemma applyTextFormatting_keeps n text :
  length text <= n ->
  sublist (flat_map text_of (applyTextFormatting text)) text /\
  unmarked (flat_map text_of (applyTextFormatting text)) = unmarked text.
Proof.
  revert text. induction n as [|n IH]; intros text Hn.
  - destruct text; [|simpl in Hn; lia]. split; reflexivity.
  - rewrite applyTextFormatting_eq.
    rewrite (flat_map_concat_map text_of), map_map, <- flat_map_concat_map.
    pose proof (split_format_concat 0 [] text) as Hc. simpl in Hc.
    rewrite <- Hc at 2 4. apply flat_map_keeps.
    apply Forall_forall. intros part Hin.
    apply format_part_keeps. intros t Ht. apply IH.
    apply split_format_piece_length in Hin. lia.
Qed.

(** X21: formatting shows the text without its markers: what the elements
    show, with a line feed for each line break, is the text with some
    asterisks and equals signs left out, and nothing else is lost, added or
    moved. *)
Theorem applyTextFormatting_shows_text (text : jstring) :
  let shown := flat_map text_of (applyTextFormatting text) in
  sublist shown text /\ unmarked shown = unmarked text.
Proof. exact (applyTextFormatting_keeps (length text) text (le_n _)). Qed.

(** *** Plain text and single blocks *)

Lemma find_first_occurs pat pre rest : is_Some (find_first pat (pre ++ pat ++ rest)).
Proof.
  induction pre as [|c pre IH]; simpl app.
  - destruct (pat ++ rest) eqn:E; simpl.
    + rewrite <- E, strip_prefix_app. eexists; reflexivity.
    + rewrite <- E, strip_prefix_app. eexists; reflexivity.
  - cbn [find_first]. destruct (strip_prefix pat (c :: pre ++ pat ++ rest)); [eexists; reflexivity|].
    destruct IH as [[b a] ->]. eexists; reflexivity.
Qed.

Lemma delimited_absent delim pre s :
  find_first delim (pre ++ s) = None -> delimited delim s = None.
Proof.
  intros H. unfold delimited. destruct (strip_prefix delim s) as [r|] eqn:E; [|reflexivity].
  apply strip_prefix_Some in E. subst s.
  destruct (find_first_occurs delim pre r) as [x Hx]. congruence.
Qed.

Lemma split_format_plain pre piece s :
  find_first (str "**") (pre ++ s) = None ->
  find_first (str "==") (pre ++ s) = None ->
  split_format 0 piece s = [rev piece ++ s].
Proof.
  revert pre piece. induction s as [|c r IH]; intros pre piece H1 H2.
  - simpl. rewrite app_nil_r. reflexivity.
  - cbn [split_format]. unfold format_match.
    rewrite (delimited_absent _ pre _ H1), (delimited_absent _ pre _ H2).
    rewrite (IH (pre ++ [c])) by (rewrite <- app_assoc; assumption).
    simpl. rewrite <- app_assoc. reflexivity.
Qed.

Lemma startsWith_absent delim s :
  find_first delim s = None -> startsWith delim s = false.
Proof.
  unfold startsWith. destruct s; simpl; destruct (strip_prefix delim _); congruence.
Qed.

Lemma format_plain (text : jstring) :
  find_first (str "**") text = None ->
  find_first (str "==") text = None ->
  applyTextFormatting text = [Span (applyNewline text)].
Proof.
  intros H1 H2.
  rewrite applyTextFormatting_eq, (split_format_plain [] [] text H1 H2).
  cbn [map rev app]. unfold format_part.
  rewrite (startsWith_absent _ _ H1), (startsWith_absent _ _ H2). reflexivity.
Qed.

(** X22: a text that holds neither two asterisks nor two equals signs in a row
    becomes a single plain [span] of its lines, which spell the text. *)
Theorem applyTextFormatting_plain (text : jstring) :
  find_first (str "**") text = None ->
  find_first (str "==") text = None ->
  applyTextFormatting text = [Span (applyNewline text)] /\
  flat_map text_of (applyNewline text) = text.
Proof. intros H1 H2. split; [apply format_plain; assumption | apply applyNewline_text]. Qed.

Lemma format_match_unmarked c r : is_marker c = false -> format_match (c :: r) = None.
Proof.
  intros Hc. unfold format_match, delimited. cbn [str list_ascii_of_string strip_prefix].
  unfold is_marker in Hc. apply orb_false_elim in Hc as [H1 H2].
  unfold ascii_eqb in *. rewrite Ascii.eqb_sym in H1. rewrite Ascii.eqb_sym in H2.
  rewrite H1, H2. reflexivity.
Qed.

Lemma split_format_marker_free a piece s :
  marker_free a -> split_format 0 piece (a ++ s) = split_format 0 (rev a ++ piece) s.
Proof.
  intros Ha. revert piece. induction Ha as [|c a Hc _ IH]; intros piece; [reflexivity|].
  simpl app. cbn [split_format]. rewrite (format_match_unmarked c _ Hc), IH.
  simpl rev. rewrite <- app_assoc. reflexivity.
Qed.

Lemma split_format_skip m piece rest :
  split_format (length m) piece (m ++ rest) = split_format 0 piece rest.
Proof. induction m as [|c m IH]; [reflexivity | exact IH]. Qed.

Lemma find_first_here d x rest :
  Forall (fun c => ascii_eqb c d = false) x ->
  find_first [d; d] (x ++ [d; d] ++ rest) = Some (x, rest).
Proof.
  induction 1 as [|c x Hc _ IH].
  - simpl app. cbn [find_first strip_prefix]. unfold ascii_eqb.
    rewrite Ascii.eqb_refl. reflexivity.
  - simpl app. cbn [find_first]. simpl app in IH. rewrite IH.
    cbn [strip_prefix]. unfold ascii_eqb in *. rewrite Ascii.eqb_sym, Hc. reflexivity.
Qed.

Lemma format_match_block d x rest :
  is_marker d = true ->
  Forall (fun c => ascii_eqb c d = false) x ->
  format_match ([d; d] ++ x ++ [d; d] ++ rest) = Some ([d; d] ++ x ++ [d; d]).
Proof.
  intros Hd Hx. unfold format_match, delimited.
  unfold is_marker in Hd. apply orb_prop in Hd as [Hd|Hd];
    apply Ascii.eqb_eq in Hd; subst d.
  - change (str "**") with ["*"%char; "*"%char].
    rewrite strip_prefix_app, (find_first_here _ x rest Hx). reflexivity.
  - change (strip_prefix (str "**") (["="%char; "="%char] ++ x ++ ["="%char; "="%char] ++ rest))
      with (@None jstring).
    change (str "==") with ["="%char; "="%char].
    rewrite strip_prefix_app, (find_first_here _ x rest Hx). reflexivity.
Qed.

Lemma startsWith_marker_free d a :
  is_marker d = true -> marker_free a -> startsWith [d; d] a = false.
Proof.
  intros Hd Ha. destruct Ha as [|c a Hc _]; [reflexivity|].
  unfold startsWith. cbn [strip_prefix].
  destruct (ascii_eqb d c) eqn:E; [|reflexivity].
  apply Ascii.eqb_eq in E. subst c. congruence.
Qed.

Lemma format_part_marker_free recur a :
  marker_free a -> format_part recur a = Span (applyNewline a).
Proof.
  intros Ha. unfold format_part.
  change (str "**") with ["*"%char; "*"%char]. change (str "==") with ["="%char; "="%char].
  rewrite !(startsWith_marker_free _ a) by (assumption || reflexivity). reflexivity.
Qed.

Lemma slice_2_2_block d x : slice_2_2 ([d; d] ++ x ++ [d; d]) = x.
Proof.
  unfold slice_2_2. simpl drop.
  replace (length ([d; d] ++ x ++ [d; d]) - 4) with (length x)
    by (simpl; rewrite length_app; simpl; lia).
  apply take_app_length.
Qed.

Lemma endsWith_block d x : endsWith [d; d] ([d; d] ++ x ++ [d; d]) = true.
Proof.
  unfold endsWith, startsWith. rewrite !rev_app_distr. simpl rev. simpl app.
  cbn [strip_prefix]. unfold ascii_eqb. rewrite Ascii.eqb_refl. reflexivity.
Qed.

Lemma split_format_match c r piece m :
  format_match (c :: r) = Some m ->
  split_format 0 piece (c :: r) = rev piece :: m :: split_format (length m - 1) [] r.
Proof. intros H. cbn [split_format]. rewrite H. reflexivity. Qed.

Lemma split_format_block d a x c :
  is_marker d = true -> marker_free a -> marker_free c ->
  Forall (fun ch => ascii_eqb ch d = false) x ->
  split_format 0 [] (a ++ [d; d] ++ x ++ [d; d] ++ c) = [a; [d; d] ++ x ++ [d; d]; c].
Proof.
  intros Hd Ha Hc Hx. rewrite (split_format_marker_free a [] _ Ha).
  rewrite app_nil_r. pose proof (format_match_block d x c Hd Hx) as Hm.
  simpl app in *. rewrite (split_format_match _ _ _ _ Hm). rewrite rev_involutive.
  f_equal. f_equal.
  replace (length (d :: d :: x ++ [d; d]) - 1) with (length (d :: x ++ [d; d]))
    by (simpl; lia).
  replace (d :: x ++ d :: d :: c) with ((d :: x ++ [d; d]) ++ c)
    by (simpl; rewrite <- app_assoc; reflexivity).
  rewrite split_format_skip.
  rewrite <- (app_nil_r c) at 1. rewrite (split_format_marker_free c [] [] Hc).
  simpl. rewrite app_nil_r, rev_involutive. reflexivity.
Qed.

Lemma format_block (a x c : jstring) :
  marker_free a -> marker_free c ->
  (Forall (fun ch => ascii_eqb ch "*"%char = false) x ->
   applyTextFormatting (a ++ str "**" ++ x ++ str "**" ++ c)
   = [Span (applyNewline a); Bold (applyTextFormatting x); Span (applyNewline c)]) /\
  (Forall (fun ch => ascii_eqb ch "="%char = false) x ->
   applyTextFormatting (a ++ str "==" ++ x ++ str "==" ++ c)
   = [Span (applyNewline a); Inverted (applyTextFormatting x); Span (applyNewline c)]).
Proof.
  intros Ha Hc. split; intros Hx; rewrite applyTextFormatting_eq.
  - change (str "**") with ["*"%char; "*"%char].
    rewrite (split_format_block "*"%char a x c eq_refl Ha Hc Hx). cbn [map].
    rewrite (format_part_marker_free _ a Ha), (format_part_marker_free _ c Hc).
    f_equal. f_equal.
    unfold format_part. change (str "**") with ["*"%char; "*"%char].
    rewrite endsWith_block, slice_2_2_block. reflexivity.
  - change (str "==") with ["="%char; "="%char].
    rewrite (split_format_block "="%char a x c eq_refl Ha Hc Hx). cbn [map].
    rewrite (format_part_marker_free _ a Ha), (format_part_marker_free _ c Hc).
    f_equal. f_equal.
    unfold format_part. change (str "==") with ["="%char; "="%char].
    change (str "**") with ["*"%char; "*"%char].
    rewrite endsWith_block, slice_2_2_block. reflexivity.
Qed.

(** X23: a block between two asterisks or two equals signs, set in text without
    markers, becomes a bold or an inverted element between two plain
    spans; its content, which must not hold the block's own marker, is
    formatted in turn, so a block of the other kind may be nested in it. *)
Theorem applyTextFormatting_block (a x c : jstring) :
  marker_free a -> marker_free c ->
  (Forall (fun ch => ascii_eqb ch "*"%char = false) x ->
   applyTextFormatting (a ++ str "**" ++ x ++ str "**" ++ c)
   = [Span (applyNewline a); Bold (applyTextFormatting x); Span (applyNewline c)]) /\
  (Forall (fun ch => ascii_eqb ch "="%char = false) x ->
   applyTextFormatting (a ++ str "==" ++ x ++ str "==" ++ c)
   = [Span (applyNewline a); Inverted (applyTextFormatting x); Span (applyNewline c)]).
Proof. exact (format_block a x c). Qed.

Lemma applyTextFormatting_plain_witness :
  applyTextFormatting (str "PLA *matte* = 1kg") = [Span (applyNewline (str "PLA *matte* = 1kg"))] /\
  flat_map text_of (applyNewline (str "PLA *matte* = 1kg")) = str "PLA *matte* = 1kg".
Proof. apply (applyTextFormatting_plain (str "PLA *matte* = 1kg")); reflexivity. Defined.

Lemma applyTextFormatting_block_witness :
  applyTextFormatting (str "Brand **PLA** 1kg")
  = [Span (applyNewline (str "Brand ")); Bold (applyTextFormatting (str "PLA"));
     Span (applyNewline (str " 1kg"))] /\
  applyTextFormatting (str "==**PLA**== red")
  = [Span (applyNewline []); Inverted (applyTextFormatting (str "**PLA**"));
     Span (applyNewline (str " red"))].
Proof.
  split.
  - destruct (applyTextFormatting_block (str "Brand ") (str "PLA") (str " 1kg")) as [H _];
      [repeat constructor | repeat constructor |].
    apply H. repeat constructor.
  - destruct (applyTextFormatting_block [] (str "**PLA**") (str " red")) as [_ H];
      [repeat constructor | repeat constructor |].
    apply H. repeat constructor.
Defined.

(** ** Label contents *)

Lemma marker_free_no_block d s :
  is_marker d = true -> marker_free s -> find_first [d; d] s = None.
Proof.
  intros Hd Hs. induction Hs as [|c s Hc _ IH]; [reflexivity|].
  cbn [find_first]. rewrite IH. cbn [strip_prefix].
  destruct (ascii_eqb d c) eqn:E; [|reflexivity].
  apply Ascii.eqb_eq in E. subst c. congruence.
Qed.

Lemma marker_free_not c s :
  marker_free s -> is_marker c = true -> Forall (fun ch => ascii_eqb ch c = false) s.
Proof.
  intros Hs Hc. eapply Forall_impl; [exact Hs|]. intros ch Hch. simpl in Hch.
  destruct (ascii_eqb ch c) eqn:E; [|reflexivity].
  apply Ascii.eqb_eq in E. subst ch. congruence.
Qed.

Section LabelFacts.
Variable JSON_parse : jstring -> option jsval.

(** X24: with the default title template, a filament name and a colour that
    hold no marker, no opening brace and no dollar sign give a title
    whose name stands in a bold element inside an inverted one, followed
    by a space and the colour in a plain span. *)
Theorem renderLabelContents_default_title (obj : GenericObject) (name color : jstring) :
  getTagValue JSON_parse (str "filament.name") obj = Some (VStr name) ->
  getTagValue JSON_parse (str "filament.color_hex") obj = Some (VStr color) ->
  marker_free name -> open_free name -> dollar_free name ->
  marker_free color -> open_free color -> dollar_free color ->
  renderLabelContents JSON_parse default_titleTemplate obj
  = Some [Span (applyNewline []);
          Inverted [Span (applyNewline []);
                    Bold [Span (applyNewline name)];
                    Span (applyNewline [])];
          Span (applyNewline (" "%char :: color))].
Proof.
  intros Hn Hc Mn On Dn Mc Oc Dc. unfold renderLabelContents.
  change default_titleTemplate
    with (template_of [Literal (str "==**"); Tag (str "filament.name");
                       Literal (str "**== "); Tag (str "filament.color_hex")]).
  assert (Hr : renderTemplateText JSON_parse obj
                 (template_of [Literal (str "==**"); Tag (str "filament.name");
                               Literal (str "**== "); Tag (str "filament.color_hex")])
               = Some (concat [str "==**"; name; str "**== "; color])).
  { apply render_template_of.
    - repeat constructor.
    - repeat constructor; try assumption.
      + cbn [segment_value]. rewrite Hn. reflexivity.
      + cbn [segment_value]. rewrite Hc. reflexivity. }
  rewrite Hr. cbn [fmap option_fmap option_map concat]. f_equal. rewrite app_nil_r.
  assert (Hinner : applyTextFormatting (str "**" ++ name ++ str "**")
                   = [Span (applyNewline []); Bold [Span (applyNewline name)];
                      Span (applyNewline [])]).
  { destruct (format_block [] name []) as [H1 _]; [constructor | constructor |].
    replace (str "**" ++ name ++ str "**")
      with ([] ++ str "**" ++ name ++ str "**" ++ [])
      by (rewrite app_nil_r; reflexivity).
    rewrite H1 by (apply marker_free_not; [exact Mn | reflexivity]).
    rewrite (format_plain name); [reflexivity | |];
      apply (marker_free_no_block _ name); (reflexivity || exact Mn). }
  destruct (format_block [] (str "**" ++ name ++ str "**") (" "%char :: color))
    as [_ H2]; [constructor | constructor; [reflexivity | exact Mc] |].
  replace (str "==**" ++ name ++ str "**== " ++ color)
    with ([] ++ str "==" ++ (str "**" ++ name ++ str "**") ++ str "=="
          ++ " "%char :: color)
    by (simpl; rewrite <- app_assoc; reflexivity).
  rewrite H2.
  - rewrite Hinner. reflexivity.
  - apply Forall_app. split; [repeat constructor|]. apply Forall_app. split.
    + apply marker_free_not; [exact Mn | reflexivity].
    + repeat constructor.
Qed.
End LabelFacts.

Lemma renderLabelContents_default_title_witness :
  renderLabelContents JSON_parse_scalar default_titleTemplate
    (mkObject [(str "filament", VObj (record [("name", "PLA Matte"); ("color_hex", "ff0000")]))] [])
  = Some [Span (applyNewline []);
          Inverted [Span (applyNewline []);
                    Bold [Span (applyNewline (str "PLA Matte"))];
                    Span (applyNewline [])];
          Span (applyNewline (str " ff0000"))].
Proof.
  apply (renderLabelContents_default_title JSON_parse_scalar _ (str "PLA Matte") (str "ff0000"));
    first [reflexivity | repeat constructor].
Defined.

(** ** Vendor logo suggestions *)

Module VendorLogoFacts.
Import VendorLogo.

Example slug_example :
  slugifyVendorName ascii_normalize ascii_toLowerCase (Some (ustr "Bambu  Lab & Co."))
  = ustr "bambu-lab-and-co".
Proof. vm_compute. reflexivity. Qed.

Example slug_from_path_example :
  slugFromManifestPath (ustr "/vendor-logos/web/Bambu-Lab-WEB.png") web = ustr "Bambu-Lab"
  /\ slugFromManifestPath (ustr "print/a.b.") print = ustr "a.b.".
Proof. vm_compute. split; reflexivity. Qed.

(** *** Slugs *)

Lemma well_dashed_weaken s : well_dashed true s = true -> well_dashed false s = true.
Proof.
  destruct s as [|c r]; simpl; [reflexivity|].
  destruct (is_lower_alnum c); [auto|]. rewrite andb_false_r. discriminate.
Qed.

Lemma dash_runs_well_dashed b s : well_dashed b (dash_runs b s) = true.
Proof.
  revert b. induction s as [|c r IH]; intros b; simpl; [reflexivity|].
  destruct (is_lower_alnum c) eqn:E.
  - simpl. rewrite E. apply IH.
  - destruct b; [apply IH|]. simpl. apply IH.
Qed.

Lemma well_dashed_fixed b s : well_dashed b s = true -> dash_runs b s = s.
Proof.
  revert b. induction s as [|c r IH]; intros b; simpl; [reflexivity|].
  destruct (is_lower_alnum c) eqn:E.
  - intros H. rewrite (IH _ H). reflexivity.
  - intros H. apply andb_prop in H as [H H3]. apply andb_prop in H as [H1 H2].
    apply N.eqb_eq in H1. subst c. destruct b; [discriminate|].
    rewrite (IH _ H3). reflexivity.
Qed.

Lemma well_dashed_app_l b s t : well_dashed b (s ++ t) = true -> well_dashed b s = true.
Proof.
  revert b. induction s as [|c r IH]; intros b; simpl; [reflexivity|].
  destruct (is_lower_alnum c); [apply IH|].
  intros H. apply andb_prop in H as [H H3]. rewrite H. simpl. exact (IH _ H3).
Qed.

Lemma well_dashed_drop_leading s :
  well_dashed false s = true -> well_dashed false (drop_leading_units is_dash s) = true.
Proof.
  induction s as [|c r IH]; simpl; [reflexivity|].
  destruct (is_dash c) eqn:Ed.
  - unfold is_dash in Ed. apply N.eqb_eq in Ed. subst c. simpl.
    intros H. apply IH, well_dashed_weaken, H.
  - simpl. intros H. exact H.
Qed.

Lemma drop_trailing_units_split p s :
  exists t, s = drop_trailing_units p s ++ t.
Proof.
  induction s as [|c r [t Hr]]; simpl.
  - exists []. reflexivity.
  - destruct (drop_trailing_units p r) as [|d r'] eqn:E.
    + destruct (p c).
      * exists (c :: t). simpl in Hr. subst r. reflexivity.
      * exists t. simpl in *. subst r. reflexivity.
    + exists t. simpl. f_equal. exact Hr.
Qed.

Lemma drop_trailing_units_last p s c :
  last (drop_trailing_units p s) = Some c -> p c = false.
Proof.
  induction s as [|d r IH]; simpl; [discriminate|].
  destruct (drop_trailing_units p r) as [|e r'] eqn:E.
  - destruct (p d) eqn:Hd; simpl; [discriminate|]. intros [= <-]. exact Hd.
  - intros H. apply IH. destruct r'; exact H.
Qed.

Lemma drop_trailing_units_head p s c :
  head (drop_trailing_units p s) = Some c -> head s = Some c.
Proof.
  destruct s as [|d r]; simpl; [discriminate|].
  destruct (drop_trailing_units p r); [destruct (p d)|]; simpl; congruence.
Qed.

Lemma drop_leading_units_head p s c :
  head (drop_leading_units p s) = Some c -> p c = false.
Proof.
  induction s as [|d r IH]; simpl; [discriminate|].
  destruct (p d) eqn:Hd; [exact IH|]. simpl. intros [= <-]. exact Hd.
Qed.

Lemma drop_leading_units_id p s :
  (forall c, head s = Some c -> p c = false) -> drop_leading_units p s = s.
Proof.
  destruct s as [|d r]; simpl; [reflexivity|]. intros H.
  rewrite (H d eq_refl). reflexivity.
Qed.

Lemma drop_trailing_units_id p s :
  (forall c, last s = Some c -> p c = false) -> drop_trailing_units p s = s.
Proof.
  induction s as [|d r IH]; simpl; [reflexivity|]. intros H.
  destruct r as [|e r'].
  - simpl. rewrite (H d eq_refl). reflexivity.
  - rewrite IH; [reflexivity|]. intros c Hc. apply H. exact Hc.
Qed.

Lemma trim_dashes_slug s : well_dashed false s = true -> is_slug (trim_dashes s).
Proof.
  intros H. unfold trim_dashes, is_slug.
  pose proof (well_dashed_drop_leading s H) as H1.
  destruct (drop_trailing_units_split is_dash (drop_leading_units is_dash s)) as [t Ht].
  rewrite Ht in H1. split; [exact (well_dashed_app_l _ _ _ H1)|]. split.
  - intros Hh. apply drop_trailing_units_head, drop_leading_units_head in Hh. discriminate.
  - intros Hl. apply drop_trailing_units_last in Hl. discriminate.
Qed.

Lemma trim_dashes_fixed s : is_slug s -> trim_dashes s = s.
Proof.
  intros [_ [Hh Hl]]. unfold trim_dashes.
  rewrite (drop_leading_units_id is_dash s).
  - apply drop_trailing_units_id. intros c Hc. unfold is_dash.
    apply N.eqb_neq. intros ->. contradiction.
  - intros c Hc. unfold is_dash. apply N.eqb_neq. intros ->. contradiction.
Qed.

Section SlugFacts.
Variable normalize_NFKD : ustring -> ustring.
Variable toLowerCase : ustring -> ustring.

Local Abbreviation slug := (slugifyVendorName normalize_NFKD toLowerCase).

Lemma slug_is_slug name : is_slug (slug name).
Proof.
  unfold slugifyVendorName. destruct name as [[|c n]|].
  - repeat split; discriminate.
  - apply trim_dashes_slug, dash_runs_well_dashed.
  - repeat split; discriminate.
Qed.

(** X25: whatever the name and whatever the two built-ins return, a slug
    holds only the units a to z, 0 to 9 and the dash, never two dashes
    in a row and no dash at either end. *)
Theorem slugifyVendorName_shape (name : option ustring) :
  let s := slug name in
  Forall (fun c => is_lower_alnum c = true \/ c = dash) s /\
  (forall a b, s <> a ++ [dash; dash] ++ b) /\
  head s <> Some dash /\ last s <> Some dash.
Proof.
  destruct (slug_is_slug name) as [Hw [Hh Hl]]. cbv zeta.
  split; [|split; [|split; assumption]].
  - clear Hh Hl. revert Hw. generalize false. induction (slug name) as [|c r IH];
      intros b Hw; [constructor|]. simpl in Hw. constructor.
    + destruct (is_lower_alnum c); [left; reflexivity|].
      apply andb_prop in Hw as [Hw _]. apply andb_prop in Hw as [Hw _].
      right. apply N.eqb_eq, Hw.
    + destruct (is_lower_alnum c); [exact (IH _ Hw)|].
      apply andb_prop in Hw as [_ Hw]. exact (IH _ Hw).
  - clear Hh Hl. intros a b E. rewrite E in Hw. clear E. revert Hw. generalize false.
    induction a as [|c a IH]; intros b0 Hw.
    + simpl in Hw. destruct b0; discriminate.
    + simpl in Hw. destruct (is_lower_alnum c); [exact (IH _ Hw)|].
      apply andb_prop in Hw as [_ Hw]. exact (IH _ Hw).
Qed.

(** *** Scores *)

Local Abbreviation score := (scoreLogoPath normalize_NFKD toLowerCase).
Local Abbreviation rank := (rankPaths normalize_NFKD toLowerCase).
Local Abbreviation best := (findBestPath normalize_NFKD toLowerCase).
Local Abbreviation options := (suggestVendorLogoOptions normalize_NFKD toLowerCase).

Lemma score_values name path type :
  score name path type = 0 \/ 72 <= score name path type <= 100.
Proof.
  unfold scoreLogoPath.
  destruct (slug (Some name)) as [|t0 ts]; [left; reflexivity|].
  destruct (slug (Some (slugFromManifestPath path type))) as [|c0 cs];
    [left; reflexivity|].
  cbv zeta.
  destruct (_ || _); [right; lia|]. destruct (_ || _); [right; lia|].
  destruct (Nat.leb 2 _ && _ && _) eqn:E; [|left; reflexivity].
  apply andb_prop in E as [E _]. apply andb_prop in E as [E _].
  apply Nat.leb_le in E. right. lia.
Qed.

Lemma score_no_slug name path type :
  slug (Some name) = [] -> score name path type = 0.
Proof. intros H. unfold scoreLogoPath. rewrite H. reflexivity. Qed.

(** *** Ranking *)

Lemma insert_entry_perm e l : Permutation (insert_entry e l) (e :: l).
Proof.
  induction l as [|x l IH]; simpl; [reflexivity|].
  destruct (Nat.ltb e.2 x.2); [|reflexivity].
  rewrite IH. apply perm_swap.
Qed.

Lemma sort_entries_perm l : Permutation (sort_entries l) l.
Proof.
  induction l as [|e l IH]; simpl; [reflexivity|].
  rewrite insert_entry_perm, IH. reflexivity.
Qed.

Lemma insert_entry_descending e l : descending l -> descending (insert_entry e l).
Proof.
  induction l as [|x l IH]; simpl.
  - intros _. split; constructor.
  - intros [Hx Hl]. destruct (Nat.ltb e.2 x.2) eqn:E.
    + apply Nat.ltb_lt in E. simpl. split; [|exact (IH Hl)].
      rewrite insert_entry_perm. constructor; [lia | exact Hx].
    + apply Nat.ltb_ge in E. simpl. split; [|split; assumption].
      constructor; [exact E|]. eapply Forall_impl; [exact Hx|].
      intros y Hy. simpl in Hy. lia.
Qed.

Lemma sort_entries_descending l : descending (sort_entries l).
Proof.
  induction l as [|e l IH]; simpl; [exact I|].
  apply insert_entry_descending, IH.
Qed.

Lemma rank_eq name paths type :
  rank name paths type
  = sort_entries (filter (fun entry => 0 < entry.2)
                    (map (fun path => (path, score name path type)) paths)).
Proof. destruct paths; reflexivity. Qed.

Lemma rank_elem name paths type (e : ustring * nat) :
  e ∈ rank name paths type <->
  e.1 ∈ paths /\ e.2 = score name e.1 type /\ 0 < e.2.
Proof.
  rewrite rank_eq, sort_entries_perm, list_elem_of_filter.
  change (map (fun path => (path, score name path type)) paths)
    with ((fun path => (path, score name path type)) <$> paths).
  rewrite list_elem_of_fmap. split.
  - intros [Hpos [p [-> Hp]]]. simpl in *. auto.
  - intros [Hp [Hs Hpos]]. split; [exact Hpos|]. exists e.1. split; [|exact Hp].
    destruct e as [p sc]. simpl in *. subst sc. reflexivity.
Qed.

Lemma rank_descending name paths type : descending (rank name paths type).
Proof. rewrite rank_eq. apply sort_entries_descending. Qed.

Lemma descending_lookup (l : list (ustring * nat)) i j a b :
  descending l -> i < j -> l !! i = Some a -> l !! j = Some b -> b.2 <= a.2.
Proof.
  revert i j. induction l as [|x l IH]; intros i j Hd Hij Hi Hj; [discriminate|].
  destruct Hd as [Hx Hl]. destruct i as [|i], j as [|j]; try lia.
  - simpl in Hi, Hj. injection Hi as <-. rewrite Forall_forall in Hx.
    apply Hx. exact (list_elem_of_lookup_2 _ _ _ Hj).
  - simpl in Hi, Hj. apply (IH i j); [exact Hl | lia | exact Hi | exact Hj].
Qed.

Lemma best_head name paths type :
  best name paths type = head (map fst (rank name paths type)).
Proof.
  unfold findBestPath. destruct (rank name paths type) as [|b r] eqn:E; [reflexivity|].
  assert (Hb : b ∈ rank name paths type) by (rewrite E; left).
  apply rank_elem in Hb as [_ [Hs Hpos]].
  destruct (score_values name b.1 type) as [H0|H72]; [lia|].
  rewrite <- Hs in H72. destruct (Nat.ltb_spec b.2 70); [lia | reflexivity].
Qed.

Lemma head_take_map {A B : Type} (f : A -> B) (l : list A) k :
  0 < k -> head (map f (take k l)) = head (map f l).
Proof. intros Hk. destruct k; [lia|]. destruct l; reflexivity. Qed.

(** X26: the path filled in automatically is the first of the suggestions
    shown, for the web logo and for the print logo, and there is none
    exactly when nothing is suggested: a suggested path is never held
    back for scoring too low. *)
Theorem suggestVendorLogoPaths_top_option (name : ustring)
    (manifest : VendorLogoManifestPaths) :
  suggestVendorLogoPaths normalize_NFKD toLowerCase name manifest
  = (head (options name manifest web None), head (options name manifest print None)).
Proof.
  unfold suggestVendorLogoPaths, suggestVendorLogoOptions. rewrite !best_head.
  cbv zeta. simpl default. rewrite !head_take_map by lia. reflexivity.
Qed.

(** X27: the suggestions are at most [limit] paths of the manifest (five when
    no limit is given), each with a positive score, in the order of
    their scores from the highest down; and no path of the manifest
    that is left out scores higher than a suggested one. *)
Theorem suggestVendorLogoOptions_ranked (name : ustring)
    (manifest : VendorLogoManifestPaths) (type : LogoType) (limit : option nat) :
  let opts := options name manifest type limit in
  let paths := paths_of manifest type in
  length opts <= default 5 limit /\
  Forall (fun p => p ∈ paths /\ 0 < score name p type) opts /\
  (forall i j p q, i < j -> opts !! i = Some p -> opts !! j = Some q ->
                   score name q type <= score name p type) /\
  (forall p q, p ∈ paths -> p ∉ opts -> q ∈ opts ->
               score name p type <= score name q type).
Proof.
  cbv zeta. unfold suggestVendorLogoOptions. cbv zeta.
  fold (paths_of manifest type).
  set (paths := paths_of manifest type). set (k := default 5 limit).
  set (ranked := rank name paths type).
  assert (Hin : forall e, e ∈ ranked ->
                  e.1 ∈ paths /\ e.2 = score name e.1 type /\ 0 < e.2)
    by (intros e; apply rank_elem).
  assert (Hopt : forall i p, map fst (take k ranked) !! i = Some p ->
                   exists e, ranked !! i = Some e /\ e.1 = p /\ i < k).
  { intros i p H. change (map fst (take k ranked)) with (fst <$> take k ranked) in H.
    rewrite list_lookup_fmap in H.
    destruct (take k ranked !! i) as [e|] eqn:E; [|discriminate].
    injection H as <-. apply lookup_take_Some in E as [E Hi]. exists e. auto. }
  split; [|split; [|split]].
  - rewrite length_map, length_take. lia.
  - apply Forall_forall. intros p Hp. apply list_elem_of_lookup in Hp as [i Hi].
    destruct (Hopt i p Hi) as [e [He [<- _]]].
    destruct (Hin e (list_elem_of_lookup_2 _ _ _ He)) as [H1 [H2 H3]].
    split; [exact H1 | rewrite <- H2; exact H3].
  - intros i j p q Hij Hi Hj.
    destruct (Hopt i p Hi) as [e1 [He1 [<- _]]].
    destruct (Hopt j q Hj) as [e2 [He2 [<- _]]].
    destruct (Hin e1 (list_elem_of_lookup_2 _ _ _ He1)) as [_ [<- _]].
    destruct (Hin e2 (list_elem_of_lookup_2 _ _ _ He2)) as [_ [<- _]].
    exact (descending_lookup ranked i j e1 e2 (rank_descending _ _ _) Hij He1 He2).
  - intros p q Hp Hnot Hq. apply list_elem_of_lookup in Hq as [i Hi].
    destruct (Hopt i q Hi) as [e [He [<- Hik]]].
    destruct (Hin e (list_elem_of_lookup_2 _ _ _ He)) as [_ [<- Hpos]].
    destruct (Nat.eq_dec (score name p type) 0) as [H0|H0]; [lia|].
    assert (Hpe : (p, score name p type) ∈ ranked).
    { apply rank_elem. simpl. split; [exact Hp|]. split; [reflexivity | lia]. }
    apply list_elem_of_lookup in Hpe as [j Hj].
    destruct (Nat.lt_ge_cases j k) as [Hlt|Hge].
    + exfalso. apply Hnot. apply list_elem_of_lookup. exists j.
      change (map fst (take k ranked)) with (fst <$> take k ranked).
      rewrite list_lookup_fmap, lookup_take_lt by exact Hlt. rewrite Hj. reflexivity.
    + change (score name p type) with (p, score name p type).2.
      apply (descending_lookup ranked i j e _ (rank_descending _ _ _)); [lia | exact He | exact Hj].
Qed.

(** X28: a name whose slug is empty, for want of a letter or a digit, gets
    no suggestion at all. *)
Theorem no_slug_no_suggestion (name : ustring) (manifest : VendorLogoManifestPaths)
    (type : LogoType) (limit : option nat) :
  slug (Some name) = [] ->
  options name manifest type limit = [] /\
  suggestVendorLogoPaths normalize_NFKD toLowerCase name manifest = (None, None).
Proof.
  intros Hs.
  assert (Hr : forall paths ty, rank name paths ty = []).
  { intros paths ty. rewrite rank_eq.
    replace (filter _ _) with (@nil (ustring * nat)); [reflexivity|].
    symmetry. induction paths as [|p paths IH]; [reflexivity|]. simpl map.
    rewrite filter_cons. simpl. rewrite (score_no_slug name p ty Hs).
    destruct (decide (0 < 0)); [lia | exact IH]. }
  split.
  - unfold suggestVendorLogoOptions. cbv zeta. rewrite Hr. rewrite take_nil. reflexivity.
  - unfold suggestVendorLogoPaths, findBestPath. rewrite !Hr. reflexivity.
Qed.

(** *** Files named after the slug *)

Lemma split_units_nonempty sep s : split_units sep s <> [].
Proof.
  destruct s as [|c r]; simpl; [discriminate|].
  destruct (c =? sep)%N; [discriminate|]. destruct (split_units sep r); discriminate.
Qed.

Lemma split_units_app_sep sep a f :
  split_units sep (a ++ sep :: f) = split_units sep a ++ split_units sep f.
Proof.
  induction a as [|c a IH]; simpl.
  - rewrite N.eqb_refl. reflexivity.
  - destruct (c =? sep)%N; [rewrite IH; reflexivity|]. rewrite IH.
    pose proof (split_units_nonempty sep a) as Hne.
    destruct (split_units sep a) as [|p ps]; [contradiction | reflexivity].
Qed.

Lemma split_units_free sep f :
  Forall (fun c => c <> sep) f -> split_units sep f = [f].
Proof.
  induction 1 as [|c f Hc _ IH]; simpl; [reflexivity|].
  apply N.eqb_neq in Hc. rewrite Hc, IH. reflexivity.
Qed.

Lemma filename_of_path dir f :
  Forall (fun c => c <> slash) f ->
  List.last (split_units slash (dir ++ slash :: f)) [] = f.
Proof.
  intros Hf. rewrite split_units_app_sep, (split_units_free _ _ Hf).
  apply last_last.
Qed.

Lemma strip_extension_ext x ext :
  Forall (fun c => c <> dot) x -> Forall (fun c => c <> dot) ext -> ext <> [] ->
  strip_extension (x ++ dot :: ext) = x.
Proof.
  intros Hx He Hne. induction Hx as [|c x Hc _ IH]; simpl.
  - rewrite bool_decide_eq_false_2 by exact Hne. simpl.
    replace (forallb _ ext) with true; [reflexivity|].
    symmetry. apply forallb_forall. intros d Hd. rewrite Forall_forall in He.
    apply negb_true_iff, N.eqb_neq, He, list_elem_of_In, Hd.
  - apply N.eqb_neq in Hc. rewrite Hc. simpl. rewrite IH. reflexivity.
Qed.

Lemma is_web_suffix_length w : is_web_suffix w = true -> length w = 4.
Proof.
  destruct w as [|a [|b [|c [|d [|e r]]]]]; try discriminate. reflexivity.
Qed.

Lemma strip_web_cons c s :
  strip_web (c :: s) = if is_web_suffix (c :: s) then [] else c :: strip_web s.
Proof. reflexivity. Qed.

Lemma strip_web_suffix s w : is_web_suffix w = true -> strip_web (s ++ w) = s.
Proof.
  intros Hw. pose proof (is_web_suffix_length w Hw) as Hlen.
  induction s as [|c s IH].
  - destruct w as [|a w']; [discriminate|]. simpl app.
    rewrite strip_web_cons, Hw. reflexivity.
  - simpl app. rewrite strip_web_cons, IH.
    destruct (is_web_suffix (c :: s ++ w)) eqn:E; [|reflexivity].
    apply is_web_suffix_length in E. simpl in E. rewrite length_app in E. lia.
Qed.

Lemma well_dashed_units b s :
  well_dashed b s = true -> Forall (fun c => is_lower_alnum c = true \/ c = dash) s.
Proof.
  revert b. induction s as [|c r IH]; intros b Hw; [constructor|].
  simpl in Hw. constructor.
  - destruct (is_lower_alnum c); [left; reflexivity|].
    apply andb_prop in Hw as [Hw _]. apply andb_prop in Hw as [Hw _].
    right. apply N.eqb_eq, Hw.
  - destruct (is_lower_alnum c); [exact (IH _ Hw)|].
    apply andb_prop in Hw as [_ Hw]. exact (IH _ Hw).
Qed.

Lemma slug_unit_plain c :
  is_lower_alnum c = true \/ c = dash ->
  c <> slash /\ c <> dot /\ c <> ampersand /\ is_combining c = false.
Proof.
  unfold is_lower_alnum, is_combining, slash, dot, ampersand, dash.
  intros [H| ->]; [|repeat split; try discriminate].
  apply orb_prop in H as [H|H]; apply andb_prop in H as [H1 H2];
    apply N.leb_le in H1, H2;
    (repeat split; [lia | lia | lia |]);
    apply andb_false_iff; left; apply N.leb_gt; lia.
Qed.

Lemma units_not_combining s :
  Forall (fun c => is_lower_alnum c = true \/ c = dash) s ->
  filter (fun c => is_combining c = false) s = s.
Proof.
  induction 1 as [|c s Hc _ IH]; [reflexivity|].
  rewrite filter_cons. destruct (slug_unit_plain c Hc) as [_ [_ [_ H]]].
  destruct (decide (is_combining c = false)); [|contradiction]. rewrite IH. reflexivity.
Qed.

Lemma units_no_ampersand s :
  Forall (fun c => is_lower_alnum c = true \/ c = dash) s -> expand_ampersand s = s.
Proof.
  unfold expand_ampersand. induction 1 as [|c s Hc _ IH]; [reflexivity|].
  simpl. destruct (slug_unit_plain c Hc) as [_ [_ [H _]]].
  apply N.eqb_neq in H. rewrite H, IH. reflexivity.
Qed.

Hypothesis normalize_slug : forall s, is_slug s -> normalize_NFKD s = s.
Hypothesis toLowerCase_slug : forall s, is_slug s -> toLowerCase s = s.

(** Both built-ins leave a slug alone, so the slug of a slug is the
    slug. *)
Lemma slug_fixed s : is_slug s -> slug (Some s) = s.
Proof.
  intros Hs. pose proof (well_dashed_units false s (proj1 Hs)) as Hu.
  unfold slugifyVendorName. destruct s as [|c0 r] eqn:Es; [reflexivity|].
  rewrite <- Es in *. rewrite (normalize_slug s Hs), (units_not_combining s Hu).
  rewrite (toLowerCase_slug s Hs), (units_no_ampersand s Hu).
  rewrite (well_dashed_fixed false s (proj1 Hs)). apply trim_dashes_fixed, Hs.
Qed.

Lemma score_slug_file name path type :
  slug (Some name) <> [] ->
  slugFromManifestPath path type = slug (Some name) ->
  score name path type = 100.
Proof.
  intros Hne Hp. unfold scoreLogoPath. rewrite Hp.
  rewrite (slug_fixed _ (slug_is_slug (Some name))).
  destruct (slug (Some name)) as [|t0 ts] eqn:E; [contradiction|].
  cbv zeta. rewrite bool_decide_eq_true_2 by reflexivity. reflexivity.
Qed.

Lemma slug_file_print dir name :
  slugFromManifestPath (dir ++ slash :: slug (Some name) ++ ustr ".png") print
  = slug (Some name).
Proof.
  pose proof (well_dashed_units false _ (proj1 (slug_is_slug (Some name)))) as Hu.
  unfold slugFromManifestPath. rewrite filename_of_path.
  - apply (strip_extension_ext _ (ustr "png")); [| repeat constructor; discriminate | discriminate].
    eapply Forall_impl; [exact Hu|]. intros c Hc. apply (slug_unit_plain c Hc).
  - apply Forall_app. split; [|repeat constructor; discriminate].
    eapply Forall_impl; [exact Hu|]. intros c Hc. apply (slug_unit_plain c Hc).
Qed.

Lemma slug_file_web dir name :
  slugFromManifestPath (dir ++ slash :: slug (Some name) ++ ustr "-web.png") web
  = slug (Some name).
Proof.
  pose proof (well_dashed_units false _ (proj1 (slug_is_slug (Some name)))) as Hu.
  unfold slugFromManifestPath. rewrite filename_of_path.
  - change (ustr "-web.png") with (ustr "-web" ++ dot :: ustr "png").
    rewrite app_assoc.
    rewrite (strip_extension_ext _ (ustr "png"));
      [| | repeat constructor; discriminate | discriminate].
    + apply strip_web_suffix. reflexivity.
    + apply Forall_app. split; [|repeat constructor; discriminate].
      eapply Forall_impl; [exact Hu|]. intros c Hc. apply (slug_unit_plain c Hc).
  - apply Forall_app. split; [|repeat constructor; discriminate].
    eapply Forall_impl; [exact Hu|]. intros c Hc. apply (slug_unit_plain c Hc).
Qed.

Lemma best_scores_100 name paths type path :
  path ∈ paths -> score name path type = 100 ->
  exists p, best name paths type = Some p /\ p ∈ paths /\ score name p type = 100.
Proof.
  intros Hin Hs. rewrite best_head.
  assert (He : (path, 100) ∈ rank name paths type).
  { apply rank_elem. simpl. rewrite Hs. repeat split; [exact Hin | lia]. }
  destruct (rank name paths type) as [|b r] eqn:E; [inversion He|].
  assert (Hb : b ∈ rank name paths type) by (rewrite E; left).
  apply rank_elem in Hb as [Hbp [Hbs Hpos]].
  exists b.1. split; [reflexivity|]. split; [exact Hbp|].
  destruct (score_values name b.1 type) as [H0|[_ Hle]]; [lia|].
  pose proof (rank_descending name paths type) as Hd. rewrite E in Hd.
  destruct Hd as [Hall _]. apply elem_of_cons in He as [Hbe|He].
  - subst b. simpl. exact Hs.
  - rewrite Forall_forall in Hall. specialize (Hall _ He). simpl in Hall. lia.
Qed.

(** X29: the naming rule of the logo directory works: when the built-ins
    leave slugs alone, a file named by the slug of the vendor's name,
    with [.png] for print and [-web.png] for the web, in whatever
    directory, scores 100; and with such a file in the manifest the
    path filled in automatically is a path that scores 100. *)
Theorem logo_named_by_slug_scores_100 (name dir : ustring) :
  slug (Some name) <> [] ->
  let printFile := dir ++ slash :: slug (Some name) ++ ustr ".png" in
  let webFile := dir ++ slash :: slug (Some name) ++ ustr "-web.png" in
  score name printFile print = 100 /\
  score name webFile web = 100 /\
  (forall paths, printFile ∈ paths ->
     exists p, best name paths print = Some p /\ p ∈ paths /\ score name p print = 100) /\
  (forall paths, webFile ∈ paths ->
     exists p, best name paths web = Some p /\ p ∈ paths /\ score name p web = 100).
Proof.
  intros Hne printFile webFile.
  assert (Hp : score name printFile print = 100)
    by (apply score_slug_file; [exact Hne | apply slug_file_print]).
  assert (Hw : score name webFile web = 100)
    by (apply score_slug_file; [exact Hne | apply slug_file_web]).
  split; [exact Hp|]. split; [exact Hw|]. split.
  - intros paths Hin. exact (best_scores_100 name paths print printFile Hin Hp).
  - intros paths Hin. exact (best_scores_100 name paths web webFile Hin Hw).
Qed.
End SlugFacts.

(** *** The stand-ins on ASCII names *)

Lemma ascii_normalize_slug s : is_slug s -> ascii_normalize s = s.
Proof. reflexivity. Qed.

Lemma ascii_toLowerCase_slug s : is_slug s -> ascii_toLowerCase s = s.
Proof.
  intros [Hw _]. apply well_dashed_units in Hw. unfold ascii_toLowerCase.
  induction Hw as [|c r Hc _ IH]; [reflexivity|]. simpl. rewrite IH. f_equal.
  assert (Hu : ((65 <=? c) && (c <=? 90))%N = false); [|rewrite Hu; reflexivity].
  apply andb_false_iff. destruct Hc as [Hc| ->]; [|left; reflexivity].
  unfold is_lower_alnum in Hc.
  apply orb_prop in Hc as [Hc|Hc]; apply andb_prop in Hc as [H1 H2];
    apply N.leb_le in H1, H2; [right | left]; apply N.leb_gt; lia.
Qed.

Lemma no_slug_no_suggestion_witness :
  suggestVendorLogoOptions ascii_normalize ascii_toLowerCase (ustr "!!!")
    (mkManifest (Some [ustr "web/acme-web.png"]) None) web None = [] /\
  suggestVendorLogoPaths ascii_normalize ascii_toLowerCase (ustr "!!!")
    (mkManifest (Some [ustr "web/acme-web.png"]) None) = (None, None).
Proof.
  apply (no_slug_no_suggestion ascii_normalize ascii_toLowerCase (ustr "!!!")).
  reflexivity.
Defined.

Lemma logo_named_by_slug_scores_100_witness :
  scoreLogoPath ascii_normalize ascii_toLowerCase (ustr "Bambu Lab")
    (ustr "vendor-logos/print/bambu-lab.png") print = 100 /\
  findBestPath ascii_normalize ascii_toLowerCase (ustr "Bambu Lab")
    [ustr "web/bambu-web.png"; ustr "web/bambu-lab-web.png"] web
  = Some (ustr "web/bambu-lab-web.png").
Proof.
  assert (Hne : slugifyVendorName ascii_normalize ascii_toLowerCase (Some (ustr "Bambu Lab")) <> [])
    by (vm_compute; discriminate).
  split.
  - pose proof (logo_named_by_slug_scores_100 ascii_normalize ascii_toLowerCase
                  ascii_normalize_slug ascii_toLowerCase_slug
                  (ustr "Bambu Lab") (ustr "vendor-logos/print") Hne) as H.
    cbv zeta in H. destruct H as [H _]. exact H.
  - vm_compute. reflexivity.
Defined.
End VendorLogoFacts.
